(** * pyannote-audio: speaker-embedding application and domain classification

    A shallow embedding of
      - [pyannote/audio/applications/speaker_embedding_keras.py]
        (class [SpeakerEmbedding]: [_params_to_directory],
        [_directory_to_params], [data], [_validate_init_default],
        [_validate_epoch_verification], [_validate_epoch_default], [apply],
        the paths of [train], [from_train_dir] and [from_validate_txt], the
        choice of the track in [validate_init] and [validate_epoch], and the
        reading of the log in the [compare] mode of [main]);
      - [pyannote/audio/labeling/tasks/domain_classification.py]
        (class [DomainClassification]: [get_classes], [prepare_data],
        [validation]).

    Conventions of the embedding.
      - A Python exception is the name of its class; code that may raise
        returns a [result].
      - HDF5 datasets (h5py) are lists: [Dataset.resize(n, axis=0)] is
        [resize n fill], item assignment is a bounds-checked list insert.
      - Python dictionaries are [gmap]s, Python sets are [gset]s; the
        [SortedDict] is a key-sorted association list.
      - Numbers that the code only compares, prints or divides (durations,
        metric values, scores) are the decimal or rational numbers they
        denote; arrays of features and embedding vectors are opaque values
        produced by the collaborators (feature extraction, network). *)

From stdpp Require Import gmap strings list fin_maps sorting.
From Stdlib Require Import QArith Ascii.
Close Scope Q_scope.

#[local] Set Warnings "-clear-no-such-hyp".

(** ** Exceptions and fallible computations *)

Definition exn := string.

Inductive result (A : Type) : Type :=
| Ok (a : A)
| Raise (e : exn).
Arguments Ok {A} a.
Arguments Raise {A} e.

Definition raises {A} (r : result A) (e : exn) : Prop := r = Raise e.

#[global] Instance result_ret : MRet result := @Ok.
#[global] Instance result_bind : MBind result := fun A B f r =>
  match r with Ok a => f a | Raise e => Raise e end.

(** [a < b] on the numbers read from a log or produced as scores. *)
Definition Qltb (a b : Q) : bool := negb (Qle_bool b a).

(** Order of Python strings. *)
Definition str_le (s1 s2 : string) : Prop := String.leb s1 s2 = true.

#[global] Instance str_le_dec s1 s2 : Decision (str_le s1 s2).
Proof. unfold str_le. apply _. Defined.

(** [for v in l: body] where the body may raise: the loop stops at the first
    exception. *)
Fixpoint for_each {S A : Type} (body : S → A → result S) (l : list A) (s : S)
  : result S :=
  match l with
  | [] => Ok s
  | a :: l' => s' ← body s a; for_each body l' s'
  end.

(** ** The sequence store written by [SpeakerEmbedding.data] *)

Module Store.

(** A label is a speaker identifier, stored as variable-length bytes. *)
Abbreviation label := string (only parsing).

Section Store.

(** [feat] is one cropped feature sequence ([features.crop(segment,
    mode='center', fixed=duration)]); [fill] is the all-zero row h5py puts in
    the unwritten part of the [X] dataset; [attrs] holds the normalisation
    statistics [mu] and [sigma], computed by [stats] from the rows of [X]
    (floating point, left opaque). *)
Context {feat attrs : Type} (fill : feat) (stats : list feat → attrs).

(** The Python local [X] of [data]: it is bound by the first sequence of a
    subset, and survives from one subset to the next, where it names a
    dataset of a file that has been closed. *)
Inductive xvar :=
| XUnbound
| XClosed
| XOpen (rows : list feat).

(** The locals of [data] inside [with h5py.File(...) as fp]. *)
Record locals := Locals {
  n_sequences : nat;          (* capacity of the three datasets *)
  X : xvar;                   (* fp['X'] *)
  Y : list label;             (* fp['y'] *)
  Zs : list Z;                (* fp['z'], np.int64 *)
  i : nat;                    (* number of sequences *)
  z : Z;                      (* speech turn identifier *)
  prev_y : option label;
}.

(** [ds[i] = v] on an h5py dataset: an index past the end raises. *)
Definition setitem {A} (ds : list A) (i : nat) (v : A) : result (list A) :=
  if decide (i < length ds) then Ok (<[i:=v]> ds) else Raise "IndexError".

(** Uses of the name [X]. *)
Definition X_rows (x : xvar) : result (list feat) :=
  match x with
  | XUnbound => Raise "UnboundLocalError"
  | XClosed => Raise "ValueError"      (* h5py: invalid dataset identifier;
                                          the class of this error changes
                                          with the version of h5py, and
                                          nothing is proved from its name *)
  | XOpen rows => Ok rows
  end.

Definition X_resize (n : nat) (x : xvar) : result xvar :=
  rows ← X_rows x; Ok (XOpen (resize n fill rows)).

Definition X_setitem (x : xvar) (i : nat) (v : feat) : result xvar :=
  rows ← X_rows x; rows' ← setitem rows i v; Ok (XOpen rows').

(** [int(n_sequences * 1.1)]: the double nearest to 1.1 lies above 11/10, so
    for the sizes a store can have the product truncates to [11 n / 10]. *)
Definition grow (n : nat) : nat := Nat.div (n * 11) 10.

(** State at [with h5py.File(data_h5, mode='w') as fp:], lines 335-350. *)
Definition init (x : xvar) (prev : option label) : locals :=
  {| n_sequences := 1000; X := x;
     Y := replicate 1000 ""; Zs := replicate 1000 0%Z;
     i := 0; z := 0%Z; prev_y := prev |}.

(** Lines 368-382, [if i == 0:]: the first sequence creates the [X] dataset
    and initialises [prev_y]. *)
Definition first_sequence (s : locals) (y : label) : locals :=
  if decide (i s = 0)
  then {| n_sequences := n_sequences s;
          X := XOpen (replicate (n_sequences s) fill);
          Y := Y s; Zs := Zs s; i := i s; z := z s; prev_y := Some y |}
  else s.

(** Lines 385-389, [if i == n_sequences:]: the three datasets grow in
    lock-step. *)
Definition ensure_capacity (s : locals) : result locals :=
  if decide (i s = n_sequences s)
  then let n := grow (n_sequences s) in
       X' ← X_resize n (X s);
       Ok {| n_sequences := n; X := X';
             Y := resize n "" (Y s); Zs := resize n 0%Z (Zs s);
             i := i s; z := z s; prev_y := prev_y s |}
  else Ok s.

(** Body of [for segment, y in generator.from_file(item)], lines 359-405. *)
Definition append (s : locals) (xy : feat * label) : result locals :=
  let '(x, y) := xy in
  let s := first_sequence s y in
  s ← ensure_capacity s;
  (* X[i] = x; Y[i] = y *)
  X' ← X_setitem (X s) (i s) x;
  Y' ← setitem (Y s) (i s) y;
  (* if y != prev_y: prev_y = y; z += 1 *)
  prev ← from_option Ok (Raise "UnboundLocalError") (prev_y s);
  let '(prev, z') := if decide (y ≠ prev) then (y, (z s + 1)%Z)
                     else (prev, z s) in
  (* Z[i] = z; i += 1 *)
  Z' ← setitem (Zs s) (i s) z';
  Ok {| n_sequences := n_sequences s; X := X'; Y := Y'; Zs := Z';
        i := i s + 1; z := z'; prev_y := Some prev |}.

(** A file of the protocol, as [data] sees it: the (feature sequence, label)
    pairs that [generator.from_file(item)] and [features.crop] produce. *)
Definition file := list (feat * label).

(** [for item in file_generator: for segment, y in ...], lines 352-405. *)
Definition write_loop (files : list file) (s : locals) : result locals :=
  for_each (fun s item => for_each append item s) files s.

(** The finished store. *)
Record store := StoreOf {
  st_X : list feat;
  st_y : list label;
  st_z : list Z;
  st_attrs : attrs;
}.

(** Lines 407-421: truncation and normalisation statistics.  The name [X] is
    evaluated before its [resize] is called; [i - 1] is a Python integer, and
    no dataset can be resized to [-1] rows; the [zip] of the per-row
    statistics of a dataset without rows cannot be unpacked into the three
    names [weights, means, squared_means]. *)
Definition finalize (s : locals) : result (locals * store) :=
  _ ← X_rows (X s);
  if decide (i s = 0) then Raise "ValueError"
  else
    X' ← X_resize (i s - 1) (X s);
    let Y' := resize (i s - 1) "" (Y s) in
    let Z' := resize (i s - 1) 0%Z (Zs s) in
    rows ← X_rows X';
    if decide (rows = []) then Raise "ValueError"
    else Ok ({| n_sequences := n_sequences s; X := X'; Y := Y'; Zs := Z';
                i := i s; z := z s; prev_y := prev_y s |},
             {| st_X := rows; st_y := Y'; st_z := Z';
                st_attrs := stats rows |}).

(** One iteration of [for subset in ['train', 'development', 'test']] for a
    subset the protocol implements: [next(file_generator)] raises
    [StopIteration] on a subset without files. *)
Definition build (files : list file) (x : xvar) (prev : option label)
  : result (locals * store) :=
  match files with
  | [] => Raise "StopIteration"
  | _ => s ← write_loop files (init x prev); finalize s
  end.

(** [data]: the subsets in order; [None] is a subset whose generator raises
    [NotImplementedError], which is skipped.  The names [X] and [prev_y] are
    carried from one subset to the next. *)
Fixpoint data_from (subsets : list (option (list file)))
    (x : xvar) (prev : option label) : result (list store) :=
  match subsets with
  | [] => Ok []
  | None :: rest => data_from rest x prev
  | Some files :: rest =>
      '(s, st) ← build files x prev;
      sts ← data_from rest XClosed (prev_y s);
      Ok (st :: sts)
  end.

Definition data (train development test : option (list file))
  : result (list store) :=
  data_from [train; development; test] XUnbound None.

(** The speech-turn identifiers the labels [ys] call for, written without the
    loop: the first sequence opens turn 0 and a sequence opens a new turn
    when its label differs from the label just before it. *)
Fixpoint turn_ids_from (z : Z) (prev : label) (ys : list label) : list Z :=
  match ys with
  | [] => []
  | y :: ys' => let z' := if decide (y = prev) then z else (z + 1)%Z in
                z' :: turn_ids_from z' y ys'
  end.

Definition turn_ids (ys : list label) : list Z :=
  match ys with
  | [] => []
  | y :: _ => turn_ids_from 0 y ys
  end.

(** What the locals hold once the sequences [l] have been appended. *)
Definition written (l : list (feat * label)) (s : locals) : Prop :=
  i s = length l ∧ length l ≤ n_sequences s ∧ 1000 ≤ n_sequences s ∧
  (∃ rows, X s = XOpen rows ∧ length rows = n_sequences s ∧
           take (length l) rows = l.*1) ∧
  (length (Y s) = n_sequences s ∧ take (length l) (Y s) = l.*2) ∧
  (length (Zs s) = n_sequences s ∧ take (length l) (Zs s) = turn_ids l.*2) ∧
  prev_y s = last l.*2 ∧ Some (z s) = last (turn_ids l.*2).

End Store.
End Store.

(** ** Selection of the best epoch ([apply], lines 679-683) and the
    validation log as read by the [compare] mode (lines 824-827) *)

Module EpochSelector.

(** One line of [validate.txt]: the epoch and the value of the metric.  The
    values are only compared, so they are the rationals the decimals of the
    file denote. *)
Definition record : Type := Z * Q.

(** [SortedDict]: an association list kept sorted by key; setting a key that
    is present replaces its value. *)
Fixpoint sd_setitem (k : Z) (v : Q) (d : list record) : list record :=
  match d with
  | [] => [(k, v)]
  | (k', v') :: d' =>
      if (k <? k')%Z then (k, v) :: d
      else if (k =? k')%Z then (k, v) :: d'
      else (k', v') :: sd_setitem k v d'
  end.

(** [SortedDict(rows)]: the rows are set one after the other, in file
    order. *)
Definition SortedDict (rows : list record) : list record :=
  foldl (fun d r => sd_setitem r.1 r.2 d) [] rows.

(** [d.get(k)] *)
Fixpoint sd_get (k : Z) (d : list record) : option Q :=
  match d with
  | [] => None
  | (k', v) :: d' => if (k =? k')%Z then Some v else sd_get k d'
  end.

(** [np.argmin]: the position of the first smallest value. *)
Fixpoint argmin_from (best_i : nat) (best : Q) (cur : nat) (vs : list Q) : nat :=
  match vs with
  | [] => best_i
  | v :: vs' =>
      if Qltb v best then argmin_from cur v (S cur) vs'
      else argmin_from best_i best (S cur) vs'
  end.

Definition argmin (vs : list Q) : result nat :=
  match vs with
  | [] => Raise "ValueError"
  | v :: vs' => Ok (argmin_from 0 v 1 vs')
  end.

(** Lines 680-682 of [apply].  [np.loadtxt] gives a two-dimensional array
    only for a file of two lines or more: the single row of a one-line file
    is not a sequence of pairs, and an empty file has no smallest value. *)
Definition best_epoch (log : list record) : result Z :=
  match log with
  | [_] => Raise "TypeError"
  | _ =>
      let eers := SortedDict log in
      idx ← argmin (eers.*2);
      from_option Ok (Raise "IndexError") (eers.*1 !! idx)
  end.

(** Lines 825-827 of [main], mode [compare]:
    [eer.loc[~eer.index.duplicated(keep='first')]] keeps, for every epoch,
    the first line of the log that carries it. *)
Fixpoint drop_duplicated (seen : list Z) (log : list record) : list record :=
  match log with
  | [] => []
  | (k, v) :: log' =>
      if decide (k ∈ seen) then drop_duplicated seen log'
      else (k, v) :: drop_duplicated (k :: seen) log'
  end.

Definition keep_first (log : list record) : list record :=
  drop_duplicated [] log.

(** The selector as the specification words it: duplicates dropped keeping
    the first occurrence, then the epoch of the smallest value. *)
Definition select_best_spec (log : list record) : result Z :=
  let eers := keep_first log in
  idx ← argmin (eers.*2);
  from_option Ok (Raise "IndexError") (eers.*1 !! idx).

(** The log of the specification's example. *)
Definition example_log : list record :=
  [(1, 3 # 10); (2, 1 # 10); (2, 5 # 10); (3, 2 # 10)]%Z%Q.

End EpochSelector.

(** ** Internal embeddings by batches ([_validate_epoch_default],
    lines 650-663) *)

Module Batches.
Section Batches.

(** [seq_t] is one feature sequence of [validation_data['XX']], [emb] the
    internal representation of one sequence; [embed] is the local function
    of the same name, the network applied to a batch: one output row per
    input row. *)
Context {seq_t emb : Type} (embed : list seq_t → list emb).

(** [np.arange(0, stop, step)], for a positive [step]. *)
Fixpoint arange_from (start count step : nat) : list nat :=
  match count with
  | 0 => []
  | S c => start :: arange_from (start + step) c step
  end.

Definition arange (stop step : nat) : list nat :=
  arange_from 0 (Nat.div (stop + step - 1) step) step.

(** [pyannote.core.util.pairwise]: (s0, s1), (s1, s2), ... *)
Definition pairwise {A} (l : list A) : list (A * A) := zip l (tail l).

(** [XX[i:j]] *)
Definition slice {A} (l : list A) (i j : nat) : list A :=
  take (j - i) (drop i l).

(** Lines 660-662: the boundaries of the batches. *)
Definition batches (n batch_size : nat) : list nat :=
  arange n batch_size ++
  (if decide (n `mod` batch_size ≠ 0) then [n] else []).

(** [np.vstack] of a sequence of arrays; there must be at least one. *)
Definition vstack {A} (arrays : list (list A)) : result (list A) :=
  match arrays with
  | [] => Raise "ValueError"
  | _ => Ok (concat arrays)
  end.

(** Line 663. *)
Definition embed_batches (batch_size : nat) (XX : list seq_t)
  : result (list emb) :=
  vstack ((fun ij => embed (slice XX ij.1 ij.2))
            <$> pairwise (batches (length XX) batch_size)).

(** Line 629. *)
Definition batch_size : nat := 2048.

Definition internal_embeddings (XX : list seq_t) : result (list emb) :=
  embed_batches batch_size XX.

End Batches.
End Batches.

(** ** Export of the embeddings ([apply], lines 711-733) *)

Module Apply.
Section Apply.

(** [file] is a file of the protocol, [uid] is
    [pyannote.database.get_unique_identifier]. *)
Context {file : Type} (uid : file → string).

(** [processed_uris], and the files on which [sequence_embedding.apply]
    followed by [precomputed.dump] has been run, in order. *)
Record state := State {
  processed_uris : gset string;
  dumped : list file;
}.

(** Body of [for current_file in file_generator], lines 725-733. *)
Definition apply_file (st : state) (current_file : file) : state :=
  let uri := uid current_file in
  if decide (uri ∈ processed_uris st) then st
  else {| processed_uris := processed_uris st ∪ {[uri]};
          dumped := dumped st ++ [current_file] |}.

(** [for subset in ['development', 'test', 'train']].  A subset is [None]
    when its generator raises [NotImplementedError] (the subset is skipped);
    [next(file_generator)] on a subset without files raises [StopIteration],
    which nothing catches.  The state reached is returned with the exception,
    if any. *)
Fixpoint apply_subsets (subsets : list (option (list file))) (st : state)
  : state * option exn :=
  match subsets with
  | [] => (st, None)
  | None :: rest => apply_subsets rest st
  | Some [] :: rest => (st, Some "StopIteration")
  | Some files :: rest => apply_subsets rest (foldl apply_file st files)
  end.

Definition apply_files (development test train : option (list file))
  : state * option exn :=
  apply_subsets [development; test; train]
    {| processed_uris := ∅; dumped := [] |}.

(** The files [apply] iterates over, in order, up to the exception. *)
Fixpoint enumerated (subsets : list (option (list file))) : list file :=
  match subsets with
  | [] => []
  | None :: rest => enumerated rest
  | Some [] :: rest => []
  | Some files :: rest => files ++ enumerated rest
  end.

(** The files of [l] whose identifier is neither in [seen] nor carried by an
    earlier file of [l]. *)
Fixpoint first_by_uid (seen : gset string) (l : list file) : list file :=
  match l with
  | [] => []
  | f :: l' =>
      if decide (uid f ∈ seen) then first_by_uid seen l'
      else f :: first_by_uid (seen ∪ {[uid f]}) l'
  end.

End Apply.
End Apply.

(** ** Validation on speaker-verification protocols
    ([_validate_epoch_verification], lines 569-614) *)

Module Verification.
Section Verification.

(** [file] is a file of the protocol and [uid] its unique identifier; [span]
    is the value of [tuple(item['enrol_with'])] or [tuple(item['try_with'])];
    [khash uid span] is Python's [hash((uid, span))], about which nothing is
    assumed; [embed_mean file span] is the vector obtained by
    [sequence_embedding.apply], [crop] and [np.mean]; [cdist] is the distance
    of the approach. *)
Context {file span vec dist : Type}.
Context (uid : file → string) (khash : string → span → Z).
Context (embed_mean : file → span → vec) (cdist : vec → vec → dist).

Record enrolment := Enrolment {
  e_file : file;
  e_model_id : string;
  enrol_with : span;
}.

Record trial := Trial {
  t_file : file;
  t_model_id : string;
  try_with : span;
  reference : bool;
}.

(** Where the vector of a trial came from: which branch of lines 596-609
    was taken. *)
Inductive source :=
| FromEnrolment (model_id : string)
| FromTrialCache
| Computed.

(** The dictionaries and lists of lines 569-588, and [log]: for every trial
    processed, the value of [model] and the branch that produced it. *)
Record caches := Caches {
  enrolment_models : gmap string vec;
  enrolment_khashes : gmap Z string;
  trial_models : gmap Z vec;
  y_true : list bool;
  y_pred : list dist;
  log : list (vec * source);
}.

Definition no_caches : caches :=
  {| enrolment_models := ∅; enrolment_khashes := ∅; trial_models := ∅;
     y_true := []; y_pred := []; log := [] |}.

Definition e_hash (e : enrolment) : Z := khash (uid (e_file e)) (enrol_with e).
Definition t_hash (t : trial) : Z := khash (uid (t_file t)) (try_with t).

(** Body of [for i, enrolment in enumerate(enrolments)], lines 572-584. *)
Definition enrol (st : caches) (e : enrolment) : caches :=
  {| enrolment_models :=
       <[e_model_id e := embed_mean (e_file e) (enrol_with e)]>
         (enrolment_models st);
     enrolment_khashes := <[e_hash e := e_model_id e]> (enrolment_khashes st);
     trial_models := trial_models st;
     y_true := y_true st; y_pred := y_pred st; log := log st |}.

(** [d[k]] on a dictionary. *)
Definition getitem `{Countable K} {V} (d : gmap K V) (k : K) : result V :=
  from_option Ok (Raise "KeyError") (d !! k).

(** Lines 595-609: the vector of a trial, its origin, and the trial cache
    after it. *)
Definition trial_model (st : caches) (t : trial)
  : result (vec * source * gmap Z vec) :=
  let h := t_hash t in
  match enrolment_khashes st !! h with
  | Some m =>
      model ← getitem (enrolment_models st) m;
      Ok (model, FromEnrolment m, trial_models st)
  | None =>
      match trial_models st !! h with
      | Some model => Ok (model, FromTrialCache, trial_models st)
      | None =>
          let model := embed_mean (t_file t) (try_with t) in
          Ok (model, Computed, <[h := model]> (trial_models st))
      end
  end.

(** Body of [for i, trial in enumerate(trials)], lines 590-614. *)
Definition verify (st : caches) (t : trial) : result caches :=
  '(model, src, tm) ← trial_model st t;
  target ← getitem (enrolment_models st) (t_model_id t);
  Ok {| enrolment_models := enrolment_models st;
        enrolment_khashes := enrolment_khashes st;
        trial_models := tm;
        y_true := y_true st ++ [reference t];
        y_pred := y_pred st ++ [cdist target model];
        log := log st ++ [(model, src)] |}.

(** The two loops. *)
Definition validate (enrolments : list enrolment) (trials : list trial)
  : result caches :=
  for_each verify trials (foldl enrol no_caches enrolments).


End Verification.

(** A small protocol: files are named by their identifier, spans are
    numbers, the averaged vector of a (file, span) is the pair itself. *)
Definition toy_hash (u : string) (s : nat) : Z :=
  (100 * Z.of_nat (String.length u) + Z.of_nat s)%Z.

Definition toy_validate :=
  validate (file:=string) (span:=nat) (vec:=string * nat) (dist:=unit)
    (fun f => f) toy_hash (fun f s => (f, s)) (fun _ _ => ()).

End Verification.

(** ** Domain classification ([DomainClassification.get_classes] and
    [DomainClassification.validation]) *)

Module DomainClassification.

(** A protocol file, as the task reads it: [file[self.hparams.domain]] and
    [file["scores"]], one row of scores per frame and one column per class. *)
Record file := File {
  domain : string;
  scores : list (list Q);
}.

(** [sorted(set(file[self.hparams.domain] for file in self.files))] *)
Definition get_classes (files : list file) : list string :=
  merge_sort str_le (remove_dups (domain <$> files)).

(** [np.argmax] of one row: the position of the first largest score. *)
Fixpoint argmax_from (best_i : nat) (best : Q) (cur : nat) (row : list Q) : nat :=
  match row with
  | [] => best_i
  | v :: row' =>
      if Qltb best v then argmax_from cur v (S cur) row'
      else argmax_from best_i best (S cur) row'
  end.

Definition argmax (row : list Q) : result nat :=
  match row with
  | [] => Raise "ValueError"
  | v :: row' => Ok (argmax_from 0 v 1 row')
  end.

(** [np.argmax(file["scores"], axis=1)] *)
Fixpoint argmax_axis1 (rows : list (list Q)) : result (list nat) :=
  match rows with
  | [] => Ok []
  | row :: rows' => a ← argmax row; l ← argmax_axis1 rows'; Ok (a :: l)
  end.

(** [collections.Counter]: the counts, in order of first appearance. *)
Fixpoint counter_add (x : nat) (c : list (nat * nat)) : list (nat * nat) :=
  match c with
  | [] => [(x, 1)]
  | (y, n) :: c' =>
      if decide (x = y) then (y, S n) :: c' else (y, n) :: counter_add x c'
  end.

Definition Counter (l : list nat) : list (nat * nat) :=
  foldl (fun c x => counter_add x c) [] l.

(** [c[x]]: the count of [x], 0 when [x] was never counted. *)
Fixpoint counter_get (x : nat) (c : list (nat * nat)) : nat :=
  match c with
  | [] => 0
  | (y, n) :: c' => if decide (x = y) then n else counter_get x c'
  end.

(** [max(items, key=itemgetter(1))]: the first item with the largest count. *)
Fixpoint max_by_count (best : nat * nat) (c : list (nat * nat)) : nat * nat :=
  match c with
  | [] => best
  | kv :: c' =>
      if decide (best.2 < kv.2) then max_by_count kv c'
      else max_by_count best c'
  end.

(** [c.most_common(1)[0][0]] *)
Definition most_common_1 (c : list (nat * nat)) : result nat :=
  match c with
  | [] => Raise "IndexError"
  | kv :: c' => Ok (max_by_count kv c').1
  end.

(** [domains.index(d)] *)
Definition index (domains : list string) (d : string) : result nat :=
  from_option (fun r => Ok r.1) (Raise "ValueError")
              (list_find (fun d' => d' = d) domains).

(** A Python float: the value of [np.mean] is a ratio of two counts, or
    [nan] when there is nothing to average. *)
Inductive pyfloat :=
| Finite (q : Q)
| NaN.

(** [np.mean(np.array(y_true_file) == np.array(y_pred_file))] *)
Definition hits (y_true y_pred : list nat) : nat :=
  length (filter (fun tp => tp.1 = tp.2) (zip y_true y_pred)).

Definition mean_equal (y_true y_pred : list nat) : pyfloat :=
  match length y_true with
  | 0 => NaN
  | S n => Finite (Z.of_nat (hits y_true y_pred) # Pos.of_succ_nat n)
  end.

Record metric_record := Metric {
  metric : string;
  minimize : bool;
  value : pyfloat;
}.

(** Body of [for file in files], lines 151-156. *)
Definition validate_file (domains : list string)
    (acc : list nat * list nat) (f : file) : result (list nat * list nat) :=
  let '(y_true_file, y_pred_file) := acc in
  y_pred ← argmax_axis1 (scores f);
  pred ← most_common_1 (Counter y_pred);
  y_true ← index domains (domain f);
  Ok (y_true_file ++ [y_true], y_pred_file ++ [pred]).

(** [validation].  [self.classes] is provided by [BaseTask], outside this
    repository's sources: it is taken to be [self.get_classes()], the classes
    of the files the task was set up with ([task_files]). *)
Definition validation (task_files files : list file) : result metric_record :=
  let criterion := "accuracy" in
  let domains := get_classes task_files in
  '(y_true_file, y_pred_file) ← for_each (validate_file domains) files ([], []);
  let accuracy := mean_equal y_true_file y_pred_file in
  Ok {| metric := criterion; minimize := false; value := accuracy |}.

(** What [np.argmax] and [most_common] are meant to select. *)
Definition first_max (row : list Q) (a : nat) : Prop :=
  ∃ v, row !! a = Some v ∧
       (∀ j w, row !! j = Some w → (w <= v)%Q) ∧
       (∀ j w, j < a → row !! j = Some w → (w < v)%Q).

Definition most_frequent (l : list nat) (p : nat) : Prop :=
  p ∈ l ∧ ∀ q, count_occ Nat.eq_dec l q ≤ count_occ Nat.eq_dec l p.

(** [p] is a most frequent per-frame argmax of the scores of [f]. *)
Definition predicted (f : file) (p : nat) : Prop :=
  ∃ am, Forall2 first_max (scores f) am ∧ most_frequent am p.

End DomainClassification.

(** ** Directory names ([_params_to_directory] and [_directory_to_params]) *)

Module Directory.

(** A finite Python number, as the decimal [dm * 10 ^ de] it is: every
    finite float and every int is such a decimal, and the decimals of the
    command line ([float('3.2')]) stand for themselves.  There is one zero
    here, where Python floats have two: [-0.0], which ['{:g}'] prints as
    ['-0'], has no counterpart, and what is proved of numbers that are
    printed and read back is proved of positive numbers. *)
Record dec := Dec {
  dm : Z;
  de : Z;
}.

(** [a == b] on numbers. *)
Definition dec_eqb (a b : dec) : bool :=
  let c := Z.min (de a) (de b) in
  (dm a * 10 ^ (de a - c) =? dm b * 10 ^ (de b - c))%Z.

(** Decimal digits of a natural number, least significant digit first. *)
Fixpoint digits_le (fuel : nat) (n : N) : list N :=
  match fuel with
  | 0 => []
  | S fuel' =>
      if (n <? 10)%N then [n]
      else (n `mod` 10)%N :: digits_le fuel' (n `div` 10)%N
  end.

(** The digits of [n], most significant first, without leading zero. *)
Definition digits (n : N) : list N :=
  rev (digits_le (S (N.to_nat (N.log2 n))) n).

Definition ndigits (n : N) : nat := length (digits n).

(** The [w] low digits of [n], least significant first. *)
Fixpoint fixed_le (w : nat) (n : N) : list N :=
  match w with
  | 0 => []
  | S w' => (n `mod` 10)%N :: fixed_le w' (n `div` 10)%N
  end.

Fixpoint drop_zeros (ds : list N) : list N :=
  match ds with
  | 0%N :: ds' => drop_zeros ds'
  | _ => ds
  end.

(** The [w] digits after the decimal point, insignificant trailing zeros
    removed. *)
Definition fraction (w : nat) (n : N) : list N :=
  rev (drop_zeros (fixed_le w n)).

Definition digit_char (d : N) : ascii := ascii_of_N (48 + d).

Definition chars (ds : list N) : list ascii := digit_char <$> ds.

(** The point and the digits after it, when there are any. *)
Definition point_fraction (fp : list N) : list ascii :=
  match fp with
  | [] => []
  | _ => "."%char :: chars fp
  end.

(** Rounding of the mantissa [m] to six significant digits, to nearest and
    to even on a tie: the six digits, and 1 when the rounding carried into a
    seventh digit. *)
Definition round6 (m : N) : N * Z :=
  let L := ndigits m in
  if decide (L ≤ 6) then ((m * 10 ^ N.of_nat (6 - L))%N, 0%Z)
  else
    let p := (10 ^ N.of_nat (L - 6))%N in
    let q := (m `div` p)%N in
    let r := (m `mod` p)%N in
    let q' := if (2 * r <? p)%N then q
              else if (2 * r =? p)%N then (if N.even q then q else q + 1)%N
              else (q + 1)%N in
    if (q' =? 10 ^ 6)%N then ((10 ^ 5)%N, 1%Z) else (q', 0%Z).

(** The exponent of the [e] notation: a sign and at least two digits. *)
Definition exponent_chars (X : Z) : list ascii :=
  let ds := digits (Z.abs_N X) in
  (if decide (X < 0)%Z then "-"%char else "+"%char) ::
  (if decide (length ds < 2) then "0"%char :: chars ds else chars ds).

(** ['{:g}'.format(x)]: six significant digits, fixed notation when the
    decimal exponent [X] of the rounded number satisfies [-4 <= X < 6] and
    exponent notation otherwise, without insignificant trailing zeros. *)
Definition format_g (x : dec) : list ascii :=
  if decide (dm x = 0)%Z then ["0"%char]
  else
    let sign := if decide (dm x < 0)%Z then ["-"%char] else [] in
    let m := Z.abs_N (dm x) in
    let '(M, carry) := round6 m in
    let X := (Z.of_nat (ndigits m) - 1 + de x + carry)%Z in
    if decide (-4 ≤ X < 6)%Z then
      let s := Z.to_nat (5 - X) in
      sign ++ chars (digits (M `div` 10 ^ N.of_nat s)%N)
           ++ point_fraction (fraction s M)
    else
      sign ++ chars (digits (M `div` 10 ^ 5)%N)
           ++ point_fraction (fraction 5 M)
           ++ "e"%char :: exponent_chars X.

(** Reading a number. *)
Definition digit_of_char (c : ascii) : option N :=
  let n := N_of_ascii c in
  if decide (48 ≤ n ≤ 57)%N then Some (n - 48)%N else None.

(** The longest prefix of digits, and what follows it. *)
Fixpoint take_digits (s : list ascii) : list N * list ascii :=
  match s with
  | [] => ([], [])
  | c :: s' =>
      match digit_of_char c with
      | Some d => let '(ds, rest) := take_digits s' in (d :: ds, rest)
      | None => ([], s)
      end
  end.

Definition value_be (ds : list N) : N :=
  foldl (fun a d => (10 * a + d)%N) 0%N ds.

(** The same, from digits given least significant first. *)
Definition value_le (ds : list N) : N :=
  foldr (fun d a => (d + 10 * a)%N) 0%N ds.

Definition take_sign (s : list ascii) : bool * list ascii :=
  match s with
  | "-"%char :: s' => (true, s')
  | "+"%char :: s' => (false, s')
  | _ => (false, s)
  end.

(** [float(s)] on the finite decimal literals: an optional sign, digits
    with an optional point, an optional exponent.  Python reads more than
    these (surrounding blanks, underscores between digits, [inf], [nan]),
    none of which ['{:g}'] prints for a finite number or [split] leaves in a
    token of a directory name; they are answered with [ValueError] here, and
    nothing is proved from such an answer. *)
Definition float (s : list ascii) : result dec :=
  let '(neg, s) := take_sign s in
  let '(ip, s) := take_digits s in
  let '(fp, s) := match s with
                  | "."%char :: s' => take_digits s'
                  | _ => ([], s)
                  end in
  if decide (ip ++ fp = []) then Raise "ValueError"
  else
    let m := Z.of_N (value_be (ip ++ fp)) in
    let m := if neg then (- m)%Z else m in
    match s with
    | [] => Ok (Dec m (- Z.of_nat (length fp)))
    | c :: s' =>
        if decide (c = "e"%char ∨ c = "E"%char) then
          let '(eneg, s') := take_sign s' in
          let '(ed, s') := take_digits s' in
          match ed, s' with
          | _ :: _, [] =>
              let e := Z.of_N (value_be ed) in
              let e := if eneg then (- e)%Z else e in
              Ok (Dec m (e - Z.of_nat (length fp)))
          | _, _ => Raise "ValueError"
          end
        else Raise "ValueError"
    end.

(** [s.split(sep)] *)
Fixpoint split (sep : ascii) (s : list ascii) : list (list ascii) :=
  match s with
  | [] => [[]]
  | c :: s' =>
      if decide (c = sep) then [] :: split sep s'
      else match split sep s' with
           | [] => [[c]]
           | w :: ws => (c :: w) :: ws
           end
  end.

(** Lines 262-277. *)
Definition _params_to_directory (duration : dec) (min_duration step : option dec)
    (heterogeneous skip_unlabeled : bool) : result string :=
  if negb skip_unlabeled then Raise "NotImplementedError"
  else
    let DIRECTORY :=
      match min_duration with
      | None => []
      | Some min_duration => format_g min_duration ++ ["-"%char]
      end in
    let DIRECTORY := DIRECTORY ++ format_g duration in
    let DIRECTORY :=
      match step with
      | None => DIRECTORY
      | Some step => DIRECTORY ++ "+"%char :: format_g step
      end in
    let DIRECTORY :=
      if heterogeneous then DIRECTORY ++ ["x"%char] else DIRECTORY in
    Ok (String.string_of_list_ascii DIRECTORY).

(** [tokens[k]] *)
Definition token (tokens : list (list ascii)) (k : nat) : result (list ascii) :=
  from_option Ok (Raise "IndexError") (tokens !! k).

(** Lines 291-293: the first token, around ['-']. *)
Definition parse_durations (t0 : list ascii) : result (dec * option dec) :=
  let tokens := split "-"%char t0 in
  min_duration ← (if decide (length tokens = 2)
                  then t ← token tokens 0; x ← float t; Ok (Some x)
                  else Ok None);
  duration ← (if decide (length tokens = 1)
              then t ← token tokens 0; float t
              else t ← token tokens 1; float t);
  Ok (duration, min_duration).

(** Lines 289-293: the tokens around ['+'], then around ['-']. *)
Definition parse_tokens (directory : list ascii)
  : result (dec * option dec * option dec) :=
  let tokens := split "+"%char directory in
  step ← (if decide (length tokens = 2)
          then t ← token tokens 1; x ← float t; Ok (Some x)
          else Ok None);
  t0 ← token tokens 0;
  '(duration, min_duration) ← parse_durations t0;
  Ok (duration, min_duration, step).

(** Lines 283-294.  [directory[-1]] raises [IndexError] on the empty
    string. *)
Definition _directory_to_params (directory : string)
  : result (dec * option dec * option dec * bool) :=
  let directory := String.list_ascii_of_string directory in
  c ← from_option Ok (Raise "IndexError") (last directory);
  let '(heterogeneous, directory) :=
    if decide (c = "x"%char)
    then (true, take (length directory - 1) directory)
    else (false, directory) in
  '(duration, min_duration, step) ← parse_tokens directory;
  Ok (duration, min_duration, step, heterogeneous).

(** Equality of the tuples ([==]). *)
Definition option_dec_eqb (a b : option dec) : bool :=
  match a, b with
  | Some a, Some b => dec_eqb a b
  | None, None => true
  | _, _ => false
  end.

Definition params_eqb (p q : dec * option dec * option dec * bool) : bool :=
  let '(d, m, s, h) := p in
  let '(d', m', s', h') := q in
  dec_eqb d d' && option_dec_eqb m m' && option_dec_eqb s s' && bool_decide (h = h').

(** Numbers written with at most six digits for which ['{:g}'] uses the
    fixed notation: zero, and the positive [m * 10 ^ e] whose mantissa has at
    most six digits and whose leading digit has a weight between [10 ^ -4]
    and [10 ^ 5]. *)
Definition short (x : dec) : Prop :=
  dm x = 0%Z ∨
  (0 < dm x)%Z ∧ ndigits (Z.to_N (dm x)) ≤ 6 ∧
  (-4 ≤ Z.of_nat (ndigits (Z.to_N (dm x))) - 1 + de x < 6)%Z.

(** The same numbers without zero: the positive numbers that ['{:g}'] prints
    exactly, in fixed notation. *)
Definition short_positive (x : dec) : Prop :=
  (0 < dm x)%Z ∧ ndigits (Z.to_N (dm x)) ≤ 6 ∧
  (-4 ≤ Z.of_nat (ndigits (Z.to_N (dm x))) - 1 + de x < 6)%Z.

(** All the lists of digits hold digits. *)
Definition all_digits (ds : list N) : Prop := Forall (fun d => (d < 10)%N) ds.

(** A character of a number printed in fixed notation. *)
Definition plain (c : ascii) : Prop :=
  is_Some (digit_of_char c) ∨ c = "."%char.

End Directory.

(** ** The balanced sample of the validation set
    ([_validate_init_default], lines 478-519) *)

Module Sampler.
Section Sampler.

(** [feat] is one feature sequence of the store.  [rng] is the state of
    numpy's random generator and [choice g a size] stands for
    [np.random.choice(a, size=size, replace=False)] run in state [g]: the
    selection and the next state.  [seed] is the state that
    [np.random.seed(1337)] sets. *)
Context {feat rng : Type}.
Context (choice : rng → list nat → nat → list nat * rng) (seed : rng).

(** The three datasets of the store, as read from the file. *)
Record h5 := H5 {
  h5_X : list feat;
  h5_y : list string;
  h5_z : list Z;
}.

(** The positions of the elements of [l] that satisfy [P], in increasing
    order ([np.where(...)[0]], the index of a group). *)
Fixpoint positions_from {A} (P : A → Prop) `{∀ a, Decision (P a)}
    (off : nat) (l : list A) : list nat :=
  match l with
  | [] => []
  | a :: l' =>
      if decide (P a) then off :: positions_from P (S off) l'
      else positions_from P (S off) l'
  end.

Definition positions {A} (P : A → Prop) `{∀ a, Decision (P a)} (l : list A)
  : list nat := positions_from P 0 l.

(** [df.groupby('z')]: the keys of the groups, in increasing order. *)
Definition group_keys (zs : list Z) : list Z :=
  merge_sort Z.le (remove_dups zs).

(** [z_groups.get_group(k).index] *)
Definition get_group (zs : list Z) (k : Z) : result (list nat) :=
  let rows := positions (fun v => v = k) zs in
  if decide (rows = []) then Raise "KeyError" else Ok rows.

(** [[group.y.iloc[0] for _, group in z_groups]] *)
Definition y_groups (ys : list string) (zs : list Z) : list string :=
  (fun k => default ""
              (head (positions (fun v => v = k) zs) ≫= fun r => ys !! r))
    <$> group_keys zs.

(** [np.unique(y_groups, return_inverse=True, return_counts=True)] *)
Definition unique (labels : list string) : list string :=
  merge_sort str_le (remove_dups labels).

Definition index_of (u : list string) (l : string) : nat :=
  default 0 (fst <$> list_find (fun l' => l' = l) u).

Definition inverse (labels : list string) : list nat :=
  index_of (unique labels) <$> labels.

Definition counts (labels : list string) : list nat :=
  (fun u => length (filter (fun l => l = u) labels)) <$> unique labels.

(** [h5_X[selector]] *)
Fixpoint getrows (X : list feat) (selector : list nat) : result (list feat) :=
  match selector with
  | [] => Ok []
  | r :: selector' =>
      x ← from_option Ok (Raise "IndexError") (X !! r);
      xs ← getrows X selector';
      Ok (x :: xs)
  end.

(** The four lists of line 503. *)
Record lists := Lists {
  XX : list (list feat);
  X : list feat;
  N : list nat;
  Y : list nat;
}.

(** Body of [for i in I], lines 509-514. *)
Definition add_group (st : h5) (y : list nat) (acc : lists) (i : nat)
  : result lists :=
  selector ← get_group (h5_z st) (Z.of_nat i);
  x ← getrows (h5_X st) selector;
  mid ← from_option Ok (Raise "IndexError") (x !! (length x `div` 2));
  yi ← from_option Ok (Raise "IndexError") (y !! i);
  Ok {| XX := XX acc ++ [x]; X := X acc ++ [mid];
        N := N acc ++ [length x]; Y := Y acc ++ [yi] |}.

(** Body of [for speaker in range(n_speakers)], lines 505-514. *)
Definition add_speaker (st : h5) (y cnt : list nat)
    (s : lists * rng) (speaker : nat) : result (lists * rng) :=
  let '(acc, g) := s in
  c ← from_option Ok (Raise "IndexError") (cnt !! speaker);
  let a := positions (fun v => v = speaker) y in
  let size := 10 `min` c in
  if decide (size ≤ length a) then
    let '(I_, g') := choice g a size in
    acc' ← for_each (add_group st y) I_ acc;
    Ok (acc', g')
  else Raise "ValueError".

(** What is returned: [np.vstack(XX)], [np.stack(X)], [n] and [y]. *)
Record sample := Sample {
  s_XX : list feat;
  s_X : list feat;
  s_n : list nat;
  s_y : list nat;
}.

Definition _validate_init_default (st : h5) : result sample :=
  if decide (length (h5_y st) = length (h5_z st)) then
    let labels := y_groups (h5_y st) (h5_z st) in
    let y := inverse labels in
    let cnt := counts labels in
    let n_speakers := length (unique labels) in
    '(acc, _) ← for_each (add_speaker st y cnt) (seq 0 n_speakers)
                  ({| XX := []; X := []; N := []; Y := [] |}, seed);
    if decide (XX acc = []) then Raise "ValueError"
    else Ok {| s_XX := concat (XX acc); s_X := X acc;
               s_n := N acc; s_y := Y acc |}
  else Raise "ValueError".

(** The feature sequences of the group of id [g], in store order. *)
Definition members (st : h5) (g : nat) : list feat :=
  omap (fun r => h5_X st !! r)
       (positions (fun v => v = Z.of_nat g) (h5_z st)).

(** [mid] is the temporal midpoint of the group of id [g]. *)
Definition midpoint (st : h5) (g : nat) (mid : feat) : Prop :=
  members st g !! (length (members st g) `div` 2) = Some mid.

(** [acc'] is [acc] with the outputs of the groups [chosen] appended. *)
Definition extends (st : h5) (y : list nat) (acc acc' : lists)
    (chosen : list nat) : Prop :=
  XX acc' = XX acc ++ (members st <$> chosen) ∧
  N acc' = N acc ++ ((fun g => length (members st g)) <$> chosen) ∧
  (∃ mids, X acc' = X acc ++ mids ∧ Forall2 (midpoint st) chosen mids) ∧
  (∃ cls, Y acc' = Y acc ++ cls ∧
          Forall2 (fun g c => y !! g = Some c) chosen cls).

(** [sel] is a balanced selection for the class of index [speaker]: distinct
    groups of this class, ten of them, or all of them when the class has ten
    groups or fewer. *)
Definition balanced (y : list nat) (speaker : nat) (sel : list nat) : Prop :=
  let groups := positions (fun c => c = speaker) y in
  NoDup sel ∧ sel ⊆ groups ∧ length sel = 10 `min` length groups ∧
  length sel ≤ 10 ∧ (length groups ≤ 10 → sel ≡ₚ groups).

(** What [np.random.choice(a, size=size, replace=False)] returns: [size]
    distinct elements of [a]. *)
Definition choice_contract : Prop :=
  ∀ g a size, size ≤ length a → NoDup a →
    NoDup (choice g a size).1 ∧ (choice g a size).1 ⊆ a ∧
    length (choice g a size).1 = size.

End Sampler.

(** A deterministic stand-in for the random choice: the first [size]
    candidates. *)
Definition first_k (g : unit) (a : list nat) (size : nat) : list nat * unit :=
  (take size a, g).

(** Four groups of three classes. *)
Definition toy_store : h5 (feat:=nat) :=
  H5 [10; 11; 12; 20; 30; 31; 40; 41; 42; 43]
     ["B"; "B"; "B"; "A"; "B"; "B"; "C"; "C"; "C"; "C"]
     [0; 0; 0; 1; 2; 2; 3; 3; 3; 3]%Z.

End Sampler.

(** ** Sums of the internal embeddings by group ([_validate_epoch_default],
    lines 657-668) *)

Module GroupSums.
Import Batches.
Section GroupSums.

(** [embed] is the network applied to a batch, as in [Batches]; [vec] is the
    sum of the internal representations of the sequences of a group and
    [sum_group] is [np.sum(np.sum(., axis=0), axis=0)]. *)
Context {seq_t emb vec : Type}.
Context (embed : list seq_t → list emb) (sum_group : list emb → vec).

(** [np.cumsum] *)
Fixpoint cumsum_from (acc : nat) (n : list nat) : list nat :=
  match n with
  | [] => []
  | k :: n' => (acc + k) :: cumsum_from (acc + k) n'
  end.

Definition cumsum (n : list nat) : list nat := cumsum_from 0 n.

(** Line 666: [np.hstack([[0], np.cumsum(validation_data['n'])])]. *)
Definition indices (n : list nat) : list nat := 0 :: cumsum n.

(** [fX[i:j] for i, j in pairwise(indices)] *)
Definition group_slices {A} (fX : list A) (n : list nat) : list (list A) :=
  (fun ij => slice fX ij.1 ij.2) <$> pairwise (indices n).

(** [np.stack] of a list of arrays; there must be at least one. *)
Definition stack {A} (arrays : list A) : result (list A) :=
  match arrays with
  | [] => Raise "ValueError"
  | _ => Ok arrays
  end.

(** Lines 667-668. *)
Definition group_sums (fX : list emb) (n : list nat) : result (list vec) :=
  stack (sum_group <$> group_slices fX n).

(** Lines 658-668: from the sequences [XX] and the sizes [n] of the groups
    to one vector per group. *)
Definition xseq_embeddings (XX : list seq_t) (n : list nat)
  : result (list vec) :=
  fX ← internal_embeddings embed XX; group_sums fX n.

End GroupSums.
End GroupSums.

(** ** The directories of an experiment ([DATA_DIR], [DATA_H5], [TRAIN_DIR],
    [NORM_H5], [from_train_dir], [from_validate_txt], and the paths computed
    by [data], [train], [_validate_init_default] and [apply]) *)

Module Paths.
Import Directory.

(** [p.rfind(sep)]: the position of the last [sep] of [p]. *)
Fixpoint rfind (sep : ascii) (p : list ascii) : option nat :=
  match p with
  | [] => None
  | c :: p' =>
      match rfind sep p' with
      | Some k => Some (S k)
      | None => if decide (c = sep) then Some 0 else None
      end
  end.

(** [p.rfind('/') + 1], where [rfind] is [-1] when there is no ['/']. *)
Definition after_last_sep (p : list ascii) : nat :=
  match rfind "/"%char p with
  | Some k => S k
  | None => 0
  end.

Fixpoint lstrip (sep : ascii) (p : list ascii) : list ascii :=
  match p with
  | c :: p' => if decide (c = sep) then lstrip sep p' else p
  | [] => []
  end.

(** [head.rstrip(sep)] *)
Definition rstrip (sep : ascii) (p : list ascii) : list ascii :=
  rev (lstrip sep (rev p)).

(** [os.path.dirname] (posixpath): what precedes the last ['/'], without
    the trailing slashes unless there is nothing else. *)
Definition dirname (p : list ascii) : list ascii :=
  let head := take (after_last_sep p) p in
  if decide (head ≠ [] ∧ head ≠ replicate (length head) "/"%char)
  then rstrip "/"%char head
  else head.

(** [os.path.basename] (posixpath): what follows the last ['/']. *)
Definition basename (p : list ascii) : list ascii :=
  drop (after_last_sep p) p.

(** Lines 179-184, with [str.format] applied. *)
Definition DATA_DIR (root_dir params : list ascii) : list ascii :=
  root_dir ++ "/"%char :: params.

Definition DATA_H5 (data_dir protocol subset : list ascii) : list ascii :=
  data_dir ++ String.list_ascii_of_string "/sequences/" ++ protocol
           ++ "."%char :: subset ++ String.list_ascii_of_string ".h5".

Definition TRAIN_DIR (experiment_dir protocol subset : list ascii) : list ascii :=
  experiment_dir ++ String.list_ascii_of_string "/train/" ++ protocol
                 ++ "."%char :: subset.

Definition NORM_H5 (train_dir : list ascii) : list ascii :=
  train_dir ++ String.list_ascii_of_string "/norm.h5".

(** [data], lines 306-311 and 327-329: the file written for a subset. *)
Definition data_h5_of_data (root_dir : list ascii) (duration : dec)
    (min_duration step : option dec) (heterogeneous : bool)
    (protocol subset : list ascii) : result (list ascii) :=
  params ← _params_to_directory duration min_duration step heterogeneous true;
  let data_dir := DATA_DIR root_dir (String.list_ascii_of_string params) in
  Ok (DATA_H5 data_dir protocol subset).

(** [train], lines 426-437: the directory of the training run, the file of
    sequences it reads and the file of statistics it writes. *)
Definition train_dir_of_train (experiment_dir protocol subset : list ascii)
  : list ascii :=
  TRAIN_DIR experiment_dir protocol subset.

Definition data_h5_of_train (experiment_dir protocol subset : list ascii)
  : list ascii :=
  let data_dir := dirname experiment_dir in
  DATA_H5 data_dir protocol subset.

Definition norm_h5_of_train (experiment_dir protocol subset : list ascii)
  : list ascii :=
  NORM_H5 (train_dir_of_train experiment_dir protocol subset).

(** [from_train_dir], lines 194, 198 and 209-210. *)
Definition experiment_dir_of_train_dir (train_dir : list ascii) : list ascii :=
  dirname (dirname train_dir).

Definition root_dir_of_train_dir (train_dir : list ascii) : list ascii :=
  dirname (dirname (experiment_dir_of_train_dir train_dir)).

Definition norm_h5_of_train_dir (train_dir : list ascii) : list ascii :=
  NORM_H5 train_dir.

(** [from_validate_txt], line 226. *)
Definition train_dir_of_validate_txt (validate_txt : list ascii) : list ascii :=
  dirname (dirname (dirname validate_txt)).

(** [_validate_init_default], lines 480-483. *)
Definition data_h5_of_validate (train_dir protocol subset : list ascii)
  : list ascii :=
  let data_dir := dirname (dirname (dirname train_dir)) in
  DATA_H5 data_dir protocol subset.

(** [apply], lines 686-687, and [_validate_epoch_verification], lines
    541-542: the parameters guessed from the path. *)
Definition params_of_experiment_dir (experiment_dir : list ascii)
  : result (dec * option dec * option dec * bool) :=
  let directory := basename (dirname experiment_dir) in
  _directory_to_params (String.string_of_list_ascii directory).

End Paths.

(** ** The validation track ([validate_init] and [validate_epoch], lines
    465-470 and 524-531) *)

Module Tracks.
Import Directory.

Inductive track :=
| VerificationTrack  (* [_validate_init_verification], [_validate_epoch_verification] *)
| DefaultTrack.      (* [_validate_init_default], [_validate_epoch_default] *)

(** [protocol_name.split('.')[1]] *)
Definition task (protocol_name : list ascii) : result (list ascii) :=
  token (split "."%char protocol_name) 1.

Definition validate_track (protocol_name : list ascii) : result track :=
  t ← task protocol_name;
  if decide (t = String.list_ascii_of_string "SpeakerVerification")
  then Ok VerificationTrack
  else Ok DefaultTrack.

End Tracks.

(** ** The targets of the domain classification task
    ([DomainClassification.prepare_data], lines 111-118) *)

Module PrepareData.
Import DomainClassification.

(** Body of [for file in self.files], for what it stores under
    ["_dataloader_target"] (the durations stored next to it are sums of
    floating-point numbers, left out). *)
Definition prepare_file (classes : list string) (targets : list nat) (f : file)
  : result (list nat) :=
  target ← index classes (domain f);
  Ok (targets ++ [target]).

(** The targets of the files of the task, in order; as in [validation],
    [self.classes] is taken to be [self.get_classes()]. *)
Definition prepare_data (files : list file) : result (list nat) :=
  for_each (prepare_file (get_classes files)) files [].

End PrepareData.

(** * Properties *)

#[global] Instance str_le_total : Total str_le.
Proof. intros s1 s2. apply String.leb_total. Qed.

(** ** Loops *)

Lemma for_each_app {S A} (body : S → A → result S) l1 l2 s :
  for_each body (l1 ++ l2) s = s' ← for_each body l1 s; for_each body l2 s'.
Proof.
  revert s. induction l1 as [|a l1 IH]; intros s; simpl; [done|].
  destruct (body s a) as [s'|e]; simpl; [apply IH | done].
Qed.

Lemma for_each_snoc {S A} (body : S → A → result S) l a s :
  for_each body (l ++ [a]) s = s' ← for_each body l s; body s' a.
Proof.
  rewrite for_each_app. destruct (for_each body l s) as [s'|e]; simpl; [|done].
  by destruct (body s' a).
Qed.

Module StoreFacts.
Import Store.
Section StoreFacts.
Context {feat attrs : Type} (fill : feat) (stats : list feat → attrs).
Implicit Types (l : list (feat * label)) (s : locals (feat:=feat)).

Lemma grow_gt n : 1000 ≤ n → n < grow n ∧ 1000 ≤ grow n.
Proof.
  intros Hn. unfold grow.
  assert (Nat.div (n * 11) 10 ≥ n + 100); [|lia].
  pose proof (Nat.div_mod_eq (n * 11) 10) as Hd.
  pose proof (Nat.mod_upper_bound (n * 11) 10). lia.
Qed.

Lemma turn_ids_from_snoc z p ys y :
  turn_ids_from z p (ys ++ [y]) =
  turn_ids_from z p ys ++
    [let zl := default z (last (turn_ids_from z p ys)) in
     if decide (y = default p (last ys)) then zl else (zl + 1)%Z].
Proof.
  revert z p. induction ys as [|y0 ys IH]; intros z p; simpl; [done|].
  rewrite IH. f_equal. f_equal.
  destruct ys as [|y1 ys']; [done|].
  cbn [turn_ids_from]. rewrite !last_cons_cons.
  destruct (last (_ :: turn_ids_from _ _ _)) eqn:E1; [|by apply last_None in E1].
  destruct (last (y1 :: ys')) eqn:E2; [|by apply last_None in E2]. done.
Qed.

Lemma turn_ids_snoc ys y yl zl :
  last ys = Some yl → last (turn_ids ys) = Some zl →
  turn_ids (ys ++ [y]) =
  turn_ids ys ++ [if decide (y = yl) then zl else (zl + 1)%Z].
Proof.
  destruct ys as [|y0 ys]; [done|]. intros Hy Hz.
  change (turn_ids ((y0 :: ys) ++ [y])) with (turn_ids_from 0 y0 ((y0 :: ys) ++ [y])).
  rewrite turn_ids_from_snoc. unfold turn_ids in *. by rewrite Hy, Hz.
Qed.

Lemma turn_ids_length ys : length (turn_ids ys) = length ys.
Proof.
  unfold turn_ids. destruct ys as [|y0 ys]; [done|].
  generalize 0%Z, y0 at 1. induction (y0 :: ys) as [|y l IH]; intros; simpl; [done|].
  by rewrite IH.
Qed.

Lemma take_S_insert {A} (d : list A) k v :
  k < length d → take (S k) (<[k:=v]> d) = take k d ++ [v].
Proof.
  intros Hk. rewrite (take_S_r _ _ v) by (by apply list_lookup_insert_eq).
  by rewrite take_insert_ge by lia.
Qed.

Lemma take_resize_grow {A} (d : list A) k n v :
  k ≤ length d → length d ≤ n → take k (resize n v d) = take k d.
Proof. intros. rewrite resize_ge by done. by rewrite take_app_le. Qed.

Ltac locals_step :=
  cbn [mbind result_bind i n_sequences X Y Zs z prev_y X_rows from_option].

Lemma setitem_ok {A} (d : list A) k v :
  k < length d → setitem d k v = Ok (<[k:=v]> d).
Proof. intros. unfold setitem. by rewrite decide_True. Qed.

(** The capacity check of [append] leaves room for one more sequence. *)
Lemma make_room l s :
  l ≠ [] → written l s →
  ∃ s1, ensure_capacity fill s = Ok s1 ∧
        written l s1 ∧ i s1 < n_sequences s1.
Proof.
  intros Hl (Hi & Hle & Hcap & (rows & HX & Hrl & Hrt) & (HYl & HYt) &
             (HZl & HZt) & Hprev & Hz).
  unfold ensure_capacity.
  destruct (decide (i s = n_sequences s)) as [Hfull|Hnot].
  - destruct (grow_gt _ Hcap) as [Hg Hg'].
    rewrite HX. simpl. eexists. split; [done|].
    split; [|simpl; lia].
    repeat split; simpl; try lia; try done.
    + eexists. split; [done|]. rewrite length_resize. split; [done|].
      rewrite take_resize_grow; [done|lia|lia].
    + by rewrite length_resize.
    + rewrite take_resize_grow; [done|lia|lia].
    + by rewrite length_resize.
    + rewrite take_resize_grow; [done|lia|lia].
  - exists s. split; [done|]. split; [|lia].
    repeat split; try done. by exists rows.
Qed.

Lemma append_written l s v y :
  l ≠ [] → written l s →
  ∃ s', append fill s (v, y) = Ok s' ∧ written (l ++ [(v, y)]) s'.
Proof.
  intros Hl Hw. unfold append.
  assert (i s ≠ 0) as Hi0.
  { destruct Hw as (Hi & _). rewrite Hi. by destruct l. }
  unfold first_sequence. rewrite (decide_False (P := i s = 0)) by done.
  destruct (make_room l s Hl Hw) as (s1 & -> & Hw1 & Hlt). simpl.
  destruct Hw1 as (Hi & Hle & Hcap & (rows & HX & Hrl & Hrt) & (HYl & HYt) &
                   (HZl & HZt) & Hprev & Hz).
  rewrite HX. unfold X_setitem. simpl.
  rewrite !setitem_ok by lia. simpl.
  destruct (last l.*2) as [yl|] eqn:Hlast; last first.
  { apply last_None in Hlast. by destruct l. }
  rewrite Hprev. simpl.
  assert (turn_ids (l.*2 ++ [y]) =
          turn_ids l.*2 ++ [if decide (y = yl) then z s1 else (z s1 + 1)%Z])
    as Hsnoc by (by apply turn_ids_snoc).
  destruct (decide (y ≠ yl)) as [Hne|Heq].
  - rewrite decide_False in Hsnoc by done.
    rewrite setitem_ok by lia. simpl. eexists. split; [done|]. unfold written.
    rewrite !fmap_app. cbn [fmap list_fmap fst snd].
    rewrite Hsnoc, !last_snoc, length_app. simpl.
    replace (length l + 1) with (S (i s1)) by lia.
    repeat split; simpl; try lia; try done.
    + eexists. split; [done|]. rewrite length_insert. split; [done|].
      rewrite take_S_insert by lia. by rewrite Hi, Hrt.
    + by rewrite length_insert.
    + rewrite take_S_insert by lia. by rewrite Hi, HYt.
    + by rewrite length_insert.
    + rewrite take_S_insert by lia. by rewrite Hi, HZt.
  - assert (y = yl) as -> by (by destruct (decide (y = yl)); [|exfalso; auto]).
    rewrite decide_True in Hsnoc by done.
    rewrite setitem_ok by lia. simpl. eexists. split; [done|]. unfold written.
    rewrite !fmap_app. cbn [fmap list_fmap fst snd].
    rewrite Hsnoc, !last_snoc, length_app. simpl.
    replace (length l + 1) with (S (i s1)) by lia.
    repeat split; simpl; try lia; try done.
    + eexists. split; [done|]. rewrite length_insert. split; [done|].
      rewrite take_S_insert by lia. by rewrite Hi, Hrt.
    + by rewrite length_insert.
    + rewrite take_S_insert by lia. by rewrite Hi, HYt.
    + by rewrite length_insert.
    + rewrite take_S_insert by lia. by rewrite Hi, HZt.
Qed.

Lemma append_init x prev v y :
  ∃ s, append fill (init x prev) (v, y) = Ok s ∧ written [(v, y)] s.
Proof.
  unfold append, first_sequence, ensure_capacity, init. locals_step.
  rewrite (decide_True (P := 0 = 0)) by done. locals_step.
  rewrite (decide_False (P := 0 = 1000)) by lia.
  unfold X_setitem. locals_step.
  rewrite !setitem_ok by (rewrite length_replicate; lia). locals_step.
  rewrite (decide_False (P := y ≠ y)) by (intros H; by apply H).
  rewrite setitem_ok by (rewrite length_replicate; lia).
  cbn [mbind result_bind]. eexists. split; [done|].
  unfold written. cbn [i n_sequences X Y Zs z prev_y length].
  split_and!; try lia.
  - eexists. split; [done|]. rewrite length_insert, length_replicate.
    split; [done|]. by rewrite take_S_insert by (rewrite length_replicate; lia).
  - by rewrite length_insert, length_replicate.
  - by rewrite take_S_insert by (rewrite length_replicate; lia).
  - by rewrite length_insert, length_replicate.
  - rewrite take_S_insert by (rewrite length_replicate; lia).
    simpl. by destruct (decide (y = y)).
  - done.
  - simpl. by destruct (decide (y = y)).
Qed.

(** The write loop never fails, and leaves the locals as [written] says. *)
Lemma append_all l x prev :
  l ≠ [] → ∃ s, for_each (append fill) l (init x prev) = Ok s ∧ written l s.
Proof.
  induction l as [|[v y] l IH] using rev_ind; [done|]. intros _.
  destruct (decide (l = [])) as [->|Hne].
  - destruct (append_init x prev v y) as (s & Hs & Hw).
    exists s. split; [|done].
    rewrite for_each_snoc. cbn [for_each mbind result_bind]. by rewrite Hs.
  - destruct (IH Hne) as (s & Hs & Hw).
    destruct (append_written l s v y Hne Hw) as (s' & Hs' & Hw').
    exists s'. split; [|done]. by rewrite for_each_snoc, Hs.
Qed.

Lemma write_loop_concat (files : list (file (feat:=feat))) s :
  write_loop fill files s = for_each (append fill) (concat files) s.
Proof.
  unfold write_loop. revert s.
  induction files as [|f files IH]; intros s; simpl; [done|].
  rewrite for_each_app.
  destruct (for_each (append fill) f s); simpl; [apply IH | done].
Qed.

Lemma write_loop_written (files : list (file (feat:=feat))) x prev :
  concat files ≠ [] →
  ∃ s, write_loop fill files (init x prev) = Ok s ∧ written (concat files) s.
Proof. intros H. rewrite write_loop_concat. by apply append_all. Qed.

Lemma write_loop_nothing (files : list (file (feat:=feat))) s :
  concat files = [] → write_loop fill files s = Ok s.
Proof. intros H. by rewrite write_loop_concat, H. Qed.

(** *** Speech-turn identifiers *)

Lemma turn_ids_from_step ys : ∀ z p k y y' a b,
  ys !! k = Some y → ys !! S k = Some y' →
  turn_ids_from z p ys !! k = Some a → turn_ids_from z p ys !! S k = Some b →
  b = if decide (y' = y) then a else (a + 1)%Z.
Proof.
  induction ys as [|y0 ys IH]; intros z p k y y' a b Hy Hy' Ha Hb; [done|].
  destruct k as [|k].
  - destruct ys as [|y1 ys]; [done|]. by simplify_eq/=.
  - simpl in *. eapply IH; eauto.
Qed.

Lemma turn_ids_step ys k y y' a b :
  ys !! k = Some y → ys !! S k = Some y' →
  turn_ids ys !! k = Some a → turn_ids ys !! S k = Some b →
  b = if decide (y' = y) then a else (a + 1)%Z.
Proof. destruct ys; [done|]. apply turn_ids_from_step. Qed.

Lemma turn_ids_head ys : ys ≠ [] → turn_ids ys !! 0 = Some 0%Z.
Proof. destruct ys as [|y ys]; [done|]. intros _. simpl. by rewrite decide_True. Qed.

Lemma turn_ids_mono ys j k a b :
  j ≤ k → turn_ids ys !! j = Some a → turn_ids ys !! k = Some b → (a ≤ b)%Z.
Proof.
  intros Hjk Ha. revert b. induction Hjk as [|k Hjk IH]; intros b Hb.
  - assert (a = b) by congruence. lia.
  - assert (S k < length ys) as Hk.
    { rewrite <- turn_ids_length. eapply lookup_lt_Some; eauto. }
    destruct (lookup_lt_is_Some_2 (turn_ids ys) k) as [c Hc];
      [rewrite turn_ids_length; lia|].
    destruct (lookup_lt_is_Some_2 ys k) as [y Hy]; [lia|].
    destruct (lookup_lt_is_Some_2 ys (S k)) as [y' Hy']; [lia|].
    pose proof (turn_ids_step ys k y y' c b Hy Hy' Hc Hb) as Hstep.
    specialize (IH c Hc). destruct (decide (y' = y)); lia.
Qed.



(** *** Claim C5 *)

(** C5.  For every sequence of (feature sequence, label) pairs appended in
    write order, whatever the files they come from, the write loop of [data]
    completes, and the group ids [zs] it has stored next to the labels [ys]
    start at 0, never decrease, and from one sequence to the next stay equal
    when the label is unchanged and grow by exactly one when it changes. *)
Theorem group_ids_follow_label_changes (files : list (file (feat:=feat))) x prev :
  ∃ s, write_loop fill files (init x prev) = Ok s ∧
    let ys := (concat files).*2 in
    let zs := take (i s) (Zs s) in
    i s = length ys ∧ length zs = length ys ∧
    (ys ≠ [] → zs !! 0 = Some 0%Z) ∧
    (∀ k y y' a b,
       ys !! k = Some y → ys !! S k = Some y' →
       zs !! k = Some a → zs !! S k = Some b →
       (y' = y → b = a) ∧ (y' ≠ y → b = (a + 1)%Z)) ∧
    (∀ j k a b, j ≤ k → zs !! j = Some a → zs !! k = Some b → (a ≤ b)%Z).
Proof.
  destruct (decide (concat files = [])) as [Hnil|Hne].
  - exists (init x prev). split; [by apply write_loop_nothing|].
    rewrite Hnil. simpl. split_and!; try done.
  - destruct (write_loop_written files x prev Hne) as (s & Hs & Hw).
    exists s. split; [done|].
    destruct Hw as (Hi & _ & _ & _ & _ & (_ & HZt) & _).
    cbv zeta. rewrite Hi, HZt, turn_ids_length, length_fmap.
    split_and!; try done.
    + intros _. apply turn_ids_head. by destruct (concat files).
    + intros k y y' a b Hy Hy' Ha Hb.
      pose proof (turn_ids_step _ k y y' a b Hy Hy' Ha Hb) as Hstep.
      destruct (decide (y' = y)); split; intros; done.
    + apply turn_ids_mono.
Qed.

(** *** Claim C1 *)

Lemma resize_take_prefix {A} (d : list A) n m v :
  n ≤ m → m ≤ length d → resize n v d = take n (take m d).
Proof.
  intros. rewrite resize_le by lia. rewrite take_take. f_equal. lia.
Qed.

(** What [data] leaves in the file of a subset that yields N >= 2
    sequences. *)
Lemma build_ok (files : list (file (feat:=feat))) x prev N :
  length (concat files) = N → 2 ≤ N →
  ∃ s st, build fill stats files x prev = Ok (s, st) ∧
    st_X st = take (N - 1) (concat files).*1 ∧
    st_y st = take (N - 1) (concat files).*2 ∧
    st_z st = take (N - 1) (turn_ids (concat files).*2).
Proof.
  intros HN H2.
  assert (concat files ≠ []) as Hne by (intros E; rewrite E in HN; simpl in HN; lia).
  destruct (write_loop_written files x prev Hne) as (s & Hs & Hw).
  destruct Hw as (Hi & Hle & Hcap & (rows & HX & Hrl & Hrt) & (HYl & HYt) &
                  (HZl & HZt) & Hprev & Hz).
  unfold build. destruct files as [|f files]; [done|].
  rewrite Hs. unfold finalize. locals_step. rewrite HX. locals_step.
  rewrite (decide_False (P := i s = 0)) by lia.
  unfold X_resize. locals_step.
  rewrite Hi, HN in *.
  assert (resize (N - 1) fill rows = take (N - 1) (concat (f :: files)).*1) as HrX.
  { rewrite <- Hrt. apply resize_take_prefix; lia. }
  assert (resize (N - 1) "" (Y s) = take (N - 1) (concat (f :: files)).*2) as HrY.
  { rewrite <- HYt. apply resize_take_prefix; lia. }
  assert (resize (N - 1) 0%Z (Zs s) =
          take (N - 1) (turn_ids (concat (f :: files)).*2)) as HrZ.
  { rewrite <- HZt. apply resize_take_prefix; lia. }
  rewrite decide_False; last first.
  { intros E. apply (f_equal length) in E. rewrite length_resize in E.
    simpl in E. lia. }
  do 2 eexists. split; [done|]. cbn [st_X st_y st_z].
  by rewrite HrX, HrY, HrZ.
Qed.

(** C1.  When N >= 2 sequences have been appended, [data] truncates the three
    datasets to N - 1 entries, not N: [X.resize(i-1, axis=0)] and the two
    lines after it drop the last appended sequence, its label and its group
    id. *)
Theorem finalize_drops_last_sequence (files : list (file (feat:=feat))) x prev N :
  length (concat files) = N → 2 ≤ N →
  ∃ s st, build fill stats files x prev = Ok (s, st) ∧
    st_X st = take (N - 1) (concat files).*1 ∧
    st_y st = take (N - 1) (concat files).*2 ∧
    st_z st = take (N - 1) (turn_ids (concat files).*2) ∧
    length (st_X st) = N - 1 ∧ length (st_y st) = N - 1 ∧
    length (st_z st) = N - 1.
Proof.
  intros HN H2.
  destruct (build_ok files x prev N HN H2) as (s & st & Hb & HX & HY & HZ).
  exists s, st. rewrite HX, HY, HZ.
  split_and!; try done;
    rewrite length_take, ?turn_ids_length, length_fmap, HN; lia.
Qed.


(** With exactly one appended sequence the truncation leaves no row, and the
    normalisation step that follows raises. *)
Lemma build_single_sequence (files : list (file (feat:=feat))) x prev :
  length (concat files) = 1 →
  build fill stats files x prev = Raise "ValueError".
Proof.
  intros HN.
  assert (concat files ≠ []) as Hne by (intros E; by rewrite E in HN).
  destruct (write_loop_written files x prev Hne) as (s & Hs & Hw).
  destruct Hw as (Hi & _ & _ & (rows & HX & _) & _).
  unfold build. destruct files as [|f files]; [done|].
  rewrite Hs. unfold finalize. locals_step. rewrite HX. locals_step.
  rewrite (decide_False (P := i s = 0)) by lia.
  unfold X_resize. locals_step. rewrite Hi, HN. simpl.
  rewrite !resize_0. by case_decide.
Qed.

(** *** Claim C7 *)

(** C7 (amended).  A store build in which no sequence is appended always
    fails, and never with [EmptyStoreError], an exception that the code does
    not have: it stops on [next(file_generator)] with [StopIteration] when
    the subset has no file at all, and otherwise on [X.resize(i-1, axis=0)],
    where the name [X] is unbound when no earlier subset bound it. *)
Theorem empty_build_fails (files : list (file (feat:=feat))) x prev :
  concat files = [] →
  ∃ e, build fill stats files x prev = Raise e ∧
    e ≠ "EmptyStoreError" ∧
    (files = [] → e = "StopIteration") ∧
    (files ≠ [] → x = XUnbound → e = "UnboundLocalError").
Proof.
  intros Hnil. unfold build. destruct files as [|f files].
  - eexists. split; [done|]. split_and!; done.
  - rewrite write_loop_nothing by done. simpl.
    unfold finalize, init. locals_step.
    destruct x as [| |rows]; locals_step.
    + eexists. split; [done|]. split_and!; done.
    + eexists. split; [done|]. split_and!; done.
    + rewrite decide_True by done.
      eexists. split; [done|]. split_and!; done.
Qed.

End StoreFacts.

Lemma finalize_drops_last_sequence_witness :
  ∃ s st, build (feat:=nat) 0 length [[(7, "A"); (8, "A")]; [(9, "B")]]
            XUnbound None = Ok (s, st) ∧
    st_X st = [7; 8] ∧ st_y st = ["A"; "A"] ∧ st_z st = [0%Z; 0%Z] ∧
    length (st_X st) = 2 ∧ length (st_y st) = 2 ∧ length (st_z st) = 2.
Proof.
  apply (finalize_drops_last_sequence (feat:=nat) 0 length
           [[(7, "A"); (8, "A")]; [(9, "B")]] XUnbound None 3);
    [reflexivity | lia].
Defined.

(** Three sequences appended to the first subset of a run: the store that
    [data] leaves on disk has two. *)
Example data_three_sequences :
  data (feat:=nat) 0 length (Some [[(7, "A"); (8, "A")]; [(9, "B")]]) None None
  = Ok [{| st_X := [7; 8]; st_y := ["A"; "A"]; st_z := [0%Z; 0%Z];
           st_attrs := 2 |}].
Proof. vm_compute. reflexivity. Qed.

Lemma empty_build_fails_witness :
  ∃ e, build (feat:=nat) 0 length [[]] XUnbound None = Raise e ∧
    e ≠ "EmptyStoreError" ∧
    ([[]] = @nil (file (feat:=nat)) → e = "StopIteration") ∧
    ([[]] ≠ @nil (file (feat:=nat)) → @XUnbound nat = XUnbound →
       e = "UnboundLocalError").
Proof. apply (empty_build_fails (feat:=nat) 0 length [[]] XUnbound None). reflexivity. Defined.

(** C7, as stated, fails: a train subset whose only file yields no sequence
    makes [data] stop with [UnboundLocalError]. *)
Lemma empty_store_error_not_raised :
  data (feat:=nat) 0 length (Some [[]]) None None = Raise "UnboundLocalError" ∧
  ¬ raises (data (feat:=nat) 0 length (Some [[]]) None None) "EmptyStoreError".
Proof. split; [vm_compute; reflexivity | unfold raises; vm_compute; discriminate]. Qed.

End StoreFacts.

Module EpochSelectorFacts.
Import EpochSelector.

Lemma sd_get_setitem_eq k v d : sd_get k (sd_setitem k v d) = Some v.
Proof.
  induction d as [|[k' v'] d IH]; simpl.
  - by rewrite Z.eqb_refl.
  - destruct (k <? k')%Z eqn:Hlt; simpl; [by rewrite Z.eqb_refl|].
    destruct (k =? k')%Z eqn:Heq; simpl; [by rewrite Z.eqb_refl|].
    by rewrite Heq.
Qed.

Lemma sd_get_setitem_ne k k' v d :
  k ≠ k' → sd_get k' (sd_setitem k v d) = sd_get k' d.
Proof.
  intros Hne. assert ((k' =? k)%Z = false) as Hk by (apply Z.eqb_neq; lia).
  induction d as [|[k0 v0] d IH]; simpl.
  - by rewrite Hk.
  - destruct (k <? k0)%Z eqn:Hlt; simpl; [by rewrite Hk|].
    destruct (k =? k0)%Z eqn:Heq; simpl.
    + apply Z.eqb_eq in Heq. subst k0. by rewrite Hk.
    + by rewrite IH.
Qed.

(** The dictionary built by [apply] holds, for every epoch, the value of the
    last line of the log that carries this epoch. *)
Lemma SortedDict_keeps_last (log : list record) k :
  sd_get k (SortedDict log) = snd <$> last (filter (fun r => r.1 = k) log).
Proof.
  unfold SortedDict. induction log as [|[k' v'] log IH] using rev_ind; [done|].
  rewrite foldl_snoc, filter_app. simpl.
  destruct (decide (k' = k)) as [->|Hne].
  - rewrite filter_cons_True by done. rewrite filter_nil, last_snoc. simpl.
    apply sd_get_setitem_eq.
  - rewrite filter_cons_False by done. rewrite filter_nil, app_nil_r.
    by rewrite sd_get_setitem_ne.
Qed.

(** The [compare] mode keeps, for every epoch, the first line of the log that
    carries it. *)
Example keep_first_example :
  keep_first example_log = [(1, 3 # 10); (2, 1 # 10); (3, 2 # 10)]%Z%Q.
Proof. reflexivity. Qed.

Example select_best_spec_example : select_best_spec example_log = Ok 2%Z.
Proof. reflexivity. Qed.

(** C2.  On the log [(1, 0.3), (2, 0.1), (2, 0.5), (3, 0.2)] the epoch
    selector of [apply] builds its dictionary with the last value of epoch 2,
    [0.5], and returns epoch 3; dropping duplicates by keeping the first
    occurrence, as the [compare] mode does, gives epoch 2. *)
Theorem best_epoch_keeps_last_duplicate :
  SortedDict example_log = [(1, 3 # 10); (2, 5 # 10); (3, 2 # 10)]%Z%Q ∧
  best_epoch example_log = Ok 3%Z ∧
  select_best_spec example_log = Ok 2%Z ∧
  best_epoch example_log ≠ select_best_spec example_log.
Proof. split_and!; [reflexivity..|discriminate]. Qed.

End EpochSelectorFacts.

Module BatchesFacts.
Import Batches.
Section BatchesFacts.
Context {seq_t emb : Type} (embed : list seq_t → list emb).

(** Inference works sequence by sequence: embedding a batch made of two
    parts gives the rows of the first part followed by those of the second. *)
Hypothesis embed_app : ∀ l1 l2, embed (l1 ++ l2) = embed l1 ++ embed l2.

Lemma embed_nil : embed [] = [].
Proof.
  pose proof (embed_app [] []) as H. simpl in H.
  apply (f_equal length) in H. rewrite length_app in H.
  destruct (embed []); [done | simpl in H; lia].
Qed.

Lemma slice_app {A} (l : list A) i j k :
  i ≤ j → j ≤ k → slice l i j ++ slice l j k = slice l i k.
Proof.
  intros Hij Hjk. unfold slice.
  replace (drop j l) with (drop (j - i) (drop i l))
    by (rewrite drop_drop; f_equal; lia).
  rewrite take_take_drop. f_equal. lia.
Qed.

Lemma slice_all {A} (l : list A) : slice l 0 (length l) = l.
Proof. unfold slice. rewrite drop_0, Nat.sub_0_r. apply firstn_all. Qed.

Lemma slice_prefix {A} (l : list A) n : slice l 0 n = take n l.
Proof. unfold slice. by rewrite drop_0, Nat.sub_0_r. Qed.

(** The embeddings of consecutive slices, stacked, are the embedding of the
    slice from the first boundary to the last one. *)
Lemma embed_consecutive_slices XX bnd : ∀ b e,
  Sorted le (b :: bnd) → last (b :: bnd) = Some e →
  b ≤ e ∧
  concat ((fun ij => embed (slice XX ij.1 ij.2)) <$> pairwise (b :: bnd))
  = embed (slice XX b e).
Proof.
  induction bnd as [|c bnd IH]; intros b e Hs Hl.
  - simpl in Hl. injection Hl as <-. split; [done|].
    simpl. unfold slice. by rewrite Nat.sub_diag, take_0, embed_nil.
  - rewrite last_cons_cons in Hl.
    apply Sorted_inv in Hs as [Hs Hhd]. apply HdRel_inv in Hhd.
    destruct (IH c e Hs Hl) as [Hce IHc].
    split; [lia|].
    change (pairwise (b :: c :: bnd)) with ((b, c) :: pairwise (c :: bnd)).
    rewrite fmap_cons. simpl concat. rewrite IHc. simpl.
    rewrite <- embed_app. by rewrite slice_app.
Qed.

Lemma arange_from_Sorted count : ∀ start step, Sorted le (arange_from start count step).
Proof.
  induction count as [|c IH]; intros start step; simpl; [constructor|].
  constructor; [apply IH|]. destruct c; simpl; constructor. lia.
Qed.

Lemma arange_from_last count start step :
  last (arange_from start (S count) step) = Some (start + count * step).
Proof.
  revert start. induction count as [|c IH]; intros start.
  - simpl. f_equal. lia.
  - change (arange_from start (S (S c)) step)
      with (start :: arange_from (start + step) (S c) step).
    cbn [arange_from]. rewrite last_cons_cons.
    change (last (arange_from (start + step) (S c) step) = Some (start + S c * step)).
    rewrite IH. f_equal. lia.
Qed.

Lemma Sorted_snoc_le (l : list nat) e n :
  Sorted le l → last l = Some e → e ≤ n → Sorted le (l ++ [n]).
Proof.
  induction l as [|a l IH]; [done|]. intros Hs Hl Hen.
  apply Sorted_inv in Hs as [Hs Hhd]. destruct l as [|b l].
  - simpl in *. injection Hl as ->. repeat constructor. done.
  - rewrite last_cons_cons in Hl. simpl. constructor.
    + apply (IH Hs Hl Hen).
    + apply HdRel_inv in Hhd. by constructor.
Qed.

(** Number of boundaries produced by [np.arange]. *)
Lemma arange_count q r bs :
  0 < bs → r < bs →
  Nat.div (q * bs + r + bs - 1) bs = if decide (r = 0) then q else S q.
Proof.
  intros Hbs Hr. destruct (decide (r = 0)) as [->|Hr0].
  - symmetry. apply (Nat.div_unique _ _ _ (bs - 1)); lia.
  - symmetry. apply (Nat.div_unique _ _ _ (r - 1)); lia.
Qed.

Lemma vstack_consecutive XX b c bnd e :
  Sorted le (b :: c :: bnd) → last (b :: c :: bnd) = Some e →
  vstack ((fun ij => embed (slice XX ij.1 ij.2)) <$> pairwise (b :: c :: bnd))
  = Ok (embed (slice XX b e)).
Proof.
  intros Hs Hl.
  destruct (embed_consecutive_slices XX (c :: bnd) b e Hs Hl) as [_ <-].
  reflexivity.
Qed.

(** When the number of sequences is not a multiple of the batch size, every
    sequence is embedded and the rows come out in input order. *)
Lemma embed_batches_in_order bs XX :
  0 < bs → length XX `mod` bs ≠ 0 → embed_batches embed bs XX = Ok (embed XX).
Proof.
  intros Hbs Hr. unfold embed_batches, batches, arange.
  set (n := length XX) in *.
  pose proof (Nat.div_mod_eq n bs) as Hn.
  pose proof (Nat.mod_upper_bound n bs ltac:(lia)) as Hlt.
  set (q := Nat.div n bs) in *. set (r := n `mod` bs) in *.
  replace (n + bs - 1) with (q * bs + r + bs - 1) by lia.
  rewrite arange_count by lia. rewrite !decide_False by done.
  rewrite (decide_True (P := r ≠ 0)) by done.
  assert (Sorted le (arange_from 0 (S q) bs ++ [n])) as Hs.
  { eapply Sorted_snoc_le; [apply arange_from_Sorted|apply arange_from_last|lia]. }
  assert (last (arange_from 0 (S q) bs ++ [n]) = Some n) as Hl
    by apply last_snoc.
  cbn [arange_from] in *.
  destruct (arange_from (0 + bs) q bs ++ [n]) as [|c bnd] eqn:Hb.
  { by destruct (arange_from (0 + bs) q bs). }
  simpl app in *. rewrite Hb in *.
  rewrite (vstack_consecutive XX 0 c bnd n Hs Hl).
  unfold n. by rewrite slice_all.
Qed.

(** When the number of sequences is a multiple of the batch size, [batches]
    stops one boundary short: the sequences of the last batch are not
    embedded. *)
Lemma embed_batches_multiple bs XX :
  0 < bs → length XX `mod` bs = 0 → 2 * bs ≤ length XX →
  embed_batches embed bs XX = Ok (embed (take (length XX - bs) XX)).
Proof.
  intros Hbs Hr H2. unfold embed_batches, batches, arange.
  pose proof (Nat.div_mod_eq (length XX) bs) as Hn.
  rewrite Hr in *. remember (Nat.div (length XX) bs) as q eqn:Hq. clear Hq.
  replace (length XX + bs - 1) with (q * bs + 0 + bs - 1) by lia.
  rewrite arange_count by lia. rewrite decide_True by done.
  rewrite (decide_False (P := 0 ≠ 0)) by (intros H; by apply H).
  rewrite app_nil_r.
  clear Hr. destruct q as [|[|q]]; [lia|lia|].
  pose proof (arange_from_Sorted (S (S q)) 0 bs) as Hs.
  pose proof (arange_from_last (S q) 0 bs) as Hl.
  cbn [arange_from] in *.
  rewrite (vstack_consecutive XX _ _ _ _ Hs Hl).
  rewrite slice_prefix.
  by replace (length XX - bs) with (0 + S q * bs) by nia.
Qed.

(** With exactly one batch worth of sequences, or none, there is nothing to
    stack. *)
Lemma embed_batches_one_batch bs XX :
  0 < bs → length XX = bs ∨ length XX = 0 →
  embed_batches embed bs XX = Raise "ValueError".
Proof.
  intros Hbs Hn. unfold embed_batches, batches, arange.
  destruct Hn as [-> | ->].
  - replace (bs + bs - 1) with (1 * bs + 0 + bs - 1) by lia.
    rewrite arange_count by lia. rewrite decide_True by done.
    rewrite Nat.Div0.mod_same.
    by rewrite (decide_False (P := 0 ≠ 0)) by (intros H; by apply H).
  - replace (0 + bs - 1) with (0 * bs + 0 + bs - 1) by lia.
    rewrite arange_count by lia. rewrite decide_True by done.
    rewrite Nat.Div0.mod_0_l.
    by rewrite (decide_False (P := 0 ≠ 0)) by (intros H; by apply H).
Qed.

End BatchesFacts.

(** C4.  With the batch size of the code, 2048, and a validation set of 4096
    sequences, the boundaries are [0, 2048]: one batch is embedded, and the
    stacked result holds the embeddings of the first 2048 sequences only, not
    of all 4096 as a single pass over the set would give. *)
Theorem internal_embeddings_miss_last_batch :
  let XX := seq 0 4096 in
  let embed := fun batch : list nat => batch in
  batches (length XX) batch_size = [0; 2048] ∧
  internal_embeddings embed XX = Ok (embed (take 2048 XX)) ∧
  internal_embeddings embed XX ≠ Ok (embed XX).
Proof.
  cbv zeta.
  assert (internal_embeddings (fun batch : list nat => batch) (seq 0 4096)
          = Ok (take 2048 (seq 0 4096))) as H.
  { unfold internal_embeddings.
    rewrite (embed_batches_multiple (fun batch : list nat => batch));
      [done | done | unfold batch_size; lia | by vm_compute |
       rewrite length_seq; unfold batch_size; lia]. }
  split_and!.
  - by vm_compute.
  - exact H.
  - rewrite H. intros E.
    apply (f_equal (fun r => match r with Ok l => length l | Raise _ => 0 end))
      in E.
    cbv beta iota in E. rewrite length_take, !length_seq in E. lia.
Qed.

End BatchesFacts.

Module ApplyFacts.
Import Apply.
Section ApplyFacts.
Context {file : Type} (uid : file → string).
Implicit Types (st : state (file:=file)) (l : list file).

Lemma foldl_apply_file l : ∀ st,
  let st' := foldl (apply_file uid) st l in
  dumped st' = dumped st ++ first_by_uid uid (processed_uris st) l ∧
  processed_uris st' =
    processed_uris st ∪ list_to_set (uid <$> l).
Proof.
  induction l as [|f l IH]; intros st; simpl.
  - rewrite app_nil_r. split; [done|]. set_solver.
  - destruct (IH (apply_file uid st f)) as [Hd Hp].
    rewrite Hd, Hp. unfold apply_file.
    destruct (decide (uid f ∈ processed_uris st)); simpl.
    + split; [done|]. set_solver.
    + rewrite <- app_assoc. split; [done|]. set_solver.
Qed.

Lemma first_by_uid_app seen l1 l2 :
  first_by_uid uid seen (l1 ++ l2) =
  first_by_uid uid seen l1 ++
  first_by_uid uid (seen ∪ list_to_set (uid <$> l1)) l2.
Proof.
  revert seen. induction l1 as [|f l1 IH]; intros seen; simpl.
  - f_equal. set_solver.
  - destruct (decide (uid f ∈ seen)).
    + rewrite IH. do 2 f_equal. set_solver.
    + simpl. rewrite IH. do 3 f_equal. set_solver.
Qed.

Lemma apply_subsets_dumped subsets : ∀ st,
  let st' := (apply_subsets uid subsets st).1 in
  dumped st' =
    dumped st ++ first_by_uid uid (processed_uris st) (enumerated subsets).
Proof.
  induction subsets as [|[[|f files]|] rest IH]; intros st;
    cbn [apply_subsets enumerated].
  - simpl. by rewrite app_nil_r.
  - simpl. by rewrite app_nil_r.
  - cbv zeta. rewrite IH.
    destruct (foldl_apply_file (f :: files) st) as [Hd Hp].
    rewrite Hd, Hp, first_by_uid_app. by rewrite <- app_assoc.
  - apply IH.
Qed.

Lemma first_by_uid_fresh seen l f :
  f ∈ first_by_uid uid seen l → (uid f ∉ seen) ∧ f ∈ l.
Proof.
  revert seen. induction l as [|g l IH]; intros seen; simpl; [set_solver|].
  destruct (decide (uid g ∈ seen)).
  - intros H. destruct (IH _ H). set_solver.
  - intros [->|H]%elem_of_cons; [set_solver|].
    destruct (IH _ H). set_solver.
Qed.

Lemma first_by_uid_NoDup seen l : NoDup (uid <$> first_by_uid uid seen l).
Proof.
  revert seen. induction l as [|f l IH]; intros seen; simpl; [constructor|].
  destruct (decide (uid f ∈ seen)); [apply IH|].
  simpl. constructor; [|apply IH].
  intros H. apply list_elem_of_fmap in H as (g & Hg & Hin).
  apply first_by_uid_fresh in Hin as [Hin _]. set_solver.
Qed.

Lemma first_by_uid_covers seen l f :
  f ∈ l → uid f ∉ seen → uid f ∈ uid <$> first_by_uid uid seen l.
Proof.
  revert seen. induction l as [|g l IH]; intros seen; simpl; [set_solver|].
  intros [->|Hin]%elem_of_cons Hf.
  - rewrite decide_False by done. simpl. set_solver.
  - destruct (decide (uid g ∈ seen)); [by apply IH|].
    simpl. destruct (decide (uid f = uid g)) as [->|Hne]; [set_solver|].
    apply elem_of_cons. right. apply IH; [done|set_solver].
Qed.

Lemma apply_subsets_foldl subsets : ∀ st,
  (apply_subsets uid subsets st).1
  = foldl (apply_file uid) st (enumerated subsets).
Proof.
  induction subsets as [|[[|f files]|] rest IH]; intros st;
    cbn [apply_subsets enumerated]; [done|done| |apply IH].
  by rewrite IH, foldl_app.
Qed.

(** C9.  Whatever the three subsets hold, and whether [apply] runs to the
    end or stops on an exception, the files whose embedding has been computed
    and dumped are the files met with an identifier not met before, in
    order: no identifier is dumped twice, every file that [apply] iterates
    over has its identifier dumped, and a file whose identifier is carried
    by a file met earlier, in the same subset or in an earlier one, leaves
    the state as it was: it is skipped. *)
Theorem apply_dumps_each_uid_once (development test train : option (list file)) :
  let st0 := {| processed_uris := ∅; dumped := [] |} in
  let met := enumerated [development; test; train] in
  let final := (apply_files uid development test train).1 in
  final = foldl (apply_file uid) st0 met ∧
  dumped final = first_by_uid uid ∅ met ∧
  NoDup (uid <$> dumped final) ∧
  (∀ f, f ∈ met → uid f ∈ uid <$> dumped final) ∧
  (∀ k f, met !! k = Some f →
     (∃ j g, j < k ∧ met !! j = Some g ∧ uid g = uid f) →
     let st := foldl (apply_file uid) st0 (take k met) in
     apply_file uid st f = st).
Proof.
  cbv zeta. unfold apply_files.
  pose proof (apply_subsets_dumped [development; test; train]
                {| processed_uris := ∅; dumped := [] |}) as H.
  cbv zeta in H. cbn [dumped processed_uris app] in H. rewrite H.
  split_and!.
  - apply apply_subsets_foldl.
  - done.
  - apply first_by_uid_NoDup.
  - intros f Hf. apply first_by_uid_covers; [done|set_solver].
  - intros k f Hk (j & g & Hj & Hg & Hu).
    destruct (foldl_apply_file (take k (enumerated [development; test; train]))
                {| processed_uris := ∅; dumped := [] |}) as [_ Hp].
    unfold apply_file at 1. rewrite decide_True; [done|].
    rewrite Hp. apply elem_of_union_r, elem_of_list_to_set, list_elem_of_fmap.
    exists g. split; [done|].
    apply list_elem_of_lookup. exists j. by rewrite lookup_take_lt by lia.
Qed.

End ApplyFacts.
End ApplyFacts.




Module VerificationFacts.
Import Verification.
Section VerificationFacts.
Context {file span vec dist : Type}.
Context (uid : file → string) (khash : string → span → Z).
Context (embed_mean : file → span → vec) (cdist : vec → vec → dist).

#[local] Abbreviation caches := (caches (vec:=vec) (dist:=dist)).
#[local] Abbreviation no_caches := (no_caches (vec:=vec) (dist:=dist)).
#[local] Abbreviation enrolment := (enrolment (file:=file) (span:=span)).
#[local] Abbreviation trial := (trial (file:=file) (span:=span)).
#[local] Abbreviation enrol := (enrol uid khash embed_mean).
#[local] Abbreviation verify := (verify uid khash embed_mean cdist).
#[local] Abbreviation e_hash := (e_hash uid khash).
#[local] Abbreviation t_hash := (t_hash uid khash).
Implicit Types (st : caches) (e : enrolment) (t : trial).

(** **** The enrolment loop *)

Lemma enrol_all_models (es : list enrolment) st m :
  enrolment_models (foldl enrol st es) !! m =
  match last (filter (fun e => e_model_id e = m) es) with
  | Some e => Some (embed_mean (e_file e) (enrol_with e))
  | None => enrolment_models st !! m
  end.
Proof.
  induction es as [|e es IH] using rev_ind; [done|].
  rewrite foldl_snoc, filter_app. simpl.
  destruct (decide (e_model_id e = m)) as [<-|Hne].
  - rewrite filter_cons_True by done. rewrite filter_nil, last_snoc.
    apply lookup_insert_eq.
  - rewrite filter_cons_False by done. rewrite filter_nil, app_nil_r.
    by rewrite lookup_insert_ne.
Qed.

Lemma enrol_all_khashes (es : list enrolment) st h :
  enrolment_khashes (foldl enrol st es) !! h =
  match last (filter (fun e => e_hash e = h) es) with
  | Some e => Some (e_model_id e)
  | None => enrolment_khashes st !! h
  end.
Proof.
  induction es as [|e es IH] using rev_ind; [done|].
  rewrite foldl_snoc, filter_app. simpl.
  destruct (decide (e_hash e = h)) as [<-|Hne].
  - rewrite filter_cons_True by done. rewrite filter_nil, last_snoc.
    apply lookup_insert_eq.
  - rewrite filter_cons_False by done. rewrite filter_nil, app_nil_r.
    by rewrite lookup_insert_ne.
Qed.

Lemma enrol_all_rest (es : list enrolment) st :
  trial_models (foldl enrol st es) = trial_models st ∧
  log (foldl enrol st es) = log st.
Proof.
  induction es as [|e es IH] using rev_ind; [done|].
  rewrite foldl_snoc. simpl. apply IH.
Qed.

(** **** One trial *)


(** **** A run of trials *)





End VerificationFacts.

(** Why the model ids of the enrolments are taken to be distinct: the
    dictionary of the enrolment vectors is keyed by model id, so that with
    two enrolments under one model id the trial on file "A", which has the
    identifier and the span of the first enrolment, is given the vector of
    the second one. *)
Example enrolment_vector_overwritten :
  ∃ st, toy_validate
          [Enrolment "A" "m" 0; Enrolment "BB" "m" 0]
          [Trial "A" "m" 0 true] = Ok st ∧
    log st = [(("BB", 0), FromEnrolment "m")] ∧
    log st !! 0 ≠ Some (("A", 0), FromEnrolment "m").
Proof.
  eexists. split; [by vm_compute|]. split; [reflexivity|discriminate].
Qed.

End VerificationFacts.

Module DomainClassificationFacts.
Import DomainClassification.

(** **** [np.argmax] *)

Lemma Qltb_true a b : Qltb a b = true ↔ (a < b)%Q.
Proof.
  unfold Qltb. rewrite negb_true_iff. split.
  - intros H. apply Qnot_le_lt. intros Hle.
    apply Qle_bool_iff in Hle. congruence.
  - intros Hlt. destruct (Qle_bool b a) eqn:E; [|done].
    apply Qle_bool_iff in E. exfalso. by apply (Qlt_not_le a b).
Qed.

Lemma Qltb_false a b : Qltb a b = false ↔ (b <= a)%Q.
Proof.
  unfold Qltb. rewrite negb_false_iff. apply Qle_bool_iff.
Qed.

Lemma argmax_from_first_max row : ∀ pre best_i best,
  pre !! best_i = Some best → first_max pre best_i →
  first_max (pre ++ row) (argmax_from best_i best (length pre) row).
Proof.
  induction row as [|x row IH]; intros pre best_i best Hb Hfm; simpl.
  - by rewrite app_nil_r.
  - destruct Hfm as (v & Hv & Hall & Hbefore).
    assert (v = best) as -> by congruence.
    replace (pre ++ x :: row) with ((pre ++ [x]) ++ row)
      by (by rewrite <- app_assoc).
    replace (S (length pre)) with (length (pre ++ [x]))
      by (rewrite length_app; simpl; lia).
    destruct (Qltb best x) eqn:Hlt.
    + apply Qltb_true in Hlt. apply IH.
      * by rewrite lookup_app_r, Nat.sub_diag.
      * exists x. split_and!.
        -- by rewrite lookup_app_r, Nat.sub_diag.
        -- intros j w Hj. apply lookup_app_Some in Hj as [Hj|[_ Hj]].
           ++ apply Qlt_le_weak. eapply Qle_lt_trans; [by eapply Hall|done].
           ++ apply list_lookup_singleton_Some in Hj as [_ <-]. apply Qle_refl.
        -- intros j w Hj Hw. rewrite lookup_app_l in Hw by done.
           eapply Qle_lt_trans; [by eapply Hall|done].
    + apply Qltb_false in Hlt. apply IH.
      * rewrite lookup_app_l; [done|]. by eapply lookup_lt_Some.
      * exists best. split_and!.
        -- rewrite lookup_app_l; [done|]. by eapply lookup_lt_Some.
        -- intros j w Hj. apply lookup_app_Some in Hj as [Hj|[_ Hj]].
           ++ by eapply Hall.
           ++ by apply list_lookup_singleton_Some in Hj as [_ <-].
        -- intros j w Hj Hw. apply (Hbefore j w Hj).
           rewrite lookup_app_l in Hw; [done|].
           apply lookup_lt_Some in Hb. lia.
Qed.

Lemma argmax_first_max row :
  row ≠ [] → ∃ a, argmax row = Ok a ∧ first_max row a.
Proof.
  destruct row as [|v row]; [done|]. intros _. eexists. split; [done|].
  apply (argmax_from_first_max row [v] 0 v); [done|].
  exists v. split_and!; [done| |intros; lia].
  intros j w Hj. apply list_lookup_singleton_Some in Hj as [_ <-]. apply Qle_refl.
Qed.

Lemma argmax_axis1_first_max rows :
  Forall (fun row => row ≠ []) rows →
  ∃ am, argmax_axis1 rows = Ok am ∧ Forall2 first_max rows am.
Proof.
  induction 1 as [|row rows Hrow _ IH]; simpl.
  - by exists [].
  - destruct (argmax_first_max row Hrow) as (a & -> & Ha).
    destruct IH as (am & -> & Ham). simpl. exists (a :: am). by split; [|constructor].
Qed.

(** **** [Counter] and [most_common] *)

Lemma counter_get_add x y c :
  counter_get y (counter_add x c) =
  if decide (y = x) then S (counter_get y c) else counter_get y c.
Proof.
  induction c as [|[k n] c IH]; simpl.
  - by destruct (decide (y = x)).
  - destruct (decide (x = k)) as [->|Hxk]; simpl.
    + by destruct (decide (y = k)).
    + destruct (decide (y = k)) as [->|Hyk].
      * by rewrite decide_False by done.
      * apply IH.
Qed.

Lemma counter_add_keys x c :
  (counter_add x c).*1 = if decide (x ∈ c.*1) then c.*1 else c.*1 ++ [x].
Proof.
  induction c as [|[k n] c IH]; [done|].
  cbn [counter_add]. destruct (decide (x = k)) as [->|Hxk].
  - rewrite fmap_cons. cbn [fst]. by rewrite decide_True by (by left).
  - rewrite !fmap_cons, IH. cbn [fst].
    destruct (decide (x ∈ c.*1)) as [Hin|Hnin].
    + by rewrite decide_True by (by right).
    + rewrite decide_False; [done|].
      intros [?|?]%elem_of_cons; done.
Qed.

Lemma Counter_get l x : counter_get x (Counter l) = count_occ Nat.eq_dec l x.
Proof.
  unfold Counter. induction l as [|y l IH] using rev_ind; [done|].
  rewrite foldl_snoc, counter_get_add, count_occ_app, IH. simpl.
  destruct (decide (x = y)) as [->|Hne].
  - destruct (Nat.eq_dec y y); [lia|done].
  - destruct (Nat.eq_dec y x); [by subst|lia].
Qed.

Lemma Counter_keys l :
  NoDup (Counter l).*1 ∧ ∀ k, k ∈ (Counter l).*1 ↔ k ∈ l.
Proof.
  unfold Counter. induction l as [|y l [IHn IHk]] using rev_ind.
  - split; [constructor|done].
  - rewrite foldl_snoc, counter_add_keys.
    destruct (decide (y ∈ _)) as [Hin|Hnin].
    + split; [done|]. intros k. rewrite IHk. set_solver.
    + split.
      * apply NoDup_app. split_and!; [done| |apply NoDup_singleton].
        intros k Hk ->%list_elem_of_singleton. done.
      * intros k. rewrite !elem_of_app, IHk. done.
Qed.

Lemma counter_get_elem (c : list (nat * nat)) k n :
  NoDup c.*1 → (k, n) ∈ c → counter_get k c = n.
Proof.
  induction c as [|[k' n'] c IH]; simpl; [by intros _ ?%elem_of_nil|].
  intros [Hnin Hnd]%NoDup_cons Hin.
  apply elem_of_cons in Hin as [[= <- <-]|Hin].
  - by rewrite decide_True.
  - rewrite decide_False; [by apply IH|].
    intros ->. apply Hnin. apply list_elem_of_fmap. by exists (k', n).
Qed.

Lemma max_by_count_spec c : ∀ best,
  max_by_count best c ∈ best :: c ∧
  ∀ kv, kv ∈ best :: c → kv.2 ≤ (max_by_count best c).2.
Proof.
  induction c as [|kv c IH]; intros best; simpl.
  - split; [by left|]. by intros ? ->%list_elem_of_singleton.
  - destruct (decide (best.2 < kv.2)) as [Hlt|Hge].
    + destruct (IH kv) as [Hin Hmax]. split; [by right|].
      intros x [->|Hx]%elem_of_cons; [|by apply Hmax].
      etrans; [|apply (Hmax kv); by left]. lia.
    + destruct (IH best) as [Hin Hmax]. split.
      * apply elem_of_cons in Hin as [->|Hin]; [by left|by do 2 right].
      * intros x [->|[->|Hx]%elem_of_cons]%elem_of_cons.
        -- apply Hmax. by left.
        -- etrans; [|apply (Hmax best); by left]. lia.
        -- apply Hmax. by right.
Qed.

Lemma most_common_most_frequent l :
  l ≠ [] → ∃ p, most_common_1 (Counter l) = Ok p ∧ most_frequent l p.
Proof.
  intros Hl. destruct (Counter_keys l) as [Hnd Hkeys].
  destruct (Counter l) as [|kv c] eqn:Hc.
  { destruct l as [|x l]; [done|].
    assert (x ∈ (@nil (nat * nat)).*1) as Hx by (apply Hkeys; by left).
    by apply elem_of_nil in Hx. }
  exists (max_by_count kv c).1. split; [done|].
  destruct (max_by_count_spec c kv) as [Hin Hmax].
  destruct (max_by_count kv c) as [p n] eqn:Hbest. cbn [fst snd] in *.
  assert (counter_get p (kv :: c) = n) as Hp by (by apply counter_get_elem).
  rewrite <- Hc, Counter_get in Hp.
  split.
  - apply Hkeys, list_elem_of_fmap. by exists (p, n).
  - intros q. rewrite Hp. destruct (decide (q ∈ l)) as [Hq|Hq].
    + apply Hkeys, list_elem_of_fmap in Hq as ([q' m] & -> & Hqm). simpl.
      rewrite <- Counter_get, Hc, (counter_get_elem _ _ m Hnd Hqm).
      by apply (Hmax (q', m)).
    + rewrite (proj1 (count_occ_not_In Nat.eq_dec l q)); [lia|].
      by rewrite <- list_elem_of_In.
Qed.

(** **** The classes *)

Lemma get_classes_spec (fs : list file) :
  Sorted str_le (get_classes fs) ∧ NoDup (get_classes fs) ∧
  ∀ d, d ∈ get_classes fs ↔ d ∈ domain <$> fs.
Proof.
  unfold get_classes. split_and!.
  - apply (Sorted_merge_sort str_le).
  - rewrite merge_sort_Permutation. apply NoDup_remove_dups.
  - intros d. rewrite merge_sort_Permutation. apply elem_of_remove_dups.
Qed.

Lemma index_elem (domains : list string) d :
  d ∈ domains → ∃ k, index domains d = Ok k ∧ domains !! k = Some d.
Proof.
  intros Hd. unfold index.
  destruct (list_find_elem_of (fun d' => d' = d) domains d Hd eq_refl)
    as [[k d'] Hfind].
  rewrite Hfind. simpl. exists k. split; [done|].
  apply list_find_Some in Hfind as (Hk & -> & _). done.
Qed.

(** **** The loop over the files and the mean *)

Lemma validate_file_ok domains yt yp f am p t :
  argmax_axis1 (scores f) = Ok am → most_common_1 (Counter am) = Ok p →
  index domains (domain f) = Ok t →
  validate_file domains (yt, yp) f = Ok (yt ++ [t], yp ++ [p]).
Proof.
  intros H1 H2 H3. unfold validate_file.
  rewrite H1. simpl. rewrite H2. simpl. by rewrite H3.
Qed.

Lemma validate_files (domains : list string) (files : list file) :
  (∀ f, f ∈ files → domain f ∈ domains) →
  (∀ f, f ∈ files → scores f ≠ [] ∧ Forall (fun row => row ≠ []) (scores f)) →
  ∀ yt yp, ∃ yt' yp',
    for_each (validate_file domains) files (yt, yp) = Ok (yt ++ yt', yp ++ yp') ∧
    Forall2 (fun f t => domains !! t = Some (domain f)) files yt' ∧
    Forall2 predicted files yp'.
Proof.
  induction files as [|f files IH]; intros Hdom Hsc yt yp.
  - exists [], []. rewrite !app_nil_r. by split_and!.
  - destruct (Hsc f ltac:(by left)) as [Hne Hrows].
    destruct (argmax_axis1_first_max _ Hrows) as (am & Ham & Hfm).
    assert (am ≠ []) as Ham_ne.
    { intros ->. apply Forall2_nil_inv_r in Hfm. done. }
    destruct (most_common_most_frequent am Ham_ne) as (p & Hp & Hmf).
    destruct (index_elem domains (domain f) (Hdom f ltac:(by left)))
      as (t & Ht & Hlk).
    destruct (IH (fun g Hg => Hdom g ltac:(by right))
                 (fun g Hg => Hsc g ltac:(by right))
                 (yt ++ [t]) (yp ++ [p])) as (yt' & yp' & Hrun & Ht' & Hp').
    exists (t :: yt'), (p :: yp').
    cbn [for_each]. rewrite (validate_file_ok _ _ _ _ _ _ _ Ham Hp Ht).
    cbn [mbind result_bind]. rewrite Hrun, <- !app_assoc.
    split_and!; [done| by constructor |].
    constructor; [|done]. by exists am.
Qed.

Lemma hits_le (y_true y_pred : list nat) : hits y_true y_pred ≤ length y_true.
Proof.
  unfold hits. etrans; [apply length_filter|].
  rewrite length_zip_with. lia.
Qed.

Lemma length_filter_fmap {A B} (f : A → B) (P : B → Prop) (Q : A → Prop)
    `{∀ b, Decision (P b)} `{∀ a, Decision (Q a)} (l : list A) :
  (∀ a, P (f a) ↔ Q a) →
  length (filter P (f <$> l)) = length (filter Q l).
Proof.
  intros HPQ. induction l as [|a l IH]; [done|].
  rewrite fmap_cons, !filter_cons.
  destruct (decide (P (f a))) as [HP|HP], (decide (Q a)) as [HQ|HQ];
    simpl; try (by rewrite IH); exfalso.
  - by apply HQ, HPQ.
  - by apply HP, HPQ.
Qed.

(** The mean of the comparison counts the positions at which the two lists
    agree. *)
Lemma hits_positions (y_true y_pred : list nat) :
  length y_true = length y_pred →
  hits y_true y_pred
  = length (filter (fun k => y_true !! k = y_pred !! k)
                   (seq 0 (length y_true))).
Proof.
  revert y_pred. induction y_true as [|t yt IH]; intros [|p yp] Hlen;
    try done.
  injection Hlen as Hlen. unfold hits in *. cbn [zip_with length seq].
  rewrite <- fmap_S_seq, !filter_cons. cbn [fst snd lookup list_lookup].
  assert (length (filter (fun k => (t :: yt) !! k = (p :: yp) !! k)
                         (S <$> seq 0 (length yt)))
          = length (filter (fun tp : nat * nat => tp.1 = tp.2) (zip yt yp)))
    as Hrest.
  { rewrite (length_filter_fmap S _ (fun k => yt !! k = yp !! k)) by done.
    symmetry. by apply IH. }
  destruct (decide (t = p)) as [->|Hne].
  - rewrite decide_True by done. simpl. by rewrite Hrest.
  - rewrite decide_False by (by intros [= ?]). by rewrite Hrest.
Qed.

(** C10.  For a non-empty list of validated files, each with at least one
    frame of scores over at least one class and with a domain that is one of
    the classes, [validation] returns the record with metric "accuracy" and
    minimize False whose value is the number of files for which the most
    frequent per-frame argmax ([y_pred]) is the index of the file's domain
    in the classes ([y_true]), divided by the number of files; the classes
    are the distinct domains of the task's files in sorted order, and the
    value lies between 0 and 1.  The files counted are written out: the
    positions at which the two lists agree. *)
Theorem validation_accuracy (task_files files : list file) :
  files ≠ [] →
  (∀ f, f ∈ files → domain f ∈ domain <$> task_files) →
  (∀ f, f ∈ files → scores f ≠ [] ∧ Forall (fun row => row ≠ []) (scores f)) →
  let classes := get_classes task_files in
  (Sorted str_le classes ∧ NoDup classes ∧
   ∀ d, d ∈ classes ↔ d ∈ domain <$> task_files) ∧
  ∃ y_true y_pred acc,
    Forall2 (fun f t => classes !! t = Some (domain f)) files y_true ∧
    Forall2 predicted files y_pred ∧
    validation task_files files =
      Ok {| metric := "accuracy"; minimize := false; value := Finite acc |} ∧
    acc = (Z.of_nat (length (filter (fun k => y_true !! k = y_pred !! k)
                                    (seq 0 (length files))))
           # Pos.of_nat (length files))%Q ∧
    (0 <= acc)%Q ∧ (acc <= 1)%Q.
Proof.
  intros Hne Hdom Hsc classes.
  pose proof (get_classes_spec task_files) as Hcl. split; [exact Hcl|].
  destruct Hcl as (_ & _ & Hcl).
  destruct (validate_files classes files
              (fun f Hf => proj2 (Hcl _) (Hdom f Hf)) Hsc [] [])
    as (y_true & y_pred & Hrun & Ht & Hp).
  pose proof (Forall2_length _ _ _ Ht) as Hlen.
  pose proof (Forall2_length _ _ _ Hp) as Hlenp.
  assert (hits y_true y_pred
          = length (filter (fun k => y_true !! k = y_pred !! k)
                           (seq 0 (length files)))) as Hcount
    by (rewrite Hlen; apply hits_positions; congruence).
  exists y_true, y_pred,
    (Z.of_nat (length (filter (fun k => y_true !! k = y_pred !! k)
                              (seq 0 (length files))))
     # Pos.of_nat (length files))%Q.
  rewrite <- Hcount.
  split_and!; [done|done| |done|..].
  - unfold validation. fold classes. rewrite Hrun. simpl. unfold mean_equal.
    rewrite <- Hlen. destruct files as [|f files]; [done|].
    simpl length. cbv beta iota. by rewrite Pos.of_nat_succ.
  - unfold Qle. simpl. lia.
  - pose proof (hits_le y_true y_pred) as Hh. rewrite <- Hlen in Hh.
    destruct files as [|f files]; [done|]. simpl length in *.
    unfold Qle. cbn [Qnum Qden].
    rewrite <- Pos.of_nat_succ, Zpos_P_of_succ_nat. lia.
Qed.

Lemma validation_accuracy_witness :
  let task_files := [File "tv" []; File "radio" []] in
  let files := [File "tv" [[1 # 2; 3 # 2]; [1 # 2; 3 # 2]; [2 # 1; 0 # 1]];
                File "radio" [[1 # 2; 3 # 2]; [2 # 1; 1 # 1]; [2 # 1; 0 # 1]];
                File "radio" [[1 # 2; 3 # 2]]]%Q in
  let classes := get_classes task_files in
  (Sorted str_le classes ∧ NoDup classes ∧
   ∀ d, d ∈ classes ↔ d ∈ domain <$> task_files) ∧
  ∃ y_true y_pred acc,
    Forall2 (fun f t => classes !! t = Some (domain f)) files y_true ∧
    Forall2 predicted files y_pred ∧
    validation task_files files =
      Ok {| metric := "accuracy"; minimize := false; value := Finite acc |} ∧
    acc = (Z.of_nat (length (filter (fun k => y_true !! k = y_pred !! k)
                                    (seq 0 (length files))))
           # Pos.of_nat (length files))%Q ∧
    (0 <= acc)%Q ∧ (acc <= 1)%Q.
Proof.
  apply validation_accuracy.
  - discriminate.
  - intros f Hf. repeat (apply elem_of_cons in Hf as [->|Hf]);
      [| | |by apply elem_of_nil in Hf]; simpl;
      [by left | by right; left | by right; left].
  - intros f Hf. repeat (apply elem_of_cons in Hf as [->|Hf]);
      [| | |by apply elem_of_nil in Hf]; simpl;
      (split; [discriminate | repeat constructor; discriminate]).
Defined.

(** The value of the example: two files out of three are classified in
    their domain. *)
Example validation_example :
  validation [File "tv" []; File "radio" []]
    [File "tv" [[1 # 2; 3 # 2]; [1 # 2; 3 # 2]; [2 # 1; 0 # 1]];
     File "radio" [[1 # 2; 3 # 2]; [2 # 1; 1 # 1]; [2 # 1; 0 # 1]];
     File "radio" [[1 # 2; 3 # 2]]]%Q
  = Ok {| metric := "accuracy"; minimize := false; value := Finite (2 # 3) |}.
Proof. reflexivity. Qed.

End DomainClassificationFacts.

Module DirectoryFacts.
Import Directory.

(** **** Digits *)

Lemma value_be_snoc ds d : value_be (ds ++ [d]) = (10 * value_be ds + d)%N.
Proof. unfold value_be. by rewrite foldl_snoc. Qed.

Lemma value_be_rev ds : value_be (rev ds) = value_le ds.
Proof.
  induction ds as [|d ds IH]; [done|].
  simpl. rewrite value_be_snoc, IH. lia.
Qed.

Lemma value_be_app ds1 ds2 :
  value_be (ds1 ++ ds2)
  = (value_be ds1 * 10 ^ N.of_nat (length ds2) + value_be ds2)%N.
Proof.
  induction ds2 as [|d ds2 IH] using rev_ind.
  - rewrite app_nil_r. simpl. change (value_be []) with 0%N. lia.
  - rewrite app_assoc, !value_be_snoc, IH, length_app. simpl.
    replace (N.of_nat (length ds2 + 1)) with (N.succ (N.of_nat (length ds2))) by lia.
    rewrite N.pow_succ_r'. lia.
Qed.

Lemma digits_le_value fuel : ∀ n,
  (n < 2 ^ N.of_nat fuel)%N → value_le (digits_le fuel n) = n.
Proof.
  induction fuel as [|fuel IH]; intros n Hn.
  - simpl in Hn. assert (n = 0%N) as -> by lia. done.
  - cbn [digits_le]. destruct (n <? 10)%N eqn:Hlt.
    + simpl. lia.
    + apply N.ltb_ge in Hlt. cbn [value_le foldr].
      fold (value_le (digits_le fuel (n `div` 10)%N)). rewrite IH.
      * pose proof (N.div_mod n 10). lia.
      * replace (N.of_nat (S fuel)) with (N.succ (N.of_nat fuel)) in Hn by lia.
        rewrite N.pow_succ_r' in Hn.
        apply N.Div0.div_lt_upper_bound. lia.
Qed.

Lemma digits_value n : value_be (digits n) = n.
Proof.
  unfold digits. rewrite value_be_rev. apply digits_le_value.
  destruct (decide (n = 0%N)) as [->|Hn]; [done|].
  replace (N.of_nat (S (N.to_nat (N.log2 n)))) with (N.succ (N.log2 n)) by lia.
  apply N.log2_spec. lia.
Qed.

Lemma fixed_le_value w : ∀ n,
  value_le (fixed_le w n) = (n `mod` 10 ^ N.of_nat w)%N.
Proof.
  induction w as [|w IH]; intros n.
  - simpl. by rewrite N.mod_1_r.
  - cbn [fixed_le value_le foldr]. fold (value_le (fixed_le w (n `div` 10)%N)).
    rewrite IH.
    replace (N.of_nat (S w)) with (N.succ (N.of_nat w)) by lia.
    rewrite N.pow_succ_r'.
    rewrite (N.Div0.mod_mul_r n 10 (10 ^ N.of_nat w)). lia.
Qed.

Lemma fixed_le_length w n : length (fixed_le w n) = w.
Proof. revert n. induction w as [|w IH]; intros n; simpl; [done|]. by rewrite IH. Qed.

Lemma drop_zeros_value ds :
  value_le ds
  = (value_le (drop_zeros ds)
     * 10 ^ N.of_nat (length ds - length (drop_zeros ds)))%N ∧
  length (drop_zeros ds) ≤ length ds.
Proof.
  induction ds as [|d ds [IHv IHl]].
  - simpl. split; [|done]. change (value_le []) with 0%N. lia.
  - destruct d as [|p].
    + cbn [drop_zeros]. split; [|simpl; lia].
      cbn [value_le foldr]. fold (value_le ds). rewrite IHv at 1.
      replace (N.of_nat (length (0%N :: ds) - length (drop_zeros ds)))
        with (N.succ (N.of_nat (length ds - length (drop_zeros ds))))
        by (simpl; lia).
      rewrite N.pow_succ_r'. lia.
    + cbn [drop_zeros]. rewrite Nat.sub_diag. split; [|done].
      change (10 ^ N.of_nat 0)%N with 1%N. lia.
Qed.

Lemma digits_le_all fuel : ∀ n, all_digits (digits_le fuel n).
Proof.
  induction fuel as [|fuel IH]; intros n; cbn [digits_le]; [constructor|].
  destruct (n <? 10)%N eqn:Hlt.
  - apply N.ltb_lt in Hlt. by repeat constructor.
  - constructor; [|apply IH]. apply N.mod_upper_bound. lia.
Qed.

Lemma digits_all n : all_digits (digits n).
Proof. unfold digits. apply Forall_rev, digits_le_all. Qed.

Lemma digits_nonempty n : digits n ≠ [].
Proof.
  unfold digits. cbn [digits_le]. destruct (n <? 10)%N; simpl.
  - discriminate.
  - intros H. apply (f_equal length) in H.
    rewrite length_app in H. simpl in H. lia.
Qed.

Lemma fixed_le_all w : ∀ n, all_digits (fixed_le w n).
Proof.
  induction w as [|w IH]; intros n; simpl; constructor; [|apply IH].
  apply N.mod_upper_bound. lia.
Qed.

Lemma drop_zeros_all ds : all_digits ds → all_digits (drop_zeros ds).
Proof.
  induction 1 as [|d ds Hd Hds IH]; [constructor|].
  destruct d; cbn [drop_zeros]; [done|by constructor].
Qed.

Lemma fraction_all w n : all_digits (fraction w n).
Proof. apply Forall_rev, drop_zeros_all, fixed_le_all. Qed.

(** A number has at most [k] digits when it is below [10 ^ k]. *)
Lemma value_le_bound ds :
  all_digits ds → (value_le ds < 10 ^ N.of_nat (length ds))%N.
Proof.
  induction 1 as [|d ds Hd Hds IH]; [simpl; lia|].
  cbn [value_le foldr length]. fold (value_le ds).
  replace (N.of_nat (S (length ds))) with (N.succ (N.of_nat (length ds))) by lia.
  rewrite N.pow_succ_r'. lia.
Qed.

Lemma digits_le_length fuel : ∀ n k,
  (n < 10 ^ N.of_nat k)%N → 1 ≤ k → length (digits_le fuel n) ≤ k.
Proof.
  induction fuel as [|fuel IH]; intros n k Hn Hk; [simpl; lia|].
  cbn [digits_le]. destruct (n <? 10)%N eqn:Hlt; [simpl; lia|].
  apply N.ltb_ge in Hlt. cbn [length].
  destruct k as [|[|k]]; [lia|simpl in Hn; lia|].
  apply le_n_S, IH; [|lia].
  replace (N.of_nat (S (S k))) with (N.succ (N.of_nat (S k))) in Hn by lia.
  rewrite N.pow_succ_r' in Hn.
  apply N.Div0.div_lt_upper_bound. lia.
Qed.

Lemma ndigits_le n k : 1 ≤ k → ndigits n ≤ k ↔ (n < 10 ^ N.of_nat k)%N.
Proof.
  intros Hk. unfold ndigits. split.
  - intros Hlen. rewrite <- (digits_value n) at 1. unfold digits in *.
    rewrite value_be_rev. rewrite length_rev in Hlen.
    eapply N.lt_le_trans; [apply value_le_bound, digits_le_all|].
    apply N.pow_le_mono_r; lia.
  - intros Hn. unfold digits. rewrite length_rev. by apply digits_le_length.
Qed.

(** **** Characters *)

Lemma digit_cases d :
  (d < 10)%N →
  d ∈ [0; 1; 2; 3; 4; 5; 6; 7; 8; 9]%N.
Proof.
  intros Hd.
  destruct (decide (d = 0%N)) as [->|]; [set_solver|].
  destruct (decide (d = 1%N)) as [->|]; [set_solver|].
  destruct (decide (d = 2%N)) as [->|]; [set_solver|].
  destruct (decide (d = 3%N)) as [->|]; [set_solver|].
  destruct (decide (d = 4%N)) as [->|]; [set_solver|].
  destruct (decide (d = 5%N)) as [->|]; [set_solver|].
  destruct (decide (d = 6%N)) as [->|]; [set_solver|].
  destruct (decide (d = 7%N)) as [->|]; [set_solver|].
  destruct (decide (d = 8%N)) as [->|]; [set_solver|].
  destruct (decide (d = 9%N)) as [->|]; [set_solver|]. lia.
Qed.

Ltac each_digit d H :=
  apply digit_cases in H;
  repeat (apply elem_of_cons in H as [->|H]); [..|by apply elem_of_nil in H].

Lemma digit_of_digit_char d : (d < 10)%N → digit_of_char (digit_char d) = Some d.
Proof. intros Hd. each_digit d Hd; reflexivity. Qed.

Lemma take_sign_digit d s :
  (d < 10)%N → take_sign (digit_char d :: s) = (false, digit_char d :: s).
Proof. intros Hd. each_digit d Hd; reflexivity. Qed.

Lemma take_digits_chars ds rest :
  all_digits ds →
  take_digits (chars ds ++ rest)
  = (ds ++ (take_digits rest).1, (take_digits rest).2).
Proof.
  induction 1 as [|d ds Hd Hds IH]; simpl.
  - by destruct (take_digits rest).
  - rewrite digit_of_digit_char by done. fold (chars ds). by rewrite IH.
Qed.

Lemma chars_plain ds : all_digits ds → Forall plain (chars ds).
Proof.
  induction 1 as [|d ds Hd Hds IH]; simpl; constructor; [|done].
  left. rewrite digit_of_digit_char by done. by eexists.
Qed.

Lemma point_fraction_plain fp : all_digits fp → Forall plain (point_fraction fp).
Proof.
  intros Hfp. destruct fp as [|d fp]; [constructor|].
  cbn [point_fraction]. constructor; [by right|by apply chars_plain].
Qed.

Lemma plain_not c :
  plain c → c ≠ "+"%char ∧ c ≠ "-"%char ∧ c ≠ "x"%char.
Proof.
  intros [[d Hd]| ->]; [|by split_and!].
  split_and!; intros ->; by vm_compute in Hd.
Qed.

(** **** Reading back a number printed in fixed notation *)

Lemma float_plain ip fp :
  all_digits ip → all_digits fp → ip ≠ [] →
  float (chars ip ++ point_fraction fp)
  = Ok (Dec (Z.of_N (value_be (ip ++ fp))) (- Z.of_nat (length fp))).
Proof.
  intros Hip Hfp Hne. unfold float.
  destruct ip as [|d ip]; [done|]. apply Forall_cons in Hip as [Hd Hip].
  cbn [chars fmap list_fmap app]. rewrite take_sign_digit by done.
  change (digit_char d :: (digit_char <$> ip) ++ point_fraction fp)
    with (chars (d :: ip) ++ point_fraction fp).
  rewrite take_digits_chars by (by constructor).
  destruct fp as [|f fp].
  - simpl point_fraction. simpl take_digits. cbn [fst snd].
    rewrite !app_nil_r. rewrite decide_False by done. done.
  - cbn [point_fraction take_digits].
    change (digit_of_char ".") with (@None N). cbn [fst snd].
    rewrite app_nil_r.
    pose proof (take_digits_chars (f :: fp) [] Hfp) as Htd.
    rewrite app_nil_r in Htd. rewrite Htd. simpl take_digits. cbn [fst snd].
    rewrite app_nil_r. rewrite decide_False by done. done.
Qed.

(** **** Numbers with at most six digits *)

Lemma dec_eqb_common a b c :
  (c ≤ de a)%Z → (c ≤ de b)%Z →
  (dm a * 10 ^ (de a - c) = dm b * 10 ^ (de b - c))%Z →
  dec_eqb a b = true.
Proof.
  intros Ha Hb Heq. unfold dec_eqb. apply Z.eqb_eq.
  set (c0 := Z.min (de a) (de b)).
  assert (c ≤ c0)%Z as Hc by (unfold c0; lia).
  assert (c0 ≤ de a ∧ c0 ≤ de b)%Z as [Ha0 Hb0] by (unfold c0; lia).
  apply (Z.mul_reg_r _ _ (10 ^ (c0 - c))%Z).
  { apply Z.pow_nonzero; lia. }
  rewrite <- !Z.mul_assoc, <- !Z.pow_add_r by lia.
  by replace (de a - c0 + (c0 - c))%Z with (de a - c)%Z by lia;
     replace (de b - c0 + (c0 - c))%Z with (de b - c)%Z by lia.
Qed.

(** Integer part and fraction put together again. *)
Lemma integer_fraction_value M s :
  let ip := digits (M `div` 10 ^ N.of_nat s)%N in
  let fp := fraction s M in
  length fp ≤ s ∧
  (value_be (ip ++ fp) * 10 ^ N.of_nat (s - length fp) = M)%N.
Proof.
  cbv zeta. unfold fraction.
  destruct (drop_zeros_value (fixed_le s M)) as [Hv Hl].
  rewrite fixed_le_length in Hv, Hl. rewrite fixed_le_value in Hv.
  rewrite length_rev. split; [done|].
  rewrite value_be_app, digits_value, value_be_rev, length_rev.
  set (k := length (drop_zeros (fixed_le s M))) in *.
  rewrite N.mul_add_distr_r, <- N.mul_assoc, <- N.pow_add_r, <- Hv.
  replace (N.of_nat k + N.of_nat (s - k))%N with (N.of_nat s) by lia.
  pose proof (N.div_mod M (10 ^ N.of_nat s)%N) as Hdm.
  assert (10 ^ N.of_nat s ≠ 0)%N by (apply N.pow_nonzero; lia). lia.
Qed.

Lemma format_g_short x :
  short x →
  ∃ ip fp, all_digits ip ∧ all_digits fp ∧ ip ≠ [] ∧
    format_g x = chars ip ++ point_fraction fp ∧
    dec_eqb (Dec (Z.of_N (value_be (ip ++ fp))) (- Z.of_nat (length fp))) x
    = true.
Proof.
  destruct x as [mz e]. unfold short. cbn [dm de].
  intros [->|(Hpos & HL & HX)].
  - exists [0%N], []. split_and!; [by repeat constructor|constructor|done|done|].
    unfold dec_eqb. cbn [dm de]. apply Z.eqb_eq. simpl. lia.
  - destruct mz as [|p|p]; [lia| |lia]. cbn [Z.to_N] in *.
    set (L := ndigits (N.pos p)) in *.
    set (X := (Z.of_nat L - 1 + e)%Z) in *.
    set (s := Z.to_nat (5 - X)).
    set (M := (N.pos p * 10 ^ N.of_nat (6 - L))%N).
    exists (digits (M `div` 10 ^ N.of_nat s)%N), (fraction s M).
    destruct (integer_fraction_value M s) as [Hk HM].
    split_and!; [apply digits_all|apply fraction_all|apply digits_nonempty| |].
    + unfold format_g. cbn [dm de].
      rewrite decide_False by done. rewrite decide_False by lia.
      cbn [Z.abs_N]. unfold round6. fold L.
      rewrite decide_True by done. fold M.
      replace (Z.of_nat L - 1 + e + 0)%Z with X by lia.
      rewrite decide_True by done. fold s. done.
    + apply (dec_eqb_common _ _ (- Z.of_nat s)%Z); cbn [dm de]; [lia|lia|].
      replace (- Z.of_nat (length (fraction s M)) - - Z.of_nat s)%Z
        with (Z.of_N (N.of_nat (s - length (fraction s M)))) by lia.
      replace (e - - Z.of_nat s)%Z with (Z.of_N (N.of_nat (6 - L))) by lia.
      change 10%Z with (Z.of_N 10). rewrite <- !N2Z.inj_pow.
      change (Z.pos p) with (Z.of_N (N.pos p)). rewrite <- !N2Z.inj_mul.
      f_equal. exact HM.
Qed.

Lemma format_g_plain x : short x → Forall plain (format_g x) ∧ format_g x ≠ [].
Proof.
  intros Hx. destruct (format_g_short x Hx) as (ip & fp & Hip & Hfp & Hne & -> & _).
  split.
  - apply Forall_app. split; [by apply chars_plain|by apply point_fraction_plain].
  - destruct ip; [done|discriminate].
Qed.

Lemma float_format_g x :
  short x → ∃ x', float (format_g x) = Ok x' ∧ dec_eqb x' x = true.
Proof.
  intros Hx. destruct (format_g_short x Hx) as (ip & fp & Hip & Hfp & Hne & -> & Heq).
  eexists. split; [by apply float_plain|done].
Qed.

(** **** [split] *)

Lemma split_none sep s : sep ∉ s → split sep s = [s].
Proof.
  induction s as [|c s IH]; [done|]. intros Hs.
  apply not_elem_of_cons in Hs as [Hc Hs]. cbn [split].
  rewrite decide_False by done. by rewrite IH.
Qed.

Lemma split_at sep u v :
  sep ∉ u → split sep (u ++ sep :: v) = u :: split sep v.
Proof.
  induction u as [|c u IH]; intros Hu.
  - cbn [app split]. by rewrite decide_True.
  - apply not_elem_of_cons in Hu as [Hc Hu]. cbn [app split].
    rewrite decide_False by done. by rewrite IH.
Qed.

Lemma plain_free (l : list ascii) :
  Forall plain l →
  ("+"%char ∉ l) ∧ ("-"%char ∉ l) ∧ ("x"%char ∉ l).
Proof.
  intros Hl. split_and!; intros Hin;
    apply (proj1 (Forall_forall _ _) Hl) in Hin;
    apply plain_not in Hin; by destruct Hin as (? & ? & ?).
Qed.

Lemma last_plain (l : list ascii) :
  Forall plain l → l ≠ [] → ∃ c, last l = Some c ∧ c ≠ "x"%char.
Proof.
  intros Hl Hne. destruct (last l) as [c|] eqn:Hlast.
  - exists c. split; [done|]. apply last_Some_elem_of in Hlast.
    apply (proj1 (Forall_forall _ _) Hl) in Hlast.
    by apply plain_not in Hlast as (_ & _ & ?).
  - by apply last_None in Hlast.
Qed.

(** **** Decoding an encoded directory name *)

Lemma parse_durations_encoded d m :
  short d → (∀ x, m = Some x → short x) →
  let t0 := match m with None => [] | Some x => format_g x ++ ["-"%char] end
            ++ format_g d in
  ("+"%char ∉ t0) ∧
  ∃ d' m', parse_durations t0 = Ok (d', m') ∧
    dec_eqb d' d = true ∧ option_dec_eqb m' m = true.
Proof.
  intros Hd Hm t0. unfold t0.
  destruct (format_g_plain d Hd) as [Hpd _].
  destruct (plain_free _ Hpd) as (Hd_plus & Hd_minus & _).
  destruct (float_format_g d Hd) as (d' & Hfd & Hed).
  unfold parse_durations. destruct m as [x|].
  - specialize (Hm x eq_refl).
    destruct (format_g_plain x Hm) as [Hpx _].
    destruct (plain_free _ Hpx) as (Hx_plus & Hx_minus & _).
    destruct (float_format_g x Hm) as (x' & Hfx & Hex).
    split.
    + rewrite !not_elem_of_app. split_and!; [done| |done].
      by intros ?%list_elem_of_singleton.
    + exists d', (Some x').
      rewrite <- app_assoc. cbn [app]. rewrite split_at by done.
      rewrite split_none by done. cbn [length].
      rewrite (decide_True (P := 2 = 2)) by done.
      rewrite (decide_False (P := 2 = 1)) by done.
      unfold token. cbn [lookup list_lookup from_option mbind result_bind].
      rewrite Hfx. cbn [mbind result_bind]. by rewrite Hfd.
  - split; [done|]. exists d', None.
    cbn [app]. rewrite split_none by done. cbn [length].
    rewrite (decide_False (P := 1 = 2)) by done.
    rewrite (decide_True (P := 1 = 1)) by done.
    unfold token. cbn [lookup list_lookup from_option mbind result_bind].
    by rewrite Hfd.
Qed.

Lemma parse_tokens_encoded d m s :
  short d → (∀ x, m = Some x → short x) → (∀ x, s = Some x → short x) →
  ∃ d' m' s',
    parse_tokens
      ((match m with None => [] | Some x => format_g x ++ ["-"%char] end
        ++ format_g d)
       ++ match s with None => [] | Some x => "+"%char :: format_g x end)
    = Ok (d', m', s') ∧
    dec_eqb d' d = true ∧ option_dec_eqb m' m = true ∧
    option_dec_eqb s' s = true.
Proof.
  intros Hd Hm Hs.
  destruct (parse_durations_encoded d m Hd Hm) as (Hfree & d' & m' & Hleft & Hed & Hem).
  cbv zeta in Hfree, Hleft. unfold parse_tokens.
  destruct s as [x|].
  - specialize (Hs x eq_refl).
    destruct (format_g_plain x Hs) as [Hpx _].
    destruct (plain_free _ Hpx) as (Hx_plus & _ & _).
    destruct (float_format_g x Hs) as (x' & Hfx & Hex).
    exists d', m', (Some x').
    rewrite split_at by done. rewrite split_none by done. cbn [length].
    rewrite (decide_True (P := 2 = 2)) by done.
    unfold token. cbn [lookup list_lookup from_option mbind result_bind].
    rewrite Hfx. cbn [mbind result_bind]. by rewrite Hleft.
  - exists d', m', None.
    rewrite app_nil_r, split_none by done. cbn [length].
    rewrite (decide_False (P := 1 = 2)) by done.
    unfold token. cbn [lookup list_lookup from_option mbind result_bind].
    by rewrite Hleft.
Qed.

Lemma short_positive_short x : short_positive x → short x.
Proof. intros H. by right. Qed.

(** C3 (amended).  For a duration, an optional minimum duration and an
    optional step that are positive numbers of at most six digits printed
    in fixed notation (a leading digit weighing between 0.0001 and 100000),
    and for either value of the heterogeneous flag, encoding succeeds and
    decoding the directory name gives back parameters equal to the original
    ones. *)
Theorem directory_round_trip d m s h :
  short_positive d → (∀ x, m = Some x → short_positive x) →
  (∀ x, s = Some x → short_positive x) →
  ∃ directory p,
    _params_to_directory d m s h true = Ok directory ∧
    _directory_to_params directory = Ok p ∧
    params_eqb p (d, m, s, h) = true.
Proof.
  intros Hd%short_positive_short Hm' Hs'.
  assert (∀ x, m = Some x → short x) as Hm
    by (intros x Hx; by apply short_positive_short, Hm').
  assert (∀ x, s = Some x → short x) as Hs
    by (intros x Hx; by apply short_positive_short, Hs').
  clear Hm' Hs'.
  destruct (parse_tokens_encoded d m s Hd Hm Hs)
    as (d' & m' & s' & Hparse & Hed & Hem & Hes).
  set (D0 := (match m with None => [] | Some x => format_g x ++ ["-"%char] end
              ++ format_g d)
             ++ match s with None => [] | Some x => "+"%char :: format_g x end)
    in *.
  assert (("x"%char ∉ D0) ∧ D0 ≠ []) as [Hx Hne].
  { destruct (format_g_plain d Hd) as [Hpd Hnd].
    destruct (plain_free _ Hpd) as (_ & _ & Hxd).
    unfold D0. split.
    - rewrite !not_elem_of_app. split_and!; [|done|].
      + destruct m as [x|]; [|apply not_elem_of_nil].
        destruct (format_g_plain x (Hm x eq_refl)) as [Hpx _].
        destruct (plain_free _ Hpx) as (_ & _ & Hxx).
        rewrite not_elem_of_app. split; [done|].
        by intros ?%list_elem_of_singleton.
      + destruct s as [x|]; [|apply not_elem_of_nil].
        destruct (format_g_plain x (Hs x eq_refl)) as [Hpx _].
        destruct (plain_free _ Hpx) as (_ & _ & Hxx).
        apply not_elem_of_cons. by split.
    - intros E. apply app_eq_nil in E as [E _].
      apply app_eq_nil in E as [_ E]. done. }
  exists (String.string_of_list_ascii (if h then D0 ++ ["x"%char] else D0)),
         (d', m', s', h).
  split_and!.
  - unfold _params_to_directory. cbn [negb]. f_equal. f_equal.
    unfold D0. destruct s, h; by rewrite ?app_nil_r.
  - unfold _directory_to_params.
    rewrite String.list_ascii_of_string_of_list_ascii. destruct h.
    + rewrite last_snoc. cbn [from_option mbind result_bind].
      rewrite decide_True by done.
      rewrite length_app. cbn [length].
      replace (length D0 + 1 - 1) with (length D0) by lia.
      rewrite take_app_length. by rewrite Hparse.
    + destruct (last D0) as [c|] eqn:Hlast; [|by apply last_None in Hlast].
      cbn [from_option mbind result_bind].
      rewrite decide_False; [by rewrite Hparse|].
      intros ->. by apply last_Some_elem_of in Hlast.
  - unfold params_eqb. rewrite Hed, Hem, Hes. cbn [andb].
    by apply bool_decide_eq_true.
Qed.

(** The examples of the specification and of the comments of the code. *)
Lemma directory_round_trip_witness :
  ∃ directory p,
    _params_to_directory (Dec 32 (-1)) None (Some (Dec 8 (-1))) false true
      = Ok directory ∧
    _directory_to_params directory = Ok p ∧
    params_eqb p (Dec 32 (-1), None, Some (Dec 8 (-1)), false) = true.
Proof.
  apply directory_round_trip.
  - vm_compute. split_and!; [done|lia|discriminate|done].
  - intros x [=].
  - intros x [= <-]. vm_compute. split_and!; [done|lia|discriminate|done].
Defined.

Example encode_3_2_step_0_8 :
  _params_to_directory (Dec 32 (-1)) None (Some (Dec 8 (-1))) false true
  = Ok "3.2+0.8".
Proof. reflexivity. Qed.

Example decode_3_2_step_0_8 :
  _directory_to_params "3.2+0.8"
  = Ok (Dec 32 (-1), None, Some (Dec 8 (-1)), false).
Proof. reflexivity. Qed.

Example encode_5_heterogeneous :
  _params_to_directory (Dec 5 0) None None true true = Ok "5x".
Proof. reflexivity. Qed.

Example encode_1_5_2 :
  _params_to_directory (Dec 5 0) (Some (Dec 1 0)) (Some (Dec 2 0)) false true
  = Ok "1-5+2".
Proof. reflexivity. Qed.

(** C3, as stated, fails.  A duration of ten million seconds is printed in
    exponent notation, ["1e+07"], whose ['+'] the decoder takes for the
    separator of the step: [float("1e")] raises. *)
Lemma directory_round_trip_fails :
  _params_to_directory (Dec 1 7) None None false true = Ok "1e+07" ∧
  _directory_to_params "1e+07" = Raise "ValueError".
Proof. split; reflexivity. Qed.

(** Other parameters that do not come back: a seventh significant digit is
    lost, a small number is printed with a ['-'] in its exponent, a negative
    number starts with the separator of the minimum duration. *)
Example seventh_digit_lost :
  _params_to_directory (Dec 1234567 (-7)) None None false true = Ok "0.123457" ∧
  _directory_to_params "0.123457" = Ok (Dec 123457 (-6), None, None, false) ∧
  dec_eqb (Dec 123457 (-6)) (Dec 1234567 (-7)) = false.
Proof. split_and!; reflexivity. Qed.

Example small_number_not_decoded :
  _params_to_directory (Dec 1 (-5)) None None false true = Ok "1e-05" ∧
  _directory_to_params "1e-05" = Raise "ValueError".
Proof. split; reflexivity. Qed.

Example negative_number_not_decoded :
  _params_to_directory (Dec (-5) 0) None None false true = Ok "-5" ∧
  _directory_to_params "-5" = Raise "ValueError".
Proof. split; reflexivity. Qed.

(** Zero is left out of the round trip for the sake of the negative zero of
    the floats: ['{:g}'] prints [-0.0] as ['-0'], a name that the decoder
    rejects like that of any negative number (and [0.0] as ['0'], which it
    reads back). *)
Example negative_zero_not_decoded :
  _directory_to_params "-0" = Raise "ValueError" ∧
  _directory_to_params "0" = Ok (Dec 0 0, None, None, false).
Proof. split; reflexivity. Qed.

End DirectoryFacts.

Module SamplerFacts.
Import Sampler.

(** **** Positions *)

Section positions.
Context {A : Type} (P : A → Prop) `{∀ a, Decision (P a)}.

Lemma elem_of_positions_from (l : list A) : ∀ off i,
  i ∈ positions_from P off l ↔
  off ≤ i ∧ ∃ a, l !! (i - off) = Some a ∧ P a.
Proof.
  induction l as [|b l IH]; intros off i; cbn [positions_from].
  - split; [by intros ?%elem_of_nil|]. by intros (_ & a & ? & _).
  - assert (i ∈ positions_from P (S off) l ↔
            off < i ∧ ∃ a, (b :: l) !! (i - off) = Some a ∧ P a) as Htail.
    { rewrite IH. split.
      - intros (Hle & a & Ha & HP). split; [lia|]. exists a. split; [|done].
        replace (i - off) with (S (i - S off)) by lia. done.
      - intros (Hlt & a & Ha & HP). split; [lia|]. exists a. split; [|done].
        replace (i - off) with (S (i - S off)) in Ha by lia. done. }
    destruct (decide (P b)) as [Hb|Hb].
    + rewrite elem_of_cons, Htail. split.
      * intros [->|(Hlt & Hex)]; [|split; [lia|done]].
        split; [done|]. exists b. by rewrite Nat.sub_diag.
      * intros (Hle & a & Ha & HP).
        destruct (decide (i = off)) as [->|Hne]; [by left|].
        right. split; [lia|]. by exists a.
    + rewrite Htail. split.
      * intros (Hlt & Hex). split; [lia|done].
      * intros (Hle & a & Ha & HP).
        destruct (decide (i = off)) as [->|Hne].
        -- rewrite Nat.sub_diag in Ha. simpl in Ha. by simplify_eq.
        -- split; [lia|]. by exists a.
Qed.

Lemma elem_of_positions (l : list A) i :
  i ∈ positions P l ↔ ∃ a, l !! i = Some a ∧ P a.
Proof.
  unfold positions. rewrite elem_of_positions_from, Nat.sub_0_r.
  split; [by intros [_ ?]|]. intros ?. split; [lia|done].
Qed.

Lemma positions_from_NoDup (l : list A) : ∀ off, NoDup (positions_from P off l).
Proof.
  induction l as [|b l IH]; intros off; cbn [positions_from]; [constructor|].
  destruct (decide (P b)); [|apply IH].
  constructor; [|apply IH].
  rewrite elem_of_positions_from. intros [? _]. lia.
Qed.

Lemma positions_NoDup (l : list A) : NoDup (positions P l).
Proof. apply positions_from_NoDup. Qed.

Lemma positions_from_length (l : list A) : ∀ off,
  length (positions_from P off l) = length (filter P l).
Proof.
  induction l as [|b l IH]; intros off; cbn [positions_from]; [done|].
  destruct (decide (P b)).
  - rewrite filter_cons_True by done. simpl. by rewrite IH.
  - rewrite filter_cons_False by done. apply IH.
Qed.

Lemma positions_length (l : list A) :
  length (positions P l) = length (filter P l).
Proof. apply positions_from_length. Qed.

Lemma positions_lt (l : list A) i : i ∈ positions P l → i < length l.
Proof.
  rewrite elem_of_positions. intros (a & Ha & _). by eapply lookup_lt_Some.
Qed.

End positions.

Lemma positions_from_fmap {A B} (f : A → B) (P : B → Prop)
    `{∀ b, Decision (P b)} (l : list A) : ∀ off,
  positions_from P off (f <$> l) = positions_from (fun a => P (f a)) off l.
Proof.
  induction l as [|a l IH]; intros off; [done|].
  rewrite fmap_cons. cbn [positions_from]. rewrite IH.
  by destruct (decide (P (f a))).
Qed.

Lemma positions_from_ext {A} (P Q : A → Prop)
    `{∀ a, Decision (P a)} `{∀ a, Decision (Q a)} (l : list A) : ∀ off,
  (∀ a, a ∈ l → P a ↔ Q a) →
  positions_from P off l = positions_from Q off l.
Proof.
  induction l as [|a l IH]; intros off HPQ; [done|].
  cbn [positions_from]. rewrite (IH (S off)) by (intros; apply HPQ; by right).
  destruct (decide (P a)) as [HP|HP], (decide (Q a)) as [HQ|HQ]; try done.
  - exfalso. apply HQ, HPQ; [by left|done].
  - exfalso. apply HP, HPQ; [by left|done].
Qed.

(** **** [np.unique] *)

Lemma unique_spec (labels : list string) :
  Sorted str_le (unique labels) ∧ NoDup (unique labels) ∧
  ∀ l, l ∈ unique labels ↔ l ∈ labels.
Proof.
  unfold unique. split_and!.
  - apply (Sorted_merge_sort str_le).
  - rewrite merge_sort_Permutation. apply NoDup_remove_dups.
  - intros l. rewrite merge_sort_Permutation. apply elem_of_remove_dups.
Qed.

Lemma index_of_lookup (u : list string) l :
  l ∈ u → u !! index_of u l = Some l.
Proof.
  intros Hl. unfold index_of.
  destruct (list_find_elem_of (fun l' => l' = l) u l Hl eq_refl) as [[k l'] Hf].
  rewrite Hf. simpl. by apply list_find_Some in Hf as (Hk & -> & _).
Qed.

Lemma index_of_eq (u : list string) s v l :
  NoDup u → u !! s = Some v → l ∈ u → index_of u l = s ↔ l = v.
Proof.
  intros Hnd Hs Hl. pose proof (index_of_lookup u l Hl) as Hi. split.
  - intros <-. congruence.
  - intros ->. by eapply NoDup_lookup.
Qed.

Lemma positions_inverse (labels : list string) s v :
  unique labels !! s = Some v →
  positions (fun c => c = s) (inverse labels)
  = positions (fun l => l = v) labels.
Proof.
  intros Hs. destruct (unique_spec labels) as (_ & Hnd & Hel).
  unfold positions, inverse. rewrite positions_from_fmap.
  apply positions_from_ext. intros l Hl.
  apply index_of_eq; [done|done|by apply Hel].
Qed.

Lemma counts_lookup (labels : list string) s v :
  unique labels !! s = Some v →
  counts labels !! s = Some (length (positions (fun l => l = v) labels)) ∧
  0 < length (positions (fun l => l = v) labels).
Proof.
  intros Hs. unfold counts. rewrite list_lookup_fmap, Hs. simpl.
  rewrite positions_length. split; [done|].
  destruct (unique_spec labels) as (_ & _ & Hel).
  assert (v ∈ labels) as Hv by (apply Hel; by eapply list_elem_of_lookup_2).
  assert (v ∈ filter (fun l => l = v) labels) as Hf
    by (by apply list_elem_of_filter).
  destruct (filter _ labels); [by apply elem_of_nil in Hf|simpl; lia].
Qed.

(** **** The groups of a store whose group ids are 0, ..., G-1 *)

Lemma StronglySorted_seq_Z a n : StronglySorted Z.le (Z.of_nat <$> seq a n).
Proof.
  revert a. induction n as [|n IH]; intros a; simpl; constructor; [apply IH|].
  apply Forall_forall. intros x Hx.
  apply list_elem_of_fmap in Hx as (k & -> & Hk). apply elem_of_seq in Hk. lia.
Qed.

Lemma group_keys_range (zs : list Z) G :
  (∀ k, k ∈ zs ↔ (0 ≤ k < Z.of_nat G)%Z) →
  group_keys zs = Z.of_nat <$> seq 0 G.
Proof.
  intros Hzs. unfold group_keys.
  apply (StronglySorted_unique Z.le).
  - apply (StronglySorted_merge_sort Z.le).
  - apply StronglySorted_seq_Z.
  - rewrite merge_sort_Permutation. apply NoDup_Permutation.
    + apply NoDup_remove_dups.
    + apply NoDup_fmap; [apply _|apply NoDup_seq].
    + intros k. rewrite elem_of_remove_dups, Hzs, list_elem_of_fmap. split.
      * intros Hk. exists (Z.to_nat k). split; [lia|]. apply elem_of_seq. lia.
      * intros (n & -> & Hn). apply elem_of_seq in Hn. lia.
Qed.

Section getrows.
Context {feat : Type}.

Lemma getrows_ok (Xs : list feat) (rows : list nat) :
  (∀ r, r ∈ rows → r < length Xs) →
  getrows Xs rows = Ok (omap (fun r => Xs !! r) rows) ∧
  length (omap (fun r => Xs !! r) rows) = length rows.
Proof.
  induction rows as [|r rows IH]; intros Hr; [done|].
  destruct (lookup_lt_is_Some_2 Xs r (Hr r ltac:(by left))) as [x Hx].
  destruct (IH (fun r' Hr' => Hr r' ltac:(by right))) as [IHg IHl].
  cbn [getrows omap list_omap]. rewrite Hx. cbn [from_option mbind result_bind].
  fold (omap (fun r => Xs !! r) rows).
  rewrite IHg. cbn [mbind result_bind]. split; [done|]. simpl. by rewrite IHl.
Qed.

End getrows.

(** **** The two loops *)

Section loops.
Context {feat rng : Type}.
Context (choice : rng → list nat → nat → list nat * rng) (seed : rng).
Context (st : h5 (feat:=feat)) (G : nat).
Hypothesis HG : 0 < G.
Hypothesis HX : length (h5_X st) = length (h5_z st).
Hypothesis Hy : length (h5_y st) = length (h5_z st).
Hypothesis Hz : ∀ k, k ∈ h5_z st ↔ (0 ≤ k < Z.of_nat G)%Z.
Hypothesis Hchoice : choice_contract choice.

(** The sequences of a group carry one label. *)
Hypothesis Hhom : ∀ r r' k,
  h5_z st !! r = Some k → h5_z st !! r' = Some k →
  h5_y st !! r = h5_y st !! r'.

#[local] Abbreviation labels := (y_groups (h5_y st) (h5_z st)).
#[local] Abbreviation y := (inverse labels).

Lemma extends_refl acc : extends st y acc acc [].
Proof.
  unfold extends. simpl. rewrite !app_nil_r. split_and!; [done|done| |].
  - exists []. by rewrite app_nil_r.
  - exists []. by rewrite app_nil_r.
Qed.

Lemma extends_trans acc1 acc2 acc3 c1 c2 :
  extends st y acc1 acc2 c1 → extends st y acc2 acc3 c2 →
  extends st y acc1 acc3 (c1 ++ c2).
Proof.
  intros (HXX1 & HN1 & (m1 & HX1 & Hm1) & (k1 & HY1 & Hk1))
         (HXX2 & HN2 & (m2 & HX2 & Hm2) & (k2 & HY2 & Hk2)).
  unfold extends. rewrite !fmap_app. split_and!.
  - by rewrite HXX2, HXX1, app_assoc.
  - by rewrite HN2, HN1, app_assoc.
  - exists (m1 ++ m2). split; [by rewrite HX2, HX1, app_assoc|].
    by apply Forall2_app.
  - exists (k1 ++ k2). split; [by rewrite HY2, HY1, app_assoc|].
    by apply Forall2_app.
Qed.

Lemma labels_length : length labels = G.
Proof.
  unfold y_groups. by rewrite length_fmap, (group_keys_range _ G Hz),
    length_fmap, length_seq.
Qed.

Lemma y_length : length y = G.
Proof. unfold inverse. by rewrite length_fmap, labels_length. Qed.

Lemma group_rows g :
  g < G →
  let rows := positions (fun v => v = Z.of_nat g) (h5_z st) in
  rows ≠ [] ∧ ∀ r, r ∈ rows → r < length (h5_X st).
Proof.
  intros Hg rows. split.
  - assert (Z.of_nat g ∈ h5_z st) as Hin by (apply Hz; lia).
    apply list_elem_of_lookup in Hin as [r Hr].
    assert (r ∈ rows) as Hrow by (apply elem_of_positions; by eexists).
    intros E. rewrite E in Hrow. by apply elem_of_nil in Hrow.
  - intros r Hr. rewrite HX. by eapply positions_lt.
Qed.

Lemma members_nonempty g : g < G → members st g ≠ [].
Proof.
  intros Hg. destruct (group_rows g Hg) as [Hne Hlt].
  destruct (getrows_ok (h5_X st) _ Hlt) as [_ Hlen].
  unfold members. intros E. rewrite E in Hlen. simpl in Hlen.
  destruct (positions _ (h5_z st)); [done|simpl in Hlen; lia].
Qed.

Lemma add_group_ok acc g :
  g < G → ∃ acc', add_group st y acc g = Ok acc' ∧ extends st y acc acc' [g].
Proof.
  intros Hg. destruct (group_rows g Hg) as [Hne Hlt].
  destruct (getrows_ok (h5_X st) _ Hlt) as [Hget Hlen].
  pose proof (members_nonempty g Hg) as Hmem. fold (members st g) in Hget, Hlen.
  destruct (lookup_lt_is_Some_2 (members st g) (length (members st g) `div` 2))
    as [mid Hmid].
  { destruct (members st g); [done|]. apply Nat.div_lt; simpl; lia. }
  destruct (lookup_lt_is_Some_2 y g) as [c Hc]; [by rewrite y_length|].
  unfold add_group, get_group. cbv zeta.
  rewrite decide_False by done. cbn [mbind result_bind].
  rewrite Hget. cbn [mbind result_bind]. rewrite Hmid.
  cbn [from_option mbind result_bind]. rewrite Hc.
  cbn [from_option mbind result_bind].
  eexists. split; [done|]. unfold extends. cbn [XX X N Y fmap list_fmap].
  split_and!; [done|done| |].
  - exists [mid]. split; [done|]. by repeat constructor.
  - exists [c]. split; [done|]. by repeat constructor.
Qed.

Lemma add_groups_ok (sel : list nat) : ∀ acc,
  (∀ g, g ∈ sel → g < G) →
  ∃ acc', for_each (add_group st y) sel acc = Ok acc' ∧
          extends st y acc acc' sel.
Proof.
  induction sel as [|g sel IH]; intros acc Hsel.
  - exists acc. split; [done|apply extends_refl].
  - destruct (add_group_ok acc g (Hsel g ltac:(by left))) as (acc1 & H1 & He1).
    destruct (IH acc1 (fun g' Hg' => Hsel g' ltac:(by right)))
      as (acc2 & H2 & He2).
    exists acc2. split.
    + cbn [for_each]. rewrite H1. cbn [mbind result_bind]. done.
    + apply (extends_trans _ _ _ [g] sel He1 He2).
Qed.

Lemma inverse_lookup g c :
  y !! g = Some c → unique labels !! c = labels !! g.
Proof.
  unfold inverse. rewrite list_lookup_fmap.
  destruct (labels !! g) as [l|] eqn:Hl; [|done]. simpl. intros [= <-].
  apply index_of_lookup. apply unique_spec. by eapply list_elem_of_lookup_2.
Qed.

Lemma add_speaker_ok acc g s :
  s < length (unique labels) →
  ∃ sel acc' g',
    add_speaker choice st y (counts labels) (acc, g) s = Ok (acc', g') ∧
    balanced y s sel ∧ sel ≠ [] ∧ extends st y acc acc' sel.
Proof.
  intros Hs. destruct (lookup_lt_is_Some_2 _ _ Hs) as [v Hv].
  destruct (counts_lookup labels s v Hv) as [Hc Hpos].
  pose proof (positions_inverse labels s v Hv) as Hgroups.
  unfold add_speaker. rewrite Hc. cbn [from_option mbind result_bind].
  rewrite Hgroups.
  set (a := positions (fun l => l = v) labels) in *.
  assert (10 `min` length a ≤ length a) as Hsize by lia.
  rewrite decide_True by done.
  destruct (Hchoice g a (10 `min` length a) Hsize (positions_NoDup _ _))
    as (Hnd & Hsub & Hlen).
  destruct (choice g a (10 `min` length a)) as [sel g'] eqn:Hsel.
  cbn [fst] in *.
  destruct (add_groups_ok sel acc) as (acc' & Hrun & Hext).
  { intros i Hi. apply Hsub in Hi. apply positions_lt in Hi.
    by rewrite labels_length in Hi. }
  exists sel, acc', g'. rewrite Hrun. cbn [mbind result_bind].
  split_and!; [done| |by destruct sel; [cbn [length] in Hlen; lia|]|done].
  unfold balanced. rewrite Hgroups. fold a. split_and!; [done|done|done|lia|].
  intros Hle. apply submseteq_length_Permutation; [|lia].
  by apply NoDup_submseteq.
Qed.

Lemma add_speakers_ok n : ∀ a acc g,
  a + n ≤ length (unique labels) →
  ∃ sels acc' g',
    for_each (add_speaker choice st y (counts labels)) (seq a n) (acc, g)
      = Ok (acc', g') ∧
    length sels = n ∧
    (∀ j sel, sels !! j = Some sel → balanced y (a + j) sel ∧ sel ≠ []) ∧
    extends st y acc acc' (concat sels).
Proof.
  induction n as [|n IH]; intros a acc g Han.
  - exists [], acc, g. split_and!; [done|done| |apply extends_refl].
    intros j sel Hj. by rewrite lookup_nil in Hj.
  - destruct (add_speaker_ok acc g a ltac:(lia))
      as (sel & acc1 & g1 & H1 & Hb1 & Hne1 & He1).
    destruct (IH (S a) acc1 g1 ltac:(lia))
      as (sels & acc2 & g2 & H2 & Hlen & Hb2 & He2).
    exists (sel :: sels), acc2, g2. split_and!.
    + cbn [seq for_each]. rewrite H1. cbn [mbind result_bind]. done.
    + simpl. by rewrite Hlen.
    + intros [|j] sel' Hj; simpl in Hj.
      * injection Hj as <-. by rewrite Nat.add_0_r.
      * replace (a + S j) with (S a + j) by lia. by apply Hb2.
    + simpl. by eapply extends_trans.
Qed.

(** The label of a group is the label of its sequences. *)
Lemma labels_lookup g r :
  h5_z st !! r = Some (Z.of_nat g) → labels !! g = h5_y st !! r.
Proof.
  intros Hr.
  assert (g < G) as Hg.
  { assert (Z.of_nat g ∈ h5_z st) as Hin by (by eapply list_elem_of_lookup_2).
    apply Hz in Hin. lia. }
  destruct (group_rows g Hg) as [Hne Hlt].
  unfold y_groups. rewrite (group_keys_range _ G Hz).
  rewrite !list_lookup_fmap, lookup_seq_lt by done. cbn [fmap option_fmap option_map].
  rewrite Nat.add_0_l.
  destruct (positions (fun v => v = Z.of_nat g) (h5_z st)) as [|r0 rows] eqn:E;
    [done|].
  assert (r0 ∈ r0 :: rows) as Hr0 by (by left).
  pose proof (Hlt r0 Hr0) as Hlt0.
  rewrite <- E in Hr0. apply elem_of_positions in Hr0 as (a & Ha & ->).
  destruct (lookup_lt_is_Some_2 (h5_y st) r0) as [l0 Hl0]; [by rewrite Hy, <- HX|].
  cbn [head mbind option_bind]. rewrite Hl0. cbn [default id].
  rewrite <- Hl0. by apply (Hhom r0 r (Z.of_nat g)).
Qed.

(** The classes are the labels of the store. *)
Lemma classes_labels l : l ∈ unique labels ↔ l ∈ h5_y st.
Proof.
  destruct (unique_spec labels) as (_ & _ & Hu). rewrite Hu. split.
  - intros Hl. apply list_elem_of_lookup in Hl as [g Hg].
    assert (g < G) as HgG
      by (rewrite <- labels_length; by eapply lookup_lt_Some).
    destruct (group_rows g HgG) as [Hne _].
    destruct (positions (fun v => v = Z.of_nat g) (h5_z st)) as [|r rows] eqn:E;
      [done|].
    assert (r ∈ r :: rows) as Hr by (by left).
    rewrite <- E in Hr. apply elem_of_positions in Hr as (a & Ha & ->).
    rewrite (labels_lookup g r Ha) in Hg. by eapply list_elem_of_lookup_2.
  - intros Hl. apply list_elem_of_lookup in Hl as [r Hr].
    destruct (lookup_lt_is_Some_2 (h5_z st) r) as [k Hk].
    { rewrite <- Hy. by eapply lookup_lt_Some. }
    assert (0 ≤ k < Z.of_nat G)%Z as Hk'
      by (by eapply Hz, list_elem_of_lookup_2).
    replace k with (Z.of_nat (Z.to_nat k)) in Hk by lia.
    apply (list_elem_of_lookup_2 _ (Z.to_nat k)).
    by rewrite (labels_lookup _ r Hk).
Qed.

(** X27.  For a store whose three datasets have the same length, whose
    group ids are 0, ..., G-1 and whose groups carry one label each, and
    with a [choice] that returns distinct elements of its argument, the
    sampler succeeds.  Its classes are the distinct labels of the store, in
    sorted order, and the class of a group is the index of the label that
    its sequences carry.  For every class it selects distinct groups of
    that class, ten of them at most, and all the groups of the class when
    there are ten or fewer; and for the selected groups, in order, it
    returns the stacked feature sequences of the group, the sequence in the
    middle of the group, the number of sequences of the group and the index
    of its class. *)
Theorem balanced_sample :
  ∃ r sels,
    _validate_init_default choice seed st = Ok r ∧
    (Sorted str_le (unique labels) ∧ NoDup (unique labels) ∧
     ∀ l, l ∈ unique labels ↔ l ∈ h5_y st) ∧
    length y = G ∧
    (∀ g c row, y !! g = Some c → h5_z st !! row = Some (Z.of_nat g) →
       h5_y st !! row = unique labels !! c) ∧
    length sels = length (unique labels) ∧
    (∀ s sel, sels !! s = Some sel → balanced y s sel) ∧
    s_XX r = concat (members st <$> concat sels) ∧
    s_n r = (fun g => length (members st g)) <$> concat sels ∧
    Forall2 (midpoint st) (concat sels) (s_X r) ∧
    Forall2 (fun g c => y !! g = Some c) (concat sels) (s_y r).
Proof.
  destruct (add_speakers_ok (length (unique labels)) 0
              {| XX := []; X := []; N := []; Y := [] |} seed ltac:(lia))
    as (sels & acc & g & Hrun & Hlen & Hbal & Hext).
  destruct Hext as (HXX & HN & (mids & HXm & Hmid) & (cls & HYc & Hcls)).
  cbn [XX X N Y app] in *.
  assert (XX acc ≠ []) as Hne.
  { assert (0 < length (unique labels)) as Hpos.
    { pose proof labels_length as Hl.
      destruct labels as [|l ls] eqn:E; [simpl in Hl; lia|].
      assert (l ∈ unique (l :: ls)) as Hin by (apply unique_spec; by left).
      destruct (unique (l :: ls)); [by apply elem_of_nil in Hin|simpl; lia]. }
    destruct (lookup_lt_is_Some_2 sels 0 ltac:(lia)) as [sel Hsel].
    destruct (Hbal 0 sel Hsel) as [_ Hsel_ne].
    rewrite HXX. destruct sels as [|sel' sels']; [done|].
    simpl in Hsel. injection Hsel as ->. simpl.
    destruct sel; [done|]. discriminate. }
  eexists _, sels. split_and!.
  - unfold _validate_init_default. rewrite decide_True by done.
    cbv zeta. rewrite Hrun. cbn [mbind result_bind].
    rewrite decide_False by done. reflexivity.
  - apply unique_spec.
  - apply unique_spec.
  - apply classes_labels.
  - apply y_length.
  - intros g0 c row Hc Hrow.
    rewrite (inverse_lookup g0 c Hc). symmetry. by apply labels_lookup.
  - done.
  - intros s sel Hs. by apply (Hbal s sel Hs).
  - cbn [s_XX]. by rewrite HXX.
  - cbn [s_n]. by rewrite HN.
  - cbn [s_X]. by rewrite HXm.
  - cbn [s_y]. by rewrite HYc.
Qed.

End loops.

Lemma first_k_contract : choice_contract first_k.
Proof.
  intros g a size Hsize Hnd. unfold first_k. cbn [fst]. split_and!.
  - eapply sublist_NoDup; [done|apply sublist_take].
  - apply subseteq_take.
  - rewrite length_take. lia.
Qed.

Lemma balanced_sample_witness :
  ∃ r sels,
    _validate_init_default first_k () toy_store = Ok r ∧
    (Sorted str_le (unique (y_groups (h5_y toy_store) (h5_z toy_store))) ∧
     NoDup (unique (y_groups (h5_y toy_store) (h5_z toy_store))) ∧
     ∀ l, l ∈ unique (y_groups (h5_y toy_store) (h5_z toy_store))
          ↔ l ∈ h5_y toy_store) ∧
    length (inverse (y_groups (h5_y toy_store) (h5_z toy_store))) = 4 ∧
    (∀ g c row,
       inverse (y_groups (h5_y toy_store) (h5_z toy_store)) !! g = Some c →
       h5_z toy_store !! row = Some (Z.of_nat g) →
       h5_y toy_store !! row
       = unique (y_groups (h5_y toy_store) (h5_z toy_store)) !! c) ∧
    length sels = length (unique (y_groups (h5_y toy_store) (h5_z toy_store))) ∧
    (∀ s sel, sels !! s = Some sel →
       balanced (inverse (y_groups (h5_y toy_store) (h5_z toy_store))) s sel) ∧
    s_XX r = concat (members toy_store <$> concat sels) ∧
    s_n r = (fun g => length (members toy_store g)) <$> concat sels ∧
    Forall2 (midpoint toy_store) (concat sels) (s_X r) ∧
    Forall2 (fun g c =>
               inverse (y_groups (h5_y toy_store) (h5_z toy_store)) !! g
               = Some c) (concat sels) (s_y r).
Proof.
  apply (balanced_sample first_k () toy_store 4).
  - lia.
  - reflexivity.
  - reflexivity.
  - intros k. split.
    + intros Hk. simpl in Hk.
      repeat (apply elem_of_cons in Hk as [->|Hk]); try lia.
      by apply elem_of_nil in Hk.
    + intros Hk.
      assert (k = 0 ∨ k = 1 ∨ k = 2 ∨ k = 3)%Z as Hcases by lia.
      destruct Hcases as [Hk0|[Hk0|[Hk0|Hk0]]]; subst k; simpl; set_solver.
  - apply first_k_contract.
  - intros r r' k Hr Hr'.
    do 10 (destruct r as [|r];
           [do 10 (destruct r' as [|r']; [simpl in *; congruence|]);
            by simpl in Hr'|]).
    by simpl in Hr.
Defined.

Example toy_sample :
  _validate_init_default first_k () toy_store
  = Ok {| s_XX := [20; 10; 11; 12; 30; 31; 40; 41; 42; 43];
          s_X := [20; 11; 31; 42]; s_n := [1; 3; 2; 4];
          s_y := [0; 1; 1; 2] |}.
Proof. reflexivity. Qed.

End SamplerFacts.

(** ** More on the sequence store *)

Module StoreExtras.
Import Store StoreFacts.
Section StoreExtras.
Context {feat attrs : Type} (fill : feat) (stats : list feat → attrs).

(** X1.  Whatever the number of sequences appended, and however many times
    the three datasets had to grow, the write loop of [data] completes and the
    datasets, all three of the current capacity, begin with exactly the
    appended feature sequences and labels, in write order. *)
Theorem write_loop_keeps_every_entry (files : list (file (feat:=feat))) x prev :
  concat files ≠ [] →
  ∃ s rows,
    write_loop fill files (init x prev) = Ok s ∧ X s = XOpen rows ∧
    i s = length (concat files) ∧ i s ≤ n_sequences s ∧
    length rows = n_sequences s ∧ length (Y s) = n_sequences s ∧
    length (Zs s) = n_sequences s ∧
    take (i s) rows = (concat files).*1 ∧
    take (i s) (Y s) = (concat files).*2.
Proof.
  intros Hne.
  destruct (write_loop_written fill files x prev Hne) as (s & Hs & Hw).
  destruct Hw as (Hi & Hle & _ & (rows & HX & Hrl & Hrt) & (HYl & HYt) &
                  (HZl & _) & _).
  exists s, rows. rewrite Hi. split_and!; try done.
Qed.

(** The first sequence of a subset rebinds [X] and [prev_y]. *)
Lemma append_init_forgets x prev x' prev' xy :
  append fill (init x prev) xy = append fill (init x' prev') xy.
Proof.
  destruct xy as [v y]. unfold append, first_sequence, init.
  cbn [i n_sequences X Y Zs z prev_y].
  by rewrite !(decide_True (P := 0 = 0)) by done.
Qed.

(** X3.  Nothing of a subset leaks into the next one: as soon as a subset
    yields one sequence, what [data] does with it (the store written, or the
    exception raised) is the same whatever [X] and [prev_y] were bound to by
    the subsets before. *)
Theorem build_forgets_previous_subset (files : list (file (feat:=feat))) x prev :
  concat files ≠ [] →
  build fill stats files x prev = build fill stats files XUnbound None.
Proof.
  intros Hne. unfold build. destruct files as [|f files]; [done|].
  rewrite !write_loop_concat.
  destruct (concat (f :: files)) as [|xy l]; [done|].
  cbn [for_each]. by rewrite (append_init_forgets x prev XUnbound None).
Qed.

(** X4.  [data] writes one store per subset that the protocol implements,
    in order, and skips the others: when every implemented subset yields at
    least two sequences, the run succeeds and each store holds all the
    sequences of its subset but the last one, with their labels and the
    group ids counted from 0 within the subset. *)
Theorem data_writes_every_subset
    (subsets : list (option (list (file (feat:=feat))))) x prev :
  Forall (fun o => ∀ files, o = Some files → 2 ≤ length (concat files)) subsets →
  ∃ stores,
    data_from fill stats subsets x prev = Ok stores ∧
    Forall2 (fun files st =>
               let n := length (concat files) - 1 in
               st_X st = take n (concat files).*1 ∧
               st_y st = take n (concat files).*2 ∧
               st_z st = take n (turn_ids (concat files).*2))
            (omap id subsets) stores.
Proof.
  intros Hall. revert x prev.
  induction Hall as [|o subsets Ho _ IH]; intros x prev.
  - exists []. split; [done|constructor].
  - destruct o as [files|]; cbn [data_from omap list_omap id].
    + destruct (build_ok fill stats files x prev _ eq_refl (Ho files eq_refl))
        as (s & st & Hb & HX & HY & HZ).
      destruct (IH XClosed (prev_y s)) as (stores & Hrest & Hstores).
      exists (st :: stores). rewrite Hb. cbn [mbind result_bind].
      rewrite Hrest. cbn [mbind result_bind]. split; [done|].
      constructor; [by split_and!|done].
    + apply IH.
Qed.

(** X2.  A subset gives a store exactly when it yields at least two
    sequences: with none or a single one, [data] stops with an exception. *)
Theorem build_needs_two_sequences (files : list (file (feat:=feat))) x prev :
  (∃ r, build fill stats files x prev = Ok r) ↔ 2 ≤ length (concat files).
Proof.
  split.
  - intros [r Hr].
    destruct (length (concat files)) as [|[|n]] eqn:HN; [| |lia].
    + apply nil_length_inv in HN. unfold build in Hr.
      destruct files as [|f files]; [done|].
      rewrite write_loop_nothing in Hr by done.
      unfold finalize, init in Hr. cbn [mbind result_bind X i] in Hr.
      by destruct x.
    + by rewrite build_single_sequence in Hr.
  - intros H2.
    destruct (build_ok fill stats files x prev _ eq_refl H2) as (s & st & Hb & _).
    by exists (s, st).
Qed.

End StoreExtras.

Lemma write_loop_keeps_every_entry_witness :
  ∃ s rows,
    write_loop (feat:=nat) 0 [replicate 1000 (7, "A"); replicate 101 (8, "B")]
      (init XUnbound None) = Ok s ∧ X s = XOpen rows ∧
    i s = 1101 ∧ i s ≤ n_sequences s ∧
    length rows = n_sequences s ∧ length (Y s) = n_sequences s ∧
    length (Zs s) = n_sequences s ∧
    take (i s) rows = replicate 1000 7 ++ replicate 101 8 ∧
    take (i s) (Y s) = replicate 1000 "A" ++ replicate 101 "B".
Proof.
  apply (write_loop_keeps_every_entry (feat:=nat) 0
           [replicate 1000 (7, "A"); replicate 101 (8, "B")] XUnbound None).
  by vm_compute.
Defined.

(** Crossing the capacities 1000 and 1100: the datasets have grown twice. *)
Example capacity_after_1101_sequences :
  ∃ s, write_loop (feat:=nat) 0
         [replicate 1000 (7, "A"); replicate 101 (8, "B")]
         (init XUnbound None) = Ok s ∧
       n_sequences s = 1210.
Proof. eexists. split; [by vm_compute|reflexivity]. Qed.

Lemma build_forgets_previous_subset_witness :
  build (feat:=nat) 0 length [[(7, "A"); (8, "A")]; [(9, "B")]]
    XClosed (Some "Z")
  = build (feat:=nat) 0 length [[(7, "A"); (8, "A")]; [(9, "B")]]
      XUnbound None.
Proof.
  apply (build_forgets_previous_subset (feat:=nat) 0 length). by vm_compute.
Defined.

Lemma data_writes_every_subset_witness :
  ∃ stores,
    data_from (feat:=nat) 0 length
      [Some [[(7, "A"); (8, "A")]; [(9, "B")]]; None;
       Some [[(1, "C"); (2, "D"); (3, "D")]]] XUnbound None = Ok stores ∧
    Forall2 (fun files st =>
               let n := length (concat files) - 1 in
               st_X st = take n (concat files).*1 ∧
               st_y st = take n (concat files).*2 ∧
               st_z st = take n (turn_ids (concat files).*2))
            [[[(7, "A"); (8, "A")]; [(9, "B")]];
             [[(1, "C"); (2, "D"); (3, "D")]]] stores.
Proof.
  apply (data_writes_every_subset (feat:=nat) 0 length
           [Some [[(7, "A"); (8, "A")]; [(9, "B")]]; None;
            Some [[(1, "C"); (2, "D"); (3, "D")]]] XUnbound None).
  repeat constructor; intros files [= <-]; simpl; lia.
Defined.

End StoreExtras.

(** ** More on the validation log *)

Module EpochSelectorExtras.
Import EpochSelector EpochSelectorFacts.

(** **** [np.argmin] *)

Lemma argmin_from_first_min vs : ∀ pre best_i best,
  pre !! best_i = Some best →
  (∀ j w, pre !! j = Some w → (best <= w)%Q) →
  (∀ j w, j < best_i → pre !! j = Some w → (best < w)%Q) →
  ∃ v, (pre ++ vs) !! argmin_from best_i best (length pre) vs = Some v ∧
       (∀ j w, (pre ++ vs) !! j = Some w → (v <= w)%Q) ∧
       (∀ j w, j < argmin_from best_i best (length pre) vs →
               (pre ++ vs) !! j = Some w → (v < w)%Q).
Proof.
  induction vs as [|x vs IH]; intros pre best_i best Hb Hall Hbefore; simpl.
  - rewrite app_nil_r. by exists best.
  - replace (pre ++ x :: vs) with ((pre ++ [x]) ++ vs)
      by (by rewrite <- app_assoc).
    replace (S (length pre)) with (length (pre ++ [x]))
      by (rewrite length_app; simpl; lia).
    destruct (Qltb x best) eqn:Hlt.
    + apply DomainClassificationFacts.Qltb_true in Hlt. apply IH.
      * by rewrite lookup_app_r, Nat.sub_diag.
      * intros j w Hj. apply lookup_app_Some in Hj as [Hj|[_ Hj]].
        -- apply Qlt_le_weak. eapply Qlt_le_trans; [done|by eapply Hall].
        -- apply list_lookup_singleton_Some in Hj as [_ <-]. apply Qle_refl.
      * intros j w Hj Hw. rewrite lookup_app_l in Hw by done.
        eapply Qlt_le_trans; [done|by eapply Hall].
    + apply DomainClassificationFacts.Qltb_false in Hlt. apply IH.
      * rewrite lookup_app_l; [done|]. by eapply lookup_lt_Some.
      * intros j w Hj. apply lookup_app_Some in Hj as [Hj|[_ Hj]].
        -- by eapply Hall.
        -- by apply list_lookup_singleton_Some in Hj as [_ <-].
      * intros j w Hj Hw. apply (Hbefore j w Hj).
        rewrite lookup_app_l in Hw; [done|].
        apply lookup_lt_Some in Hb. lia.
Qed.

Lemma argmin_first_min vs :
  vs ≠ [] →
  ∃ a v, argmin vs = Ok a ∧ vs !! a = Some v ∧
    (∀ j w, vs !! j = Some w → (v <= w)%Q) ∧
    (∀ j w, j < a → vs !! j = Some w → (v < w)%Q).
Proof.
  destruct vs as [|v0 vs]; [done|]. intros _.
  destruct (argmin_from_first_min vs [v0] 0 v0) as (v & Hv & Hall & Hbefore);
    [done| |intros; lia|].
  { intros j w Hj. apply list_lookup_singleton_Some in Hj as [_ <-].
    apply Qle_refl. }
  by exists (argmin_from 0 v0 1 vs), v.
Qed.

(** **** The keys of the [SortedDict] *)

Lemma sd_setitem_keys k v d k' :
  k' ∈ (sd_setitem k v d).*1 ↔ k' = k ∨ k' ∈ d.*1.
Proof.
  induction d as [|[k0 v0] d IH]; simpl.
  - set_solver.
  - destruct (k <? k0)%Z eqn:Hlt; [set_solver|].
    destruct (k =? k0)%Z eqn:Heq.
    + apply Z.eqb_eq in Heq. subst k0. set_solver.
    + rewrite fmap_cons. cbn [fst]. rewrite !elem_of_cons, IH. tauto.
Qed.

Lemma sd_setitem_sorted k v d :
  StronglySorted Z.lt d.*1 → StronglySorted Z.lt (sd_setitem k v d).*1.
Proof.
  induction d as [|[k0 v0] d IH]; simpl; intros Hs.
  - repeat constructor.
  - inversion Hs as [|? ? Hs' Hall]; subst.
    destruct (k <? k0)%Z eqn:Hlt.
    + apply Z.ltb_lt in Hlt. constructor; [done|].
      constructor; [done|].
      eapply Forall_impl; [exact Hall|]. intros; simpl in *; lia.
    + destruct (k =? k0)%Z eqn:Heq.
      * apply Z.eqb_eq in Heq. subst k0. by constructor.
      * apply Z.ltb_ge in Hlt. apply Z.eqb_neq in Heq.
        rewrite fmap_cons. cbn [fst]. constructor; [by apply IH|].
        apply Forall_forall. intros k' Hk'.
        apply sd_setitem_keys in Hk' as [->|Hk']; [lia|].
        by eapply Forall_forall in Hall.
Qed.

Lemma SortedDict_keys (log : list record) :
  StronglySorted Z.lt (SortedDict log).*1 ∧
  ∀ k, k ∈ (SortedDict log).*1 ↔ k ∈ log.*1.
Proof.
  unfold SortedDict. induction log as [|[k v] log [IHs IHk]] using rev_ind.
  - split; [constructor|done].
  - rewrite foldl_snoc. cbn [fst snd]. split.
    + by apply sd_setitem_sorted.
    + intros k'. rewrite sd_setitem_keys, IHk, fmap_app, elem_of_app.
      set_solver.
Qed.

Lemma sorted_lookup_lt (l : list Z) i j a b :
  StronglySorted Z.lt l → l !! i = Some a → l !! j = Some b → i < j →
  (a < b)%Z.
Proof.
  intros Hs. revert i j. induction Hs as [|x l Hs IH Hall]; intros i j; [done|].
  destruct i as [|i], j as [|j]; simpl; try lia.
  - intros [= ->] Hb _. eapply Forall_forall in Hall; [done|].
    by eapply list_elem_of_lookup_2.
  - intros Ha Hb Hlt. apply (IH i j); [done..|lia].
Qed.

Lemma sd_get_lookup d j k w :
  StronglySorted Z.lt d.*1 → d !! j = Some (k, w) → sd_get k d = Some w.
Proof.
  revert j. induction d as [|[k0 v0] d IH]; intros j Hs Hj; [done|].
  simpl in Hs. inversion Hs as [|? ? Hs' Hall]; subst.
  destruct j as [|j]; simpl in *.
  - injection Hj as -> ->. by rewrite Z.eqb_refl.
  - assert (k0 < k)%Z as Hlt.
    { eapply Forall_forall in Hall; [done|].
      apply list_elem_of_fmap. exists (k, w). split; [done|].
      by eapply list_elem_of_lookup_2. }
    replace (k =? k0)%Z with false by (symmetry; apply Z.eqb_neq; lia).
    by eapply IH.
Qed.

Lemma sd_get_Some d k w :
  sd_get k d = Some w → ∃ j, d !! j = Some (k, w).
Proof.
  induction d as [|[k0 v0] d IH]; simpl; [done|].
  destruct (k =? k0)%Z eqn:Heq.
  - apply Z.eqb_eq in Heq. intros [= ->]. subst. by exists 0.
  - intros H. destruct (IH H) as [j Hj]. by exists (S j).
Qed.

Lemma last_of_epoch (log : list record) k w :
  last (filter (fun r => r.1 = k) log) = Some (k, w) ↔
  sd_get k (SortedDict log) = Some w.
Proof.
  rewrite SortedDict_keeps_last.
  destruct (last (filter (fun r => r.1 = k) log)) as [[k' w']|] eqn:Hl;
    simpl; [|done].
  assert (k' = k) as ->.
  { apply last_Some_elem_of in Hl. by apply list_elem_of_filter in Hl as [? _]. }
  split; by intros [= ->].
Qed.

(** On a log of two lines or more, the selector of [apply] returns the key
    at the position of the first smallest value of the dictionary. *)
Lemma best_epoch_at_argmin (log : list record) :
  2 ≤ length log →
  ∃ a e v, best_epoch log = Ok e ∧ SortedDict log !! a = Some (e, v) ∧
    (∀ j w, (SortedDict log).*2 !! j = Some w → (v <= w)%Q) ∧
    (∀ j w, j < a → (SortedDict log).*2 !! j = Some w → (v < w)%Q).
Proof.
  intros Hlen. destruct (SortedDict_keys log) as [_ Hk].
  assert ((SortedDict log).*2 ≠ []) as Hne.
  { intros E. apply fmap_nil_inv in E.
    destruct log as [|[k0 v0] log]; [simpl in Hlen; lia|].
    specialize (Hk k0). rewrite E in Hk.
    apply (elem_of_nil k0), Hk. simpl. by left. }
  destruct (argmin_first_min _ Hne) as (a & v & Ha & Hv & Hall & Hbefore).
  apply list_lookup_fmap_Some in Hv as ([e v'] & Hveq & Hav).
  simpl in Hveq. subst v'.
  exists a, e, v. split_and!; [|done..].
  unfold best_epoch.
  destruct log as [|r1 [|r2 log]]; [simpl in Hlen; lia..|].
  rewrite Ha. cbn [mbind result_bind].
  replace (_ !! a) with (Some e); [done|].
  symmetry. apply list_lookup_fmap_Some. by exists (e, v).
Qed.

(** X5.  On a validation log of at least two lines, [apply] selects an
    epoch of the log; the value this epoch has on its last line is the
    smallest of the values that the epochs have on their last lines, and
    among the epochs that reach it the one selected has the lowest number. *)
Theorem best_epoch_minimises (log : list record) :
  2 ≤ length log →
  ∃ e v, best_epoch log = Ok e ∧
    last (filter (fun r => r.1 = e) log) = Some (e, v) ∧
    ∀ k w, last (filter (fun r => r.1 = k) log) = Some (k, w) →
      (v <= w)%Q ∧ ((w <= v)%Q → (e ≤ k)%Z).
Proof.
  intros Hlen. destruct (SortedDict_keys log) as [Hs _].
  destruct (best_epoch_at_argmin log Hlen)
    as (a & e & v & He & Hav & Hall & Hbefore).
  exists e, v. split_and!; [done| |].
  - apply last_of_epoch. by eapply sd_get_lookup.
  - intros k w Hkw. apply last_of_epoch, sd_get_Some in Hkw as [j Hj].
    assert ((SortedDict log).*2 !! j = Some w) as Hjw
      by (apply list_lookup_fmap_Some; by exists (k, w)).
    split; [by eapply Hall|].
    intros Hle. destruct (decide (j < a)) as [Hlt|Hge].
    + exfalso. eapply Qlt_not_le; [by eapply (Hbefore j w)|done].
    + destruct (decide (j = a)) as [->|Hne'].
      { assert (Some (e, v) = Some (k, w)) as [= -> ->]
          by (etrans; [symmetry; exact Hav|exact Hj]).
        lia. }
      apply Z.lt_le_incl.
      apply (sorted_lookup_lt (SortedDict log).*1 a j); [done| | |lia].
      * apply list_lookup_fmap_Some. by exists (e, v).
      * apply list_lookup_fmap_Some. by exists (k, w).
Qed.

(** X6.  The selection of the best epoch succeeds exactly on the logs of
    two lines or more: the single row that [np.loadtxt] returns for a
    one-line log is not a sequence of pairs, and an empty log has no
    smallest value. *)
Theorem best_epoch_needs_two_lines (log : list record) :
  (∃ e, best_epoch log = Ok e) ↔ 2 ≤ length log.
Proof.
  split.
  - intros [e He]. destruct log as [|r1 [|r2 log]]; [done..|simpl; lia].
  - intros Hlen. destruct (best_epoch_at_argmin log Hlen) as (_ & e & _ & He & _).
    by exists e.
Qed.

(** **** The [compare] mode *)

Lemma drop_duplicated_spec (log : list record) : ∀ seen,
  NoDup (drop_duplicated seen log).*1 ∧
  (∀ k, k ∈ (drop_duplicated seen log).*1 ↔ k ∈ log.*1 ∧ k ∉ seen) ∧
  sublist (drop_duplicated seen log) log ∧
  ∀ k, k ∉ seen →
    head (filter (fun r => r.1 = k) (drop_duplicated seen log)) =
    head (filter (fun r => r.1 = k) log).
Proof.
  induction log as [|[k0 v0] log IH]; intros seen.
  - simpl. split_and!; [constructor|set_solver|done|done].
  - cbn [drop_duplicated]. destruct (decide (k0 ∈ seen)) as [Hin|Hnin].
    + destruct (IH seen) as (Hnd & Hk & Hsub & Hhead). split_and!.
      * done.
      * intros k. rewrite Hk, fmap_cons, elem_of_cons. cbn [fst].
        split; [tauto|]. intros [[->|?] ?]; done.
      * by apply sublist_cons.
      * intros k Hkn. rewrite (filter_cons_False _ (k0, v0)); [by apply Hhead|].
        simpl. by intros ->.
    + destruct (IH (k0 :: seen)) as (Hnd & Hk & Hsub & Hhead). split_and!.
      * rewrite fmap_cons. cbn [fst]. apply NoDup_cons. split; [|done].
        rewrite Hk. set_solver.
      * intros k. rewrite !fmap_cons, !elem_of_cons, Hk. cbn [fst].
        rewrite not_elem_of_cons.
        destruct (decide (k = k0)) as [->|Hne]; tauto.
      * by apply sublist_skip.
      * intros k Hkn. destruct (decide (k = k0)) as [->|Hne].
        -- by rewrite !filter_cons_True by done.
        -- rewrite !(filter_cons_False _ (k0, v0)) by (simpl; congruence).
           apply Hhead. by apply not_elem_of_cons.
Qed.

(** X7.  The [compare] mode reads the log the other way round: it keeps the
    lines of the log in their order, one per epoch, and the line it keeps
    for an epoch is the first one of the log that carries it. *)
Theorem keep_first_first_occurrence (log : list record) :
  sublist (keep_first log) log ∧ NoDup (keep_first log).*1 ∧
  ∀ k, head (filter (fun r => r.1 = k) (keep_first log)) =
       head (filter (fun r => r.1 = k) log).
Proof.
  destruct (drop_duplicated_spec log []) as (Hnd & _ & Hsub & Hhead).
  split_and!; [done..|]. intros k. apply Hhead. apply not_elem_of_nil.
Qed.

Lemma sd_setitem_last k v d :
  Forall (fun k' => (k' < k)%Z) d.*1 → sd_setitem k v d = d ++ [(k, v)].
Proof.
  induction d as [|[k0 v0] d IH]; [done|].
  rewrite fmap_cons, Forall_cons. cbn [fst]. intros [Hlt Hall]. simpl.
  replace (k <? k0)%Z with false by (symmetry; apply Z.ltb_ge; lia).
  replace (k =? k0)%Z with false by (symmetry; apply Z.eqb_neq; lia).
  by rewrite IH.
Qed.

Lemma drop_duplicated_increasing (log : list record) : ∀ seen,
  StronglySorted Z.lt log.*1 →
  (∀ k, k ∈ seen → Forall (Z.lt k) log.*1) →
  drop_duplicated seen log = log.
Proof.
  induction log as [|[k0 v0] log IH]; intros seen Hs Hseen; [done|].
  rewrite fmap_cons in Hs. cbn [fst] in Hs.
  inversion Hs as [|? ? Hs' Hall]; subst.
  cbn [drop_duplicated]. rewrite decide_False.
  - f_equal. apply IH; [done|].
    intros k [->|Hk]%elem_of_cons; [done|].
    specialize (Hseen k Hk). rewrite fmap_cons in Hseen.
    by apply Forall_cons in Hseen as [_ ?].
  - intros Hin. specialize (Hseen k0 Hin). rewrite fmap_cons in Hseen.
    apply Forall_cons in Hseen as [Hlt _]. simpl in Hlt. lia.
Qed.

(** X8.  On a log whose epochs increase from line to line, the two readers
    of [validate.txt] see the same thing: the dictionary of [apply] and the
    table of the [compare] mode are both the log itself. *)
Theorem readers_agree_on_increasing_log (log : list record) :
  StronglySorted Z.lt log.*1 →
  SortedDict log = log ∧ keep_first log = log.
Proof.
  intros Hs. split.
  - unfold SortedDict. induction log as [|[k v] log IH] using rev_ind; [done|].
    rewrite foldl_snoc. cbn [fst snd]. rewrite fmap_app in Hs.
    rewrite IH by (by eapply StronglySorted_app_1_l).
    apply sd_setitem_last, Forall_forall. intros k' Hk'.
    apply (StronglySorted_app_1_elem_of Z.lt _ _ k' k Hs Hk'). simpl. by left.
  - apply drop_duplicated_increasing; [done|]. by intros k ?%elem_of_nil.
Qed.

Lemma best_epoch_minimises_witness :
  ∃ e v, best_epoch example_log = Ok e ∧
    last (filter (fun r => r.1 = e) example_log) = Some (e, v) ∧
    ∀ k w, last (filter (fun r => r.1 = k) example_log) = Some (k, w) →
      (v <= w)%Q ∧ ((w <= v)%Q → (e ≤ k)%Z).
Proof. apply (best_epoch_minimises example_log). simpl. lia. Defined.

Lemma readers_agree_on_increasing_log_witness :
  SortedDict [(1, 3 # 10); (2, 1 # 10); (4, 2 # 10)]%Z%Q
    = [(1, 3 # 10); (2, 1 # 10); (4, 2 # 10)]%Z%Q ∧
  keep_first [(1, 3 # 10); (2, 1 # 10); (4, 2 # 10)]%Z%Q
    = [(1, 3 # 10); (2, 1 # 10); (4, 2 # 10)]%Z%Q.
Proof.
  apply (readers_agree_on_increasing_log
           [(1, 3 # 10); (2, 1 # 10); (4, 2 # 10)]%Z%Q).
  repeat constructor.
Defined.

End EpochSelectorExtras.

(** ** The sums by group of the internal embeddings *)

Module GroupSumsFacts.
Import Batches BatchesFacts GroupSums.

Lemma slices_of_concat {A} (gs : list (list A)) : ∀ pre,
  (fun ij => slice (pre ++ concat gs) ij.1 ij.2)
    <$> pairwise (length pre :: cumsum_from (length pre) (length <$> gs))
  = gs.
Proof.
  induction gs as [|g gs IH]; intros pre; [done|].
  cbn [fmap list_fmap cumsum_from concat].
  change (pairwise (length pre :: (length pre + length g) :: ?l))
    with ((length pre, length pre + length g)
            :: pairwise ((length pre + length g) :: l)).
  rewrite fmap_cons. cbn [fst snd]. f_equal.
  - unfold slice. rewrite drop_app_length.
    replace (length pre + length g - length pre) with (length g) by lia.
    by rewrite take_app_length.
  - specialize (IH (pre ++ g)). rewrite length_app, <- app_assoc in IH.
    exact IH.
Qed.

Lemma group_slices_stacked {A} (gs : list (list A)) :
  group_slices (concat gs) (length <$> gs) = gs.
Proof. apply (slices_of_concat gs []). Qed.

(** X9.  The boundaries [0, n1, n1 + n2, ...] cut the stacked rows of
    groups of sizes [n1, n2, ...] back into these groups: slicing between
    consecutive boundaries undoes the stacking. *)
Theorem group_slices_concat {A} (gs : list (list A)) :
  group_slices (concat gs) (length <$> gs) = gs.
Proof. apply (slices_of_concat gs []). Qed.

Section GroupSumsFacts.
Context {seq_t emb vec : Type}.
Context (embed : list seq_t → list emb) (sum_group : list emb → vec).

(** Inference works sequence by sequence: one output row per input row, and
    the rows of a batch made of two parts are those of the parts. *)
Hypothesis embed_app : ∀ l1 l2, embed (l1 ++ l2) = embed l1 ++ embed l2.
Hypothesis embed_length : ∀ l, length (embed l) = length l.

Lemma embed_concat (gs : list (list seq_t)) :
  embed (concat gs) = concat (embed <$> gs).
Proof.
  induction gs as [|g gs IH]; simpl; [by apply embed_nil|].
  by rewrite embed_app, IH.
Qed.

(** X10.  When the number of validation sequences is not a multiple of
    2048, the vectors compared for the metric [EER.Xseq] are what they are
    meant to be: one vector per group, the sum of the internal embeddings of
    the sequences of that group, in the order of the groups. *)
Theorem xseq_sums_each_group (gs : list (list seq_t)) :
  gs ≠ [] → length (concat gs) `mod` batch_size ≠ 0 →
  xseq_embeddings embed sum_group (concat gs) (length <$> gs)
  = Ok ((fun g => sum_group (embed g)) <$> gs).
Proof.
  intros Hne Hmod. unfold xseq_embeddings, internal_embeddings.
  rewrite (embed_batches_in_order embed embed_app)
    by (done || (unfold batch_size; lia)).
  cbn [mbind result_bind]. unfold group_sums.
  rewrite embed_concat.
  replace (length <$> gs) with (length <$> (embed <$> gs)).
  - rewrite group_slices_stacked. rewrite <- list_fmap_compose.
    by destruct gs.
  - rewrite <- list_fmap_compose. apply list_fmap_ext.
    intros ? g _. apply embed_length.
Qed.

End GroupSumsFacts.
End GroupSumsFacts.

Lemma xseq_sums_each_group_witness :
  GroupSums.xseq_embeddings (fun l : list nat => l) (foldr Nat.add 0)
    (concat [[1; 2]; [3]]) (length <$> [[1; 2]; [3]])
  = Ok ((fun g => foldr Nat.add 0 g) <$> [[1; 2]; [3]]).
Proof.
  apply (GroupSumsFacts.xseq_sums_each_group (fun l : list nat => l)
           (foldr Nat.add 0) (fun _ _ => eq_refl) (fun _ => eq_refl)
           [[1; 2]; [3]]); [done|by vm_compute].
Defined.

(** ** The shape of the validation sample *)

Module SampleShape.
Import Sampler GroupSums.
Section SampleShape.
Context {feat rng : Type}.
Context (choice : rng → list nat → nat → list nat * rng) (seed : rng).
Context (st : h5 (feat:=feat)).

(** What the four lists of [_validate_init_default] satisfy all along. *)
#[local] Abbreviation aligned acc :=
  (N acc = length <$> XX acc ∧ length (X acc) = length (XX acc) ∧
   length (Y acc) = length (XX acc) ∧ Forall (fun x => x ≠ []) (XX acc)).

Lemma add_group_aligned y acc g acc' :
  add_group st y acc g = Ok acc' → aligned acc → aligned acc'.
Proof.
  unfold add_group. intros Hrun (HN & HX & HY & Hne).
  destruct (get_group _ _) as [selector|]; [|done]. simpl in Hrun.
  destruct (getrows _ _) as [x|]; [|done]. simpl in Hrun.
  destruct (x !! _) as [mid|] eqn:Hmid; [|done]. simpl in Hrun.
  destruct (y !! g) as [yi|]; [|done]. simpl in Hrun.
  injection Hrun as <-. cbn [XX X N Y].
  rewrite fmap_app, !length_app, HN, HX, HY. split_and!; try done.
  apply Forall_app. split; [done|]. constructor; [|done].
  intros ->. done.
Qed.

Lemma add_groups_aligned y (I_ : list nat) : ∀ acc acc',
  for_each (add_group st y) I_ acc = Ok acc' → aligned acc → aligned acc'.
Proof.
  induction I_ as [|g I_ IH]; intros acc acc'; simpl.
  - by intros [= <-].
  - destruct (add_group st y acc g) as [acc1|] eqn:H1; [|done]. simpl.
    intros Hrun Hacc. eapply IH; [done|]. by eapply add_group_aligned.
Qed.

Lemma add_speaker_aligned y cnt acc g speaker acc' g' :
  add_speaker choice st y cnt (acc, g) speaker = Ok (acc', g') →
  aligned acc → aligned acc'.
Proof.
  unfold add_speaker. destruct (cnt !! speaker) as [c|]; [|done]. simpl.
  case_decide; [|done]. destruct (choice _ _ _) as [I_ g1].
  destruct (for_each _ I_ acc) as [acc1|] eqn:H1; [|done]. simpl.
  intros [= <- <-]. by eapply add_groups_aligned.
Qed.

Lemma add_speakers_aligned y cnt (speakers : list nat) : ∀ s s',
  for_each (add_speaker choice st y cnt) speakers s = Ok s' →
  aligned s.1 → aligned s'.1.
Proof.
  induction speakers as [|k speakers IH]; intros s s'; simpl.
  - by intros [= <-].
  - destruct (add_speaker choice st y cnt s k) as [s1|] eqn:H1; [|done].
    simpl. intros Hrun Hs. eapply IH; [done|].
    destruct s as [acc g], s1 as [acc1 g1]. by eapply add_speaker_aligned.
Qed.

(** X11.  Whatever the store holds and whichever groups the random draw
    returns, a sample that [_validate_init_default] returns is made of
    non-empty groups [gs], at least one: ['XX'] is these groups stacked,
    ['n'] their sizes, ['X'] and ['y'] have one entry per group; so the
    boundaries that [_validate_epoch_default] derives from ['n'] cut ['XX']
    back into the groups. *)
Theorem sample_fits_group_slices (smp : sample (feat:=feat)) :
  _validate_init_default choice seed st = Ok smp →
  ∃ gs, gs ≠ [] ∧ Forall (fun x => x ≠ []) gs ∧
    s_XX smp = concat gs ∧ s_n smp = length <$> gs ∧
    length (s_X smp) = length gs ∧ length (s_y smp) = length gs ∧
    group_slices (s_XX smp) (s_n smp) = gs.
Proof.
  unfold _validate_init_default. case_decide; [|done].
  destruct (for_each _ _ _) as [[acc g]|] eqn:Hrun; [|done]. simpl.
  case_decide as Hne; [done|]. intros [= <-]. cbn [s_XX s_X s_n s_y].
  apply add_speakers_aligned in Hrun as (HN & HX & HY & Hall).
  - cbn [fst] in *. exists (XX acc). rewrite HN.
    split_and!; try done. apply GroupSumsFacts.group_slices_stacked.
  - by split_and!.
Qed.

End SampleShape.

Lemma sample_fits_group_slices_witness :
  ∃ gs, gs ≠ [] ∧ Forall (fun x => x ≠ []) gs ∧
    [20; 10; 11; 12; 30; 31; 40; 41; 42; 43] = concat gs ∧
    [1; 3; 2; 4] = length <$> gs ∧
    4 = length gs ∧ 4 = length gs ∧
    group_slices [20; 10; 11; 12; 30; 31; 40; 41; 42; 43] [1; 3; 2; 4] = gs.
Proof.
  apply (sample_fits_group_slices first_k () toy_store
           {| s_XX := [20; 10; 11; 12; 30; 31; 40; 41; 42; 43];
              s_X := [20; 11; 31; 42]; s_n := [1; 3; 2; 4];
              s_y := [0; 1; 1; 2] |}).
  reflexivity.
Defined.

End SampleShape.

(** ** More on the verification track *)

Module VerificationExtras.
Import Verification VerificationFacts.
Section VerificationExtras.
Context {file span vec dist : Type}.
Context (uid : file → string) (khash : string → span → Z).
Context (embed_mean : file → span → vec) (cdist : vec → vec → dist).

#[local] Abbreviation caches := (caches (vec:=vec) (dist:=dist)).
#[local] Abbreviation no_caches := (no_caches (vec:=vec) (dist:=dist)).
#[local] Abbreviation enrolment := (enrolment (file:=file) (span:=span)).
#[local] Abbreviation trial := (trial (file:=file) (span:=span)).
#[local] Abbreviation enrol := (enrol uid khash embed_mean).
#[local] Abbreviation verify := (verify uid khash embed_mean cdist).
#[local] Abbreviation validate := (validate uid khash embed_mean cdist).
Implicit Types (st : caches) (e : enrolment) (t : trial).

(** Every model id that the cache of hashes names has a vector. *)
#[local] Abbreviation closed st :=
  (∀ h m, enrolment_khashes st !! h = Some m →
          is_Some (enrolment_models st !! m)).

Lemma last_filter_is_Some {A} (P : A → Prop) `{∀ x, Decision (P x)} (l : list A) :
  is_Some (last (filter P l)) ↔ ∃ x, x ∈ l ∧ P x.
Proof.
  rewrite last_is_Some. split.
  - intros Hne. destruct (filter P l) as [|x l'] eqn:E; [done|].
    assert (x ∈ filter P l) as Hin by (rewrite E; by left).
    apply list_elem_of_filter in Hin as [? ?]. by exists x.
  - intros (x & Hx & HP) E.
    assert (x ∈ filter P l) as Hin by (by apply list_elem_of_filter).
    rewrite E in Hin. by apply elem_of_nil in Hin.
Qed.

Lemma enrolled_models (es : list enrolment) m :
  is_Some (enrolment_models (foldl enrol no_caches es) !! m) ↔
  m ∈ e_model_id <$> es.
Proof.
  rewrite enrol_all_models, list_elem_of_fmap.
  destruct (last (filter (fun e => e_model_id e = m) es)) as [e|] eqn:Hl.
  - split; [intros _|by eexists].
    apply last_Some_elem_of, list_elem_of_filter in Hl as [Hm He].
    by exists e.
  - split.
    + simpl. rewrite lookup_empty. by intros [? ?].
    + intros (e & -> & He).
      assert (is_Some (last (filter (fun e' => e_model_id e' = e_model_id e) es)))
        as [? Hs] by (apply last_filter_is_Some; by exists e).
      congruence.
Qed.

Lemma enrolled_closed (es : list enrolment) : closed (foldl enrol no_caches es).
Proof.
  intros h m. rewrite enrol_all_khashes.
  destruct (last (filter _ es)) as [e|] eqn:Hl.
  - intros [= <-]. apply enrolled_models.
    apply last_Some_elem_of, list_elem_of_filter in Hl as [_ He].
    apply list_elem_of_fmap. by exists e.
  - simpl. by rewrite lookup_empty.
Qed.

(** One trial: it fails only on the model id it is compared with. *)
Lemma verify_step st t :
  closed st →
  match enrolment_models st !! t_model_id t with
  | Some target =>
      ∃ st' v src, verify st t = Ok st' ∧
        enrolment_models st' = enrolment_models st ∧
        enrolment_khashes st' = enrolment_khashes st ∧
        y_true st' = y_true st ++ [reference t] ∧
        y_pred st' = y_pred st ++ [cdist target v] ∧
        log st' = log st ++ [(v, src)]
  | None => verify st t = Raise "KeyError"
  end.
Proof.
  intros Hcl. unfold Verification.verify, trial_model, getitem.
  destruct (enrolment_khashes st !! _) as [m|] eqn:HK.
  - destruct (Hcl _ _ HK) as [v ->]. simpl.
    destruct (enrolment_models st !! t_model_id t) as [target|]; simpl; [|done].
    by eexists _, v, _.
  - destruct (trial_models st !! _) as [v|]; simpl;
      (destruct (enrolment_models st !! t_model_id t) as [target|]; simpl;
       [|done]); by eexists _, _, _.
Qed.

Lemma verify_run (ts : list trial) : ∀ st,
  closed st →
  if decide (Forall (fun t => is_Some (enrolment_models st !! t_model_id t)) ts)
  then ∃ st' preds more,
         for_each verify ts st = Ok st' ∧
         y_true st' = y_true st ++ (reference <$> ts) ∧
         y_pred st' = y_pred st ++ preds ∧ log st' = log st ++ more ∧
         length preds = length ts ∧
         ∀ k t, ts !! k = Some t →
           ∃ target v src,
             enrolment_models st !! t_model_id t = Some target ∧
             more !! k = Some (v, src) ∧
             preds !! k = Some (cdist target v)
  else for_each verify ts st = Raise "KeyError".
Proof.
  induction ts as [|t ts IH]; intros st Hcl.
  - rewrite decide_True by constructor.
    exists st, [], []. rewrite !app_nil_r. by split_and!.
  - pose proof (verify_step st t Hcl) as Hstep. cbn [for_each].
    destruct (enrolment_models st !! t_model_id t) as [target|] eqn:Ht.
    + destruct Hstep as (s1 & v & src & -> & HM & HK & Hyt & Hyp & Hlog).
      cbn [mbind result_bind].
      assert (closed s1) as Hcl1 by (by rewrite HM, HK).
      specialize (IH s1 Hcl1). rewrite HM in IH.
      destruct (decide (Forall _ ts)) as [Hall|Hnall].
      * rewrite decide_True by (constructor; [by rewrite Ht|done]).
        destruct IH as (st' & preds & more & Hrun & Hyt' & Hyp' & Hlog' & Hlen & Hk).
        exists st', (cdist target v :: preds), ((v, src) :: more).
        rewrite Hrun, Hyt', Hyp', Hlog', Hyt, Hyp, Hlog, <- !app_assoc.
        split_and!; try done; [simpl; by rewrite Hlen|].
        intros [|k] t' Hk'; simpl in Hk'.
        -- injection Hk' as <-. by exists target, v, src.
        -- by apply Hk.
      * rewrite decide_False; [done|].
        intros Hall. by apply Forall_cons in Hall as [_ ?].
    + rewrite Hstep. rewrite decide_False; [done|].
      intros Hall. apply Forall_cons in Hall as [[? Hs] _]. congruence.
Qed.

(** X12.  A validation run on a verification protocol completes exactly
    when every trial is compared with a model id that some enrolment
    registered; when it does not complete, it stops on [KeyError]. *)
Theorem validate_needs_enrolled_models (es : list enrolment) (ts : list trial) :
  ((∃ st, validate es ts = Ok st) ↔
   Forall (fun t => t_model_id t ∈ e_model_id <$> es) ts) ∧
  (∀ err, validate es ts = Raise err → err = "KeyError").
Proof.
  unfold Verification.validate.
  pose proof (verify_run ts _ (enrolled_closed es)) as Hrun.
  assert (Forall (fun t => is_Some
                    (enrolment_models (foldl enrol no_caches es) !! t_model_id t)) ts
          ↔ Forall (fun t => t_model_id t ∈ e_model_id <$> es) ts) as Hiff.
  { apply Forall_iff. intros t. apply enrolled_models. }
  destruct (decide (Forall _ ts)) as [Hall|Hnall].
  - destruct Hrun as (st' & ? & ? & -> & _). split.
    + split; [intros _; by apply Hiff|by exists st'].
    + done.
  - rewrite Hrun. split.
    + split; [by intros [? ?]|]. intros H. by apply Hiff in H.
    + by intros err [= <-].
Qed.

(** X13.  In a run that completes, the two arrays given to [det_curve] are
    aligned with the trials: the k-th reference is the one of the k-th
    trial, and the k-th distance is the distance between the vector that
    this trial used and the averaged vector of the last enrolment that
    carries the model id of the trial. *)
Theorem scores_follow_trials (es : list enrolment) (ts : list trial) st :
  validate es ts = Ok st →
  y_true st = reference <$> ts ∧ length (y_pred st) = length ts ∧
  ∀ k t, ts !! k = Some t →
    ∃ e v src,
      last (filter (fun e => e_model_id e = t_model_id t) es) = Some e ∧
      log st !! k = Some (v, src) ∧
      y_pred st !! k = Some (cdist (embed_mean (e_file e) (enrol_with e)) v).
Proof.
  unfold Verification.validate. intros Hok.
  pose proof (verify_run ts _ (enrolled_closed es)) as Hrun.
  destruct (decide (Forall _ ts)) as [Hall|Hnall]; [|congruence].
  destruct Hrun as (st' & preds & more & Hrun & Hyt & Hyp & Hlog & Hlen & Hk).
  assert (st' = st) as -> by congruence.
  destruct (enrol_all_rest uid khash embed_mean es no_caches) as [_ Hlog0].
  assert (y_true (foldl enrol no_caches es) = [] ∧
          y_pred (foldl enrol no_caches es) = []) as [Hyt0 Hyp0].
  { clear. induction es as [|e es IH] using rev_ind; [done|].
    by rewrite foldl_snoc. }
  rewrite Hyt0 in Hyt. rewrite Hyp0 in Hyp. rewrite Hlog0 in Hlog.
  simpl in Hyt, Hyp, Hlog. split_and!; [done|by rewrite Hyp|].
  - intros k t Hkt. destruct (Hk k t Hkt) as (target & v & src & Ht & Hm & Hp).
    rewrite enrol_all_models in Ht.
    destruct (last (filter _ es)) as [e|] eqn:Hl;
      [|simpl in Ht; by rewrite lookup_empty in Ht].
    injection Ht as <-. exists e, v, src. by rewrite Hyp, Hlog.
Qed.



End VerificationExtras.
End VerificationExtras.


Lemma scores_follow_trials_witness :
  ∃ st, Verification.toy_validate
          [Verification.Enrolment "A" "m1" 0; Verification.Enrolment "BB" "m2" 0]
          [Verification.Trial "CCC" "m1" 5 true;
           Verification.Trial "A" "m2" 0 false] = Ok st ∧
    Verification.y_true st = [true; false] ∧
    length (Verification.y_pred st) = 2.
Proof.
  destruct (Verification.toy_validate
              [Verification.Enrolment "A" "m1" 0;
               Verification.Enrolment "BB" "m2" 0]
              [Verification.Trial "CCC" "m1" 5 true;
               Verification.Trial "A" "m2" 0 false]) as [st|] eqn:Hrun;
    [|by vm_compute in Hrun].
  exists st. split; [done|].
  destruct (VerificationExtras.scores_follow_trials _ _ _ _ _ _ _ Hrun)
    as (Ht & Hp & _).
  by split.
Defined.

(** ** The directories of an experiment *)

Module PathsFacts.
Import Directory DirectoryFacts Paths.

(** **** [dirname] and [basename] *)

Lemma rfind_none sep p : sep ∉ p → rfind sep p = None.
Proof.
  induction p as [|c p IH]; [done|]. intros [Hc Hp]%not_elem_of_cons.
  cbn [rfind]. rewrite IH by done. by rewrite decide_False.
Qed.

Lemma rfind_last sep a b :
  sep ∉ b → rfind sep (a ++ sep :: b) = Some (length a).
Proof.
  intros Hb. induction a as [|c a IH]; cbn [app rfind length].
  - rewrite rfind_none by done. by rewrite decide_True.
  - by rewrite IH.
Qed.

Lemma after_last_sep_join a b :
  "/"%char ∉ b → after_last_sep (a ++ "/"%char :: b) = S (length a).
Proof. intros Hb. unfold after_last_sep. by rewrite rfind_last. Qed.

Lemma basename_join a b : "/"%char ∉ b → basename (a ++ "/"%char :: b) = b.
Proof.
  intros Hb. unfold basename. rewrite after_last_sep_join by done.
  rewrite (cons_middle _ a b), app_assoc.
  replace (S (length a)) with (length (a ++ ["/"%char]))
    by (rewrite length_app; simpl; lia).
  by rewrite drop_app_length.
Qed.

Lemma dirname_join a b c :
  "/"%char ∉ b → last a = Some c → c ≠ "/"%char →
  dirname (a ++ "/"%char :: b) = a.
Proof.
  intros Hb Hl Hc. unfold dirname. rewrite after_last_sep_join by done.
  rewrite (cons_middle _ a b), app_assoc.
  replace (S (length a)) with (length (a ++ ["/"%char]))
    by (rewrite length_app; simpl; lia).
  rewrite take_app_length.
  apply last_Some in Hl as [a' ->].
  rewrite decide_True.
  - unfold rstrip. rewrite !rev_app_distr. cbn [rev app lstrip].
    rewrite decide_True by done. rewrite decide_False by done.
    change (c :: rev a') with (rev [c] ++ rev a').
    by rewrite <- rev_app_distr, rev_involutive.
  - split; [by destruct a'|]. intros E.
    assert (c ∈ replicate (length ((a' ++ [c]) ++ ["/"%char])) "/"%char) as Hin.
    { rewrite <- E. set_solver. }
    by apply elem_of_replicate in Hin as [? _].
Qed.

Lemma last_no_slash (l : list ascii) :
  l ≠ [] → "/"%char ∉ l → ∃ c, last l = Some c ∧ c ≠ "/"%char.
Proof.
  intros Hne Hl. destruct (last l) as [c|] eqn:E.
  - exists c. split; [done|]. intros ->. by apply last_Some_elem_of in E.
  - by apply last_None in E.
Qed.

Lemma last_app_no_slash (a b : list ascii) :
  b ≠ [] → "/"%char ∉ b → ∃ c, last (a ++ b) = Some c ∧ c ≠ "/"%char.
Proof.
  intros Hne Hb. destruct (last_no_slash b Hne Hb) as (c & Hl & Hc).
  exists c. split; [|done]. apply last_app_Some. by left.
Qed.

(** X14.  The layout of the experiment directories is the one the modes
    rely on.  With [<experiment_dir> = <data_dir>/<xp>] and the training
    directory that [train] derives from it, [from_train_dir] finds the
    experiment directory again, [train] and [_validate_init_default] read
    the sequences from the same [<data_dir>], [from_train_dir] reads the
    statistics where [train] wrote them and looks for [config.yml] in the
    root directory of [data], and [from_validate_txt] finds the training
    directory from a log file three levels below it. *)
Theorem experiment_layout (data_dir xp protocol subset : list ascii) c :
  last data_dir = Some c → c ≠ "/"%char →
  xp ≠ [] → "/"%char ∉ xp → "/"%char ∉ protocol → "/"%char ∉ subset →
  let experiment_dir := data_dir ++ "/"%char :: xp in
  let train_dir := train_dir_of_train experiment_dir protocol subset in
  experiment_dir_of_train_dir train_dir = experiment_dir ∧
  data_h5_of_train experiment_dir protocol subset
    = DATA_H5 data_dir protocol subset ∧
  (∀ p s, data_h5_of_validate train_dir p s = DATA_H5 data_dir p s) ∧
  norm_h5_of_train_dir train_dir
    = norm_h5_of_train experiment_dir protocol subset ∧
  (∀ root_dir params c0,
     data_dir = DATA_DIR root_dir params →
     last root_dir = Some c0 → c0 ≠ "/"%char → "/"%char ∉ params →
     root_dir_of_train_dir train_dir = root_dir) ∧
  (∀ u v w, u ≠ [] → "/"%char ∉ u → v ≠ [] → "/"%char ∉ v → "/"%char ∉ w →
     train_dir_of_validate_txt
       (train_dir ++ "/"%char :: u ++ "/"%char :: v ++ "/"%char :: w)
     = train_dir).
Proof.
  intros Hl Hc Hxp Hxps Hp Hs experiment_dir train_dir.
  assert (dirname experiment_dir = data_dir) as Hd1
    by (by apply (dirname_join _ _ c)).
  destruct (last_app_no_slash (data_dir ++ ["/"%char]) xp Hxp Hxps)
    as (c1 & Hl1 & Hc1).
  rewrite <- app_assoc in Hl1. cbn [app] in Hl1. fold experiment_dir in Hl1.
  assert (dirname train_dir
          = experiment_dir ++ String.list_ascii_of_string "/train") as Hd2.
  { unfold train_dir, train_dir_of_train, TRAIN_DIR.
    replace (experiment_dir ++ String.list_ascii_of_string "/train/"
               ++ protocol ++ "."%char :: subset)
      with ((experiment_dir ++ String.list_ascii_of_string "/train")
              ++ "/"%char :: (protocol ++ "."%char :: subset))
      by (by rewrite <- app_assoc).
    apply (dirname_join _ _ "n"%char); [|by rewrite last_app|done].
    rewrite not_elem_of_app, not_elem_of_cons. by split_and!. }
  assert (dirname (dirname train_dir) = experiment_dir) as Hd3.
  { rewrite Hd2.
    change (String.list_ascii_of_string "/train")
      with ("/"%char :: String.list_ascii_of_string "train").
    apply (dirname_join _ _ c1); [compute_done|done..]. }
  split_and!.
  - exact Hd3.
  - unfold data_h5_of_train. by rewrite Hd1.
  - intros p s. unfold data_h5_of_validate. by rewrite Hd3, Hd1.
  - done.
  - intros root_dir params c0 Hdata Hl0 Hc0 Hparams.
    unfold root_dir_of_train_dir, experiment_dir_of_train_dir.
    rewrite Hd3, Hd1, Hdata. by apply (dirname_join _ _ c0).
  - intros u v w Hu Hus Hv Hvs Hws. unfold train_dir_of_validate_txt.
    assert (∃ c2, last train_dir = Some c2 ∧ c2 ≠ "/"%char) as (c2 & Hl2 & Hc2).
    { unfold train_dir, train_dir_of_train, TRAIN_DIR.
      rewrite !app_assoc. apply last_app_no_slash; [done|].
      by apply not_elem_of_cons. }
    destruct (last_app_no_slash (train_dir ++ ["/"%char]) u Hu Hus)
      as (c3 & Hl3 & Hc3).
    destruct (last_app_no_slash ((train_dir ++ "/"%char :: u) ++ ["/"%char])
                v Hv Hvs) as (c4 & Hl4 & Hc4).
    rewrite <- app_assoc in Hl3, Hl4. cbn [app] in Hl3, Hl4.
    replace (train_dir ++ "/"%char :: u ++ "/"%char :: v ++ "/"%char :: w)
      with (((train_dir ++ "/"%char :: u) ++ "/"%char :: v) ++ "/"%char :: w)
      by (by rewrite <- !app_assoc).
    rewrite (dirname_join _ w c4) by done.
    rewrite (dirname_join _ v c3) by done.
    by rewrite (dirname_join _ u c2).
Qed.

(** **** The characters of an encoded directory *)

Lemma plain_not_slash c : plain c → c ≠ "/"%char.
Proof. intros [[d Hd]| ->]; [|done]. intros ->. by vm_compute in Hd. Qed.

(** ['{:g}'] always prints something, made of digits, ['.'], ['-'], ['e']
    and ['+']. *)
Lemma format_g_alphabet x :
  format_g x ≠ [] ∧
  Forall (fun c => plain c ∨ c = "-"%char ∨ c = "e"%char ∨ c = "+"%char)
         (format_g x).
Proof.
  assert (∀ ds, all_digits ds →
            Forall (fun c => plain c ∨ c = "-"%char ∨ c = "e"%char ∨ c = "+"%char)
                   (chars ds)) as Hchars.
  { intros ds Hds. eapply Forall_impl; [by apply chars_plain|]. by left. }
  assert (∀ fp, all_digits fp →
            Forall (fun c => plain c ∨ c = "-"%char ∨ c = "e"%char ∨ c = "+"%char)
                   (point_fraction fp)) as Hfrac.
  { intros ds Hds. eapply Forall_impl; [by apply point_fraction_plain|]. by left. }
  unfold format_g. case_decide.
  { split; [done|]. constructor; [|done]. left. left. by eexists. }
  destruct (round6 _) as [M carry].
  set (sign := if decide (dm x < 0)%Z then ["-"%char] else []).
  assert (Forall (fun c => plain c ∨ c = "-"%char ∨ c = "e"%char ∨ c = "+"%char)
                 sign) as Hsign.
  { unfold sign. case_decide; [|done]. constructor; [|done]. right. by left. }
  clearbody sign.
  assert (∀ n rest, sign ++ chars (digits n) ++ rest ≠ []) as Hne.
  { intros n rest E. apply app_eq_nil in E as [_ E].
    apply app_eq_nil in E as [E _]. apply fmap_nil_inv in E.
    by apply digits_nonempty in E. }
  case_decide.
  - split; [apply Hne|].
    rewrite !Forall_app. split_and!; [done|..].
    + apply Hchars, digits_all.
    + apply Hfrac, fraction_all.
  - split; [apply Hne|].
    rewrite !Forall_app. split_and!; [done|..].
    + apply Hchars, digits_all.
    + apply Hfrac, fraction_all.
    + unfold exponent_chars. constructor; [tauto|]. constructor.
      * case_decide; tauto.
      * case_decide; [constructor; [left; left; by eexists|]|];
          apply Hchars, digits_all.
Qed.

(** ['{:g}'] never prints a ['/'] nor an ['x']. *)
Lemma format_g_no_slash x :
  format_g x ≠ [] ∧ ("/"%char ∉ format_g x) ∧ ("x"%char ∉ format_g x).
Proof.
  destruct (format_g_alphabet x) as [Hne Hall].
  split_and!; [done|..]; intros Hin;
    apply (proj1 (Forall_forall _ _) Hall) in Hin;
    destruct Hin as [Hp|[?|[?|?]]]; try done.
  - by apply plain_not_slash in Hp.
  - by apply plain_not in Hp as (_ & _ & ?).
Qed.

(** An encoded directory: a non-empty name without ['/'] nor ['x'],
    followed by ['x'] for heterogeneous sequences. *)
Lemma encoded_shape d m s h directory :
  _params_to_directory d m s h true = Ok directory →
  ∃ name, name ≠ [] ∧ ("/"%char ∉ name) ∧ ("x"%char ∉ name) ∧
    String.list_ascii_of_string directory
    = if h then name ++ ["x"%char] else name.
Proof.
  unfold _params_to_directory. cbn [negb]. intros [= <-].
  rewrite String.list_ascii_of_string_of_list_ascii.
  destruct (format_g_no_slash d) as (Hdne & Hd & Hdx).
  set (M := match m with
            | Some x => format_g x ++ ["-"%char]
            | None => []
            end).
  assert (("/"%char ∉ M) ∧ ("x"%char ∉ M)) as [Hm Hmx].
  { unfold M. destruct m as [x|]; [|set_solver].
    destruct (format_g_no_slash x) as (_ & Hx & Hxx).
    rewrite !not_elem_of_app. split_and!; [done| |done|]; set_solver. }
  clearbody M.
  set (S1 := match s with
             | Some x => (M ++ format_g d) ++ "+"%char :: format_g x
             | None => M ++ format_g d
             end).
  assert (S1 ≠ [] ∧ ("/"%char ∉ S1) ∧ ("x"%char ∉ S1)) as (Hne & Hs & Hsx).
  { unfold S1. destruct s as [x|].
    - destruct (format_g_no_slash x) as (_ & Hx & Hxx). split_and!.
      + intros E. by apply app_eq_nil in E as [_ E].
      + rewrite !not_elem_of_app, not_elem_of_cons. by split_and!.
      + rewrite !not_elem_of_app, not_elem_of_cons. by split_and!.
    - split_and!.
      + intros E. by apply app_eq_nil in E as [_ E].
      + rewrite not_elem_of_app. by split.
      + rewrite not_elem_of_app. by split. }
  clearbody S1. by exists S1.
Qed.

Lemma encoded_no_slash d m s h directory :
  _params_to_directory d m s h true = Ok directory →
  String.list_ascii_of_string directory ≠ [] ∧
  ("/"%char ∉ String.list_ascii_of_string directory).
Proof.
  intros (name & Hne & Hs & _ & ->)%encoded_shape. destruct h; [|done]. split.
  - intros E. by apply app_eq_nil in E as [_ E].
  - rewrite not_elem_of_app. split; [done|]. set_solver.
Qed.

(** X15.  Whatever the parameters of the sequences, the training of an
    experiment whose directory [<xp>] lies in the directory that [data]
    created reads the very file that [data] wrote for the same protocol and
    subset. *)
Theorem train_reads_the_store_of_data
    (root_dir : list ascii) d m s h (protocol subset xp data_h5 : list ascii) :
  "/"%char ∉ xp →
  data_h5_of_data root_dir d m s h protocol subset = Ok data_h5 →
  ∃ params,
    _params_to_directory d m s h true = Ok params ∧
    data_h5_of_train
      (DATA_DIR root_dir (String.list_ascii_of_string params) ++ "/"%char :: xp)
      protocol subset = data_h5.
Proof.
  intros Hxp. unfold data_h5_of_data.
  destruct (_params_to_directory d m s h true) as [params|] eqn:Henc; [|done].
  cbn [mbind result_bind]. intros [= <-]. exists params. split; [done|].
  destruct (encoded_no_slash _ _ _ _ _ Henc) as [Hne Hns].
  destruct (last_app_no_slash (root_dir ++ ["/"%char]) _ Hne Hns) as (c & Hl & Hc).
  rewrite <- app_assoc in Hl. cbn [app] in Hl.
  unfold data_h5_of_train. by rewrite (dirname_join _ xp c).
Qed.

End PathsFacts.

Lemma experiment_layout_witness :
  let data_dir := String.list_ascii_of_string "/data/3.2+0.8" in
  let xp := String.list_ascii_of_string "xp" in
  let protocol := String.list_ascii_of_string "Etape.SpeakerDiarization.TV" in
  let subset := String.list_ascii_of_string "train" in
  let experiment_dir := data_dir ++ "/"%char :: xp in
  let train_dir := Paths.train_dir_of_train experiment_dir protocol subset in
  Paths.experiment_dir_of_train_dir train_dir = experiment_dir ∧
  Paths.data_h5_of_train experiment_dir protocol subset
    = Paths.DATA_H5 data_dir protocol subset ∧
  (∀ p s, Paths.data_h5_of_validate train_dir p s = Paths.DATA_H5 data_dir p s) ∧
  Paths.norm_h5_of_train_dir train_dir
    = Paths.norm_h5_of_train experiment_dir protocol subset ∧
  (∀ root_dir params c0,
     data_dir = Paths.DATA_DIR root_dir params →
     last root_dir = Some c0 → c0 ≠ "/"%char → "/"%char ∉ params →
     Paths.root_dir_of_train_dir train_dir = root_dir) ∧
  (∀ u v w, u ≠ [] → "/"%char ∉ u → v ≠ [] → "/"%char ∉ v → "/"%char ∉ w →
     Paths.train_dir_of_validate_txt
       (train_dir ++ "/"%char :: u ++ "/"%char :: v ++ "/"%char :: w)
     = train_dir).
Proof.
  apply (PathsFacts.experiment_layout
           (String.list_ascii_of_string "/data/3.2+0.8")
           (String.list_ascii_of_string "xp")
           (String.list_ascii_of_string "Etape.SpeakerDiarization.TV")
           (String.list_ascii_of_string "train") "8"%char);
    [reflexivity|done|done|compute_done..].
Defined.

Lemma train_reads_the_store_of_data_witness :
  ∃ params,
    Directory._params_to_directory
      (Directory.Dec 32 (-1)) None (Some (Directory.Dec 8 (-1))) false true
      = Ok params ∧
    Paths.data_h5_of_train
      (Paths.DATA_DIR (String.list_ascii_of_string "/data")
         (String.list_ascii_of_string params)
       ++ "/"%char :: String.list_ascii_of_string "xp")
      (String.list_ascii_of_string "Etape.SpeakerDiarization.TV")
      (String.list_ascii_of_string "train")
    = String.list_ascii_of_string
        "/data/3.2+0.8/sequences/Etape.SpeakerDiarization.TV.train.h5".
Proof.
  apply (PathsFacts.train_reads_the_store_of_data
           (String.list_ascii_of_string "/data")
           (Directory.Dec 32 (-1)) None (Some (Directory.Dec 8 (-1))) false);
    [compute_done|reflexivity].
Defined.

(** ** More on the directory names *)

Module DirectoryExtras.
Import Directory DirectoryFacts Paths PathsFacts.

(** Decoding the directory name that encodes parameters printed exactly. *)
Lemma decode_encoded d m s h :
  short d → (∀ x, m = Some x → short x) → (∀ x, s = Some x → short x) →
  ∃ directory p,
    _params_to_directory d m s h true = Ok directory ∧
    _directory_to_params directory = Ok p ∧
    params_eqb p (d, m, s, h) = true.
Proof.
  intros Hd Hm Hs.
  destruct (parse_tokens_encoded d m s Hd Hm Hs)
    as (d' & m' & s' & Hparse & Hed & Hem & Hes).
  destruct (_params_to_directory d m s h true) as [directory|] eqn:Henc;
    [|done].
  destruct (encoded_shape _ _ _ _ _ Henc) as (name & Hne & _ & Hx & Hname).
  assert (name = (match m with None => [] | Some x => format_g x ++ ["-"%char] end
                  ++ format_g d)
                 ++ match s with None => [] | Some x => "+"%char :: format_g x end)
    as Hshape.
  { revert Henc Hname. unfold _params_to_directory. cbn [negb].
    intros [= <-]. rewrite String.list_ascii_of_string_of_list_ascii.
    destruct s, h; rewrite ?app_nil_r; intros E; try done;
      by apply app_inj_tail in E as [? _]. }
  rewrite <- Hshape in Hparse.
  exists directory, (d', m', s', h). split_and!; [done| |].
  - unfold _directory_to_params. rewrite Hname. destruct h.
    + rewrite last_snoc. cbn [from_option mbind result_bind].
      rewrite decide_True by done.
      rewrite length_app. cbn [length].
      replace (length name + 1 - 1) with (length name) by lia.
      rewrite take_app_length. by rewrite Hparse.
    + destruct (last name) as [c|] eqn:Hlast; [|by apply last_None in Hlast].
      cbn [from_option mbind result_bind].
      rewrite decide_False; [by rewrite Hparse|].
      intros ->. by apply last_Some_elem_of in Hlast.
  - unfold params_eqb. rewrite Hed, Hem, Hes. cbn [andb].
    by apply bool_decide_eq_true.
Qed.

(** X16.  [apply] and the validation on verification protocols find in the
    path of the experiment the parameters that [data] was run with: for
    positive parameters that ['{:g}'] prints exactly, the directory name two
    levels above the experiment decodes to these parameters. *)
Theorem apply_recovers_the_parameters (root_dir xp : list ascii) d m s h :
  short_positive d → (∀ x, m = Some x → short_positive x) →
  (∀ x, s = Some x → short_positive x) →
  "/"%char ∉ xp →
  ∃ params p,
    _params_to_directory d m s h true = Ok params ∧
    params_of_experiment_dir
      (DATA_DIR root_dir (String.list_ascii_of_string params) ++ "/"%char :: xp)
    = Ok p ∧
    params_eqb p (d, m, s, h) = true.
Proof.
  intros Hd%short_positive_short Hm Hs Hxp.
  destruct (decode_encoded d m s h Hd
              (fun x Hx => short_positive_short x (Hm x Hx))
              (fun x Hx => short_positive_short x (Hs x Hx)))
    as (params & p & Henc & Hdec & Heq).
  exists params, p. split_and!; [done| |done].
  destruct (encoded_no_slash _ _ _ _ _ Henc) as [Hne Hns].
  destruct (last_app_no_slash (root_dir ++ ["/"%char]) _ Hne Hns) as (c & Hl & Hc).
  rewrite <- app_assoc in Hl. cbn [app] in Hl.
  unfold params_of_experiment_dir. rewrite (dirname_join _ xp c) by done.
  unfold DATA_DIR. rewrite basename_join by done.
  by rewrite String.string_of_list_ascii_of_string.
Qed.

(** X17.  The heterogeneous flag always comes back: whatever the numbers,
    even those that ['{:g}'] rounds or prints with an exponent, a directory
    name that decodes at all decodes to the flag it was encoded with. *)
Theorem heterogeneous_flag_survives d m s h directory p :
  _params_to_directory d m s h true = Ok directory →
  _directory_to_params directory = Ok p →
  p.2 = h.
Proof.
  intros (name & Hne & _ & Hx & Hname)%encoded_shape.
  unfold _directory_to_params. rewrite Hname. destruct h.
  - rewrite last_snoc. cbn [from_option mbind result_bind].
    rewrite decide_True by done.
    destruct (parse_tokens _) as [[[d' m'] s']|]; [|done]. simpl.
    by intros [= <-].
  - destruct (last name) as [c|] eqn:Hlast; [|by apply last_None in Hlast].
    cbn [from_option mbind result_bind].
    rewrite decide_False by (intros ->; by apply last_Some_elem_of in Hlast).
    destruct (parse_tokens _) as [[[d' m'] s']|]; [|done]. simpl.
    by intros [= <-].
Qed.

End DirectoryExtras.

Module DirectoryNames.
Import Directory DirectoryFacts DirectoryExtras.

(** **** Whole numbers *)

Lemma fixed_le_shifted w n :
  fixed_le w (n * 10 ^ N.of_nat w) = replicate w 0%N.
Proof.
  induction w as [|w IH]; [done|].
  rewrite Nat2N.inj_succ, N.pow_succ_r'. cbn [fixed_le replicate].
  replace (n * (10 * 10 ^ N.of_nat w))%N with ((n * 10 ^ N.of_nat w) * 10)%N
    by lia.
  rewrite N.Div0.mod_mul, N.div_mul by done. by rewrite IH.
Qed.

Lemma drop_zeros_replicate w : drop_zeros (replicate w 0%N) = [].
Proof. induction w as [|w IH]; [done|]. exact IH. Qed.

Lemma format_g_whole n :
  (n < 10 ^ 6)%N → format_g (Dec (Z.of_N n) 0) = chars (digits n).
Proof.
  intros Hn. destruct (decide (n = 0%N)) as [->|Hpos]; [done|].
  unfold format_g. cbn [dm de].
  rewrite decide_False by lia. rewrite decide_False by lia.
  rewrite Zabs2N.id. unfold round6.
  assert (ndigits n ≤ 6) as HL by (by apply ndigits_le; [lia|]).
  assert (1 ≤ ndigits n) as HL1.
  { unfold ndigits. pose proof (digits_nonempty n).
    destruct (digits n); [done|simpl; lia]. }
  set (L := ndigits n) in *.
  rewrite decide_True by done.
  rewrite decide_True by lia.
  replace (Z.to_nat (5 - (Z.of_nat L - 1 + 0 + 0))) with (6 - L) by lia.
  rewrite N.div_mul by (apply N.pow_nonzero; lia).
  unfold fraction. rewrite fixed_le_shifted, drop_zeros_replicate.
  cbn [rev point_fraction]. by rewrite app_nil_r.
Qed.

(** X18.  The table that heads [_params_to_directory] in the code holds
    for all whole numbers of seconds below one million: they are printed
    with their decimal digits, the minimum duration before a ['-'], the step
    after a ['+'], and an ['x'] closes the name for heterogeneous
    sequences. *)
Theorem whole_numbers_directory (d : N) (m s : option N) (h : bool) :
  (d < 10 ^ 6)%N →
  (∀ x, m = Some x → (x < 10 ^ 6)%N) → (∀ x, s = Some x → (x < 10 ^ 6)%N) →
  _params_to_directory (Dec (Z.of_N d) 0)
    ((fun x => Dec (Z.of_N x) 0) <$> m) ((fun x => Dec (Z.of_N x) 0) <$> s)
    h true
  = Ok (String.string_of_list_ascii
          (match m with Some x => chars (digits x) ++ ["-"%char] | None => [] end
           ++ chars (digits d)
           ++ match s with Some x => "+"%char :: chars (digits x) | None => [] end
           ++ if h then ["x"%char] else [])).
Proof.
  intros Hd Hm Hs. unfold _params_to_directory. cbn [negb]. f_equal. f_equal.
  rewrite (format_g_whole d) by done.
  destruct m as [x|], s as [y|], h; cbn [fmap option_fmap option_map];
    rewrite ?(format_g_whole x) by (by apply Hm);
    rewrite ?(format_g_whole y) by (by apply Hs);
    by rewrite <- ?app_assoc, ?app_nil_r.
Qed.

(** **** Equality of numbers *)

Lemma dec_eqb_shift a b c :
  (c ≤ de a)%Z → (c ≤ de b)%Z → dec_eqb a b = true →
  (dm a * 10 ^ (de a - c) = dm b * 10 ^ (de b - c))%Z.
Proof.
  intros Ha Hb. unfold dec_eqb. intros Heq%Z.eqb_eq.
  set (c0 := Z.min (de a) (de b)) in *.
  replace (de a - c)%Z with ((de a - c0) + (c0 - c))%Z by lia.
  replace (de b - c)%Z with ((de b - c0) + (c0 - c))%Z by lia.
  rewrite !Z.pow_add_r by (unfold c0; lia).
  by rewrite !Z.mul_assoc, Heq.
Qed.

Lemma dec_eqb_sym a b : dec_eqb a b = dec_eqb b a.
Proof. unfold dec_eqb. by rewrite Z.min_comm, Z.eqb_sym. Qed.

Lemma dec_eqb_trans a b c :
  dec_eqb a b = true → dec_eqb b c = true → dec_eqb a c = true.
Proof.
  intros Hab Hbc.
  apply (dec_eqb_common a c (Z.min (de a) (Z.min (de b) (de c)))); [lia..|].
  rewrite (dec_eqb_shift a b) by (done || lia).
  by rewrite (dec_eqb_shift b c) by (done || lia).
Qed.

Lemma option_dec_eqb_join p a b :
  option_dec_eqb p a = true → option_dec_eqb p b = true →
  option_dec_eqb a b = true.
Proof.
  destruct p as [p|], a as [a|], b as [b|]; simpl; try done.
  intros Ha Hb. rewrite dec_eqb_sym in Ha. by eapply dec_eqb_trans.
Qed.

(** X19.  Two settings that are printed exactly never share a data
    directory unless they are equal: the encoding of the parameters is
    one-to-one on them. *)
Theorem one_directory_one_setting d m s h d' m' s' h' directory :
  short d → (∀ x, m = Some x → short x) → (∀ x, s = Some x → short x) →
  short d' → (∀ x, m' = Some x → short x) → (∀ x, s' = Some x → short x) →
  _params_to_directory d m s h true = Ok directory →
  _params_to_directory d' m' s' h' true = Ok directory →
  params_eqb (d, m, s, h) (d', m', s', h') = true.
Proof.
  intros Hd Hm Hs Hd' Hm' Hs' Henc Henc'.
  destruct (decode_encoded d m s h Hd Hm Hs) as (dir & p & Hdir & Hdec & Heq).
  destruct (decode_encoded d' m' s' h' Hd' Hm' Hs')
    as (dir' & p' & Hdir' & Hdec' & Heq').
  assert (dir = directory) as -> by congruence.
  assert (dir' = directory) as -> by congruence.
  assert (p' = p) as -> by congruence.
  destruct p as [[[pd pm] ps] ph]. unfold params_eqb in *.
  apply andb_prop in Heq as [[[H1 H2]%andb_prop H3]%andb_prop H4].
  apply andb_prop in Heq' as [[[H1' H2']%andb_prop H3']%andb_prop H4'].
  apply bool_decide_eq_true in H4, H4'. subst.
  rewrite dec_eqb_sym in H1.
  rewrite (dec_eqb_trans _ _ _ H1 H1').
  rewrite (option_dec_eqb_join _ _ _ H2 H2').
  rewrite (option_dec_eqb_join _ _ _ H3 H3'). cbn [andb].
  by apply bool_decide_eq_true.
Qed.

End DirectoryNames.

Lemma apply_recovers_the_parameters_witness :
  ∃ params p,
    Directory._params_to_directory
      (Directory.Dec 32 (-1)) None (Some (Directory.Dec 8 (-1))) false true
      = Ok params ∧
    Paths.params_of_experiment_dir
      (Paths.DATA_DIR (String.list_ascii_of_string "/data")
         (String.list_ascii_of_string params)
       ++ "/"%char :: String.list_ascii_of_string "xp") = Ok p ∧
    Directory.params_eqb p
      (Directory.Dec 32 (-1), None, Some (Directory.Dec 8 (-1)), false) = true.
Proof.
  apply (DirectoryExtras.apply_recovers_the_parameters
           (String.list_ascii_of_string "/data")
           (String.list_ascii_of_string "xp")).
  - vm_compute. split_and!; [done|lia|discriminate|done].
  - intros x [=].
  - intros x [= <-]. vm_compute. split_and!; [done|lia|discriminate|done].
  - compute_done.
Defined.

Lemma heterogeneous_flag_survives_witness :
  (Directory.Dec 123457 (-6), @None Directory.dec, @None Directory.dec, true).2
  = true.
Proof.
  apply (DirectoryExtras.heterogeneous_flag_survives
           (Directory.Dec 1234567 (-7)) None None true "0.123457x");
    reflexivity.
Defined.

Lemma whole_numbers_directory_witness :
  Directory._params_to_directory (Directory.Dec 5 0)
    (Some (Directory.Dec 1 0)) (Some (Directory.Dec 2 0)) false true
  = Ok "1-5+2".
Proof.
  apply (DirectoryNames.whole_numbers_directory 5 (Some 1%N) (Some 2%N) false);
    [done|by intros x [= <-]..].
Defined.

Lemma one_directory_one_setting_witness :
  Directory.params_eqb
    (Directory.Dec 32 (-1), None, None, false)
    (Directory.Dec 320 (-2), None, None, false) = true.
Proof.
  apply (DirectoryNames.one_directory_one_setting
           (Directory.Dec 32 (-1)) None None false
           (Directory.Dec 320 (-2)) None None false "3.2");
    try (by intros x [=]); try reflexivity;
    right; vm_compute; split_and!; try done; try lia.
Defined.

(** ** The validation track *)

Module TracksFacts.
Import Directory DirectoryFacts Tracks.

Lemma split_nonempty sep s : split sep s ≠ [].
Proof.
  destruct s as [|c s]; [done|]. cbn [split].
  case_decide; [done|]. by destruct (split sep s).
Qed.

(** X20.  The validation mode is chosen by the second field of the
    protocol name, the task: for a name [<database>.<task>] or
    [<database>.<task>.<protocol>], validation follows the verification
    track when the task is [SpeakerVerification] and the default track
    otherwise. *)
Theorem track_of_protocol_name (db t rest : list ascii) :
  "."%char ∉ db → "."%char ∉ t →
  (∀ c, head rest = Some c → c = "."%char) →
  validate_track (db ++ "."%char :: t ++ rest)
  = Ok (if decide (t = String.list_ascii_of_string "SpeakerVerification")
        then VerificationTrack else DefaultTrack).
Proof.
  intros Hdb Ht Hrest. unfold validate_track, task.
  rewrite split_at by done.
  assert (∃ ws, split "."%char (t ++ rest) = t :: ws) as [ws ->].
  { destruct rest as [|c rest].
    - rewrite app_nil_r, split_none by done. by eexists.
    - rewrite (Hrest c eq_refl), split_at by done. by eexists. }
  cbn [token lookup list_lookup from_option mbind result_bind].
  by case_decide.
Qed.

(** X21.  Validation can tell its track exactly for the protocol names
    that hold a dot; on a name without any, [validate_init] and
    [validate_epoch] stop on [IndexError]. *)
Theorem track_needs_a_dot (name : list ascii) :
  ((∃ tr, validate_track name = Ok tr) ↔ "."%char ∈ name) ∧
  (∀ e, validate_track name = Raise e → e = "IndexError").
Proof.
  unfold validate_track, task.
  destruct (decide ("."%char ∈ name)) as [Hin|Hnin].
  - apply list_elem_of_split_l in Hin as (db & r & -> & Hdb).
    rewrite split_at by done.
    destruct (split "."%char r) as [|t ws] eqn:Hsp;
      [by apply split_nonempty in Hsp|].
    cbn [token lookup list_lookup from_option mbind result_bind].
    split.
    + split; [intros _; set_solver|intros _]. case_decide; by eexists.
    + intros e. by case_decide.
  - rewrite split_none by done.
    cbn [token lookup list_lookup from_option mbind result_bind]. split.
    + split; [by intros [? ?]|done].
    + by intros e [= <-].
Qed.

End TracksFacts.

Lemma track_of_protocol_name_witness :
  Tracks.validate_track
    (String.list_ascii_of_string "VoxCeleb"
     ++ "."%char :: String.list_ascii_of_string "SpeakerVerification"
     ++ String.list_ascii_of_string ".VoxCeleb1")
  = Ok (if decide (String.list_ascii_of_string "SpeakerVerification"
                   = String.list_ascii_of_string "SpeakerVerification")
        then Tracks.VerificationTrack else Tracks.DefaultTrack).
Proof.
  apply (TracksFacts.track_of_protocol_name
           (String.list_ascii_of_string "VoxCeleb")
           (String.list_ascii_of_string "SpeakerVerification")
           (String.list_ascii_of_string ".VoxCeleb1"));
    [compute_done|compute_done|by intros c [= <-]].
Defined.

(** ** More on the domain classification task *)

Module DomainClassificationExtras.
Import DomainClassification DomainClassificationFacts PrepareData.

(** **** The targets *)

Lemma prepare_files (classes : list string) (files : list file) :
  (∀ f, f ∈ files → domain f ∈ classes) →
  ∀ acc, ∃ ts,
    for_each (prepare_file classes) files acc = Ok (acc ++ ts) ∧
    Forall2 (fun f t => classes !! t = Some (domain f)) files ts.
Proof.
  induction files as [|f files IH]; intros Hdom acc.
  - exists []. by rewrite app_nil_r.
  - destruct (index_elem classes (domain f) (Hdom f ltac:(by left)))
      as (t & Ht & Hlk).
    destruct (IH (fun g Hg => Hdom g ltac:(by right)) (acc ++ [t]))
      as (ts & Hrun & Hts).
    assert (prepare_file classes acc f = Ok (acc ++ [t])) as Hstep
      by (unfold prepare_file; by rewrite Ht).
    exists (t :: ts). cbn [for_each]. rewrite Hstep.
    cbn [mbind result_bind]. rewrite Hrun, <- app_assoc.
    split; [done|by constructor].
Qed.

(** X22.  [prepare_data] never fails on the files of the task, and the
    target it gives a file is the position of the domain of the file among
    the classes: the class at that position is this domain, and two files
    have the same target exactly when they have the same domain. *)
Theorem prepare_data_targets (files : list file) :
  ∃ targets,
    prepare_data files = Ok targets ∧
    Forall2 (fun f t => get_classes files !! t = Some (domain f)) files targets ∧
    ∀ i j fi fj ti tj,
      files !! i = Some fi → files !! j = Some fj →
      targets !! i = Some ti → targets !! j = Some tj →
      (ti = tj ↔ domain fi = domain fj).
Proof.
  destruct (get_classes_spec files) as (_ & Hnd & Hcl).
  destruct (prepare_files (get_classes files) files) with (acc := @nil nat)
    as (ts & Hrun & Hts).
  { intros f Hf. apply Hcl, list_elem_of_fmap. by exists f. }
  exists ts. split_and!; [done..|].
  intros i j fi fj ti tj Hi Hj Hti Htj.
  pose proof (Forall2_lookup_lr _ _ _ _ _ _ Hts Hi Hti) as Hci.
  pose proof (Forall2_lookup_lr _ _ _ _ _ _ Hts Hj Htj) as Hcj.
  simpl in Hci, Hcj. split.
  - intros ->. congruence.
  - intros Heq. rewrite Heq in Hci. by eapply NoDup_lookup.
Qed.

(** **** Files that cannot be validated *)

Lemma argmax_axis1_Ok rows am :
  argmax_axis1 rows = Ok am → Forall (fun row => row ≠ []) rows ∧
  length am = length rows.
Proof.
  revert am. induction rows as [|row rows IH]; intros am; simpl.
  - by intros [= <-].
  - destruct row as [|v row]; [done|]. simpl.
    destruct (argmax_axis1 rows) as [l|]; [|done]. simpl. intros [= <-].
    destruct (IH l eq_refl) as [Hall Hlen]. split; [by constructor|].
    simpl. by rewrite Hlen.
Qed.

Lemma argmax_axis1_Raise rows e :
  argmax_axis1 rows = Raise e → e = "ValueError".
Proof.
  induction rows as [|row rows IH]; simpl; [done|].
  destruct row as [|v row]; simpl; [by intros [= <-]|].
  destruct (argmax_axis1 rows) as [l|]; simpl; [done|].
  intros [= <-]. by apply IH.
Qed.

Lemma Counter_nil_inv l : Counter l = [] → l = [].
Proof.
  intros E. destruct l as [|x l]; [done|].
  destruct (Counter_keys (x :: l)) as [_ Hk].
  assert (x ∈ (Counter (x :: l)).*1) as Hin by (apply Hk; by left).
  rewrite E in Hin. by apply elem_of_nil in Hin.
Qed.

Lemma index_Ok (domains : list string) d k :
  index domains d = Ok k → d ∈ domains.
Proof.
  unfold index. destruct (list_find _ domains) as [[k' d']|] eqn:Hf; [|done].
  intros _. apply list_find_Some in Hf as (Hk & -> & _).
  by eapply list_elem_of_lookup_2.
Qed.

(** A file can be validated when it has frames, scores on every frame and a
    domain among the classes. *)
#[local] Abbreviation valid domains f :=
  (scores f ≠ [] ∧ Forall (fun row => row ≠ []) (scores f) ∧
   domain f ∈ domains).

Lemma validate_file_cases (domains : list string) acc f :
  match validate_file domains acc f with
  | Ok _ => valid domains f
  | Raise e => ¬ valid domains f ∧ (e = "ValueError" ∨ e = "IndexError")
  end.
Proof.
  unfold validate_file. destruct acc as [yt yp].
  destruct (argmax_axis1 (scores f)) as [am|e] eqn:Ham; simpl.
  - apply argmax_axis1_Ok in Ham as [Hrows Hlen].
    destruct (Counter am) as [|kv c] eqn:Hc; simpl.
    + apply Counter_nil_inv in Hc. subst am. split; [|by right].
      intros (Hne & _). destruct (scores f); [done|discriminate].
    + assert (scores f ≠ []) as Hne.
      { intros E. rewrite E in Hlen. destruct am; [done|discriminate]. }
      destruct (index domains (domain f)) as [t|e] eqn:Hi; simpl.
      * apply index_Ok in Hi. by split_and!.
      * split.
        -- intros (_ & _ & Hd). apply index_elem in Hd as (k & Hk & _).
           congruence.
        -- left. unfold index in Hi.
           destruct (list_find _ domains); simpl in Hi; by simplify_eq.
  - split; [|left; by eapply argmax_axis1_Raise].
    intros (_ & Hrows & _).
    apply argmax_axis1_first_max in Hrows as (am & Ham' & _). congruence.
Qed.

Lemma validate_files_cases (domains : list string) (files : list file) : ∀ acc,
  match for_each (validate_file domains) files acc with
  | Ok _ => Forall (fun f => valid domains f) files
  | Raise e =>
      ¬ Forall (fun f => valid domains f) files ∧
      (e = "ValueError" ∨ e = "IndexError")
  end.
Proof.
  induction files as [|f files IH]; intros acc; cbn [for_each]; [done|].
  pose proof (validate_file_cases domains acc f) as Hf.
  destruct (validate_file domains acc f) as [acc1|e]; cbn [mbind result_bind].
  - specialize (IH acc1).
    destruct (for_each _ files acc1) as [r|e].
    + by constructor.
    + destruct IH as [Hn He]. split; [|done].
      intros Hall. by apply Forall_cons in Hall as [_ ?].
  - destruct Hf as [Hn He]. split; [|done].
    intros Hall. by apply Forall_cons in Hall as [? _].
Qed.

(** X23.  [validation] returns a value exactly when each validated file
    has at least one frame, scores on every frame and a domain that is one
    of the classes of the task; otherwise it stops on [ValueError] (a frame
    without scores, an unknown domain) or on [IndexError] (a file without
    frames). *)
Theorem validation_needs_valid_files (task_files files : list file) :
  ((∃ r, validation task_files files = Ok r) ↔
   Forall (fun f => scores f ≠ [] ∧ Forall (fun row => row ≠ []) (scores f) ∧
                    domain f ∈ domain <$> task_files) files) ∧
  (∀ e, validation task_files files = Raise e →
        e = "ValueError" ∨ e = "IndexError").
Proof.
  assert (Forall (fun f => valid (get_classes task_files) f) files ↔
          Forall (fun f => scores f ≠ [] ∧
                           Forall (fun row => row ≠ []) (scores f) ∧
                           domain f ∈ domain <$> task_files) files) as Hiff.
  { apply Forall_iff. intros f.
    destruct (get_classes_spec task_files) as (_ & _ & Hcl).
    by rewrite Hcl. }
  unfold validation.
  pose proof (validate_files_cases (get_classes task_files) files ([], []))
    as Hrun.
  destruct (for_each _ files _) as [[yt yp]|e]; cbn [mbind result_bind].
  - split; [|done]. split; [intros _; by apply Hiff|by eexists].
  - destruct Hrun as [Hn He]. split.
    + split; [by intros [? ?]|]. intros Hall. by apply Hiff in Hall.
    + by intros e' [= <-].
Qed.

End DomainClassificationExtras.

Lemma prepare_data_example :
  PrepareData.prepare_data
    [DomainClassification.File "tv" []; DomainClassification.File "radio" [];
     DomainClassification.File "tv" []] = Ok [1; 0; 1].
Proof. reflexivity. Qed.

(** ** Ties between the classes of a file *)

Module MostCommon.
Import DomainClassification DomainClassificationFacts.

(** [max] returns the first item among those with the largest count. *)
Lemma max_by_count_first c : ∀ best,
  ∃ i, (best :: c) !! i = Some (max_by_count best c) ∧
    ∀ j kv, j < i → (best :: c) !! j = Some kv →
      kv.2 < (max_by_count best c).2.
Proof.
  induction c as [|kv c IH]; intros best; cbn [max_by_count].
  - exists 0. split; [done|]. intros; lia.
  - destruct (decide (best.2 < kv.2)) as [Hlt|Hge].
    + destruct (IH kv) as (i & Hi & Hbefore).
      destruct (max_by_count_spec c kv) as [_ Hmax].
      exists (S i). split; [done|].
      intros [|j] kv' Hj Hkv'; simpl in Hkv'.
      * injection Hkv' as <-.
        eapply Nat.lt_le_trans; [done|]. apply Hmax. by left.
      * apply (Hbefore j); [lia|done].
    + destruct (IH best) as (i & Hi & Hbefore).
      destruct i as [|i].
      * exists 0. split; [done|]. intros; lia.
      * exists (S (S i)). split; [done|].
        assert (best.2 < (max_by_count best c).2) as Hb
          by (apply (Hbefore 0); [lia|done]).
        intros [|[|j]] kv' Hj Hkv'; simpl in Hkv'.
        -- by injection Hkv' as <-.
        -- injection Hkv' as <-. lia.
        -- apply (Hbefore (S j)); [lia|done].
Qed.

(** The keys of a [Counter] are in order of first appearance. *)
Lemma Counter_keys_order l : ∀ a b p q,
  (Counter l).*1 !! a = Some p → (Counter l).*1 !! b = Some q → a < b →
  ∃ i, l !! i = Some p ∧ (q ∉ take i l).
Proof.
  induction l as [|x l IH] using rev_ind; intros a b p q; [done|].
  unfold Counter. rewrite foldl_snoc. fold (Counter l).
  rewrite counter_add_keys.
  destruct (Counter_keys l) as [Hnd Hkeys].
  assert (∀ i, l !! i = Some p → (q ∉ take i l) →
            (l ++ [x]) !! i = Some p ∧ (q ∉ take i (l ++ [x]))) as Hext.
  { intros i Hi Hq. pose proof (lookup_lt_Some _ _ _ Hi) as Hlt.
    split; [by rewrite lookup_app_l|]. by rewrite take_app_le by lia. }
  destruct (decide (x ∈ (Counter l).*1)) as [Hin|Hnin].
  - intros Ha Hb Hab. destruct (IH a b p q Ha Hb Hab) as (i & Hi & Hq).
    exists i. by apply Hext.
  - intros Ha Hb Hab.
    apply lookup_app_Some in Hb as [Hb|[Hlen Hb]].
    + rewrite lookup_app_l in Ha by (apply lookup_lt_Some in Hb; lia).
      destruct (IH a b p q Ha Hb Hab) as (i & Hi & Hq).
      exists i. by apply Hext.
    + apply list_lookup_singleton_Some in Hb as [Hb <-].
      rewrite lookup_app_l in Ha by lia.
      assert (p ∈ l) as Hp by (by eapply Hkeys, list_elem_of_lookup_2).
      apply list_elem_of_lookup_1 in Hp as [i Hi].
      exists i. apply Hext; [done|].
      intros Hq%subseteq_take. by apply Hkeys in Hq.
Qed.

(** X24.  When several classes are the most frequent among the frames of
    a file, the class predicted for the file is the one of them that comes
    first in the file: [most_common(1)] returns the most frequent value
    that appears first. *)
Theorem most_common_first_of_ties (l : list nat) (p : nat) :
  most_common_1 (Counter l) = Ok p →
  p ∈ l ∧
  ∀ q, q ≠ p → count_occ Nat.eq_dec l q = count_occ Nat.eq_dec l p →
    ∃ i, l !! i = Some p ∧ (q ∉ take i l).
Proof.
  intros Hp. destruct (Counter_keys l) as [Hnd Hkeys].
  destruct (Counter l) as [|kv c] eqn:Hc; [done|].
  simpl in Hp. injection Hp as <-.
  destruct (max_by_count_first c kv) as (a & Ha & Hbefore).
  destruct (max_by_count kv c) as [p n] eqn:Hbest. cbn [fst snd] in *.
  assert (∀ k m, (k, m) ∈ kv :: c → count_occ Nat.eq_dec l k = m) as Hcount.
  { intros k m Hkm. rewrite <- Counter_get, Hc. by apply counter_get_elem. }
  assert (p ∈ l) as Hpl.
  { apply Hkeys, list_elem_of_fmap. exists (p, n). split; [done|].
    by eapply list_elem_of_lookup_2. }
  split; [done|]. intros q Hqp Hsame.
  assert (q ∈ l) as Hql.
  { destruct (decide (q ∈ l)) as [?|Hnq]; [done|]. exfalso.
    rewrite list_elem_of_In in Hnq, Hpl.
    apply (count_occ_not_In Nat.eq_dec) in Hnq.
    apply (count_occ_In Nat.eq_dec) in Hpl. lia. }
  apply Hkeys, list_elem_of_fmap in Hql as ([q' m] & -> & Hqm). cbn [fst] in *.
  apply list_elem_of_lookup_1 in Hqm as [b Hb].
  rewrite (Hcount q' m) in Hsame by (by eapply list_elem_of_lookup_2).
  rewrite (Hcount p n) in Hsame by (by eapply list_elem_of_lookup_2).
  subst m.
  assert (a < b) as Hab.
  { destruct (decide (a < b)) as [?|Hge]; [done|]. exfalso.
    destruct (decide (a = b)) as [->|Hne]; [congruence|].
    specialize (Hbefore b (q', n) ltac:(lia) Hb). simpl in Hbefore. lia. }
  apply (Counter_keys_order l a b p q'); [..|done].
  - rewrite Hc, list_lookup_fmap, Ha. done.
  - rewrite Hc, list_lookup_fmap, Hb. done.
Qed.

End MostCommon.

Lemma most_common_first_of_ties_witness :
  2 ∈ [2; 1; 1; 2] ∧
  ∀ q, q ≠ 2 →
    count_occ Nat.eq_dec [2; 1; 1; 2] q = count_occ Nat.eq_dec [2; 1; 1; 2] 2 →
    ∃ i, [2; 1; 1; 2] !! i = Some 2 ∧ (q ∉ take i [2; 1; 1; 2]).
Proof.
  apply (MostCommon.most_common_first_of_ties [2; 1; 1; 2] 2). reflexivity.
Defined.

(** ** The batches, whatever the number of sequences *)

Module BatchesExtras.
Import Batches BatchesFacts.
Section BatchesExtras.
Context {seq_t emb : Type} (embed : list seq_t → list emb).
Hypothesis embed_app : ∀ l1 l2, embed (l1 ++ l2) = embed l1 ++ embed l2.

(** X25.  What the batched inference of [_validate_epoch_default] gives
    for every number of sequences: all the embeddings, in input order, when
    this number is not a multiple of the batch size; the embeddings of all
    the sequences but those of the last batch when it is a multiple of at
    least twice the batch size; and [ValueError] when there is exactly one
    batch of sequences, or none. *)
Theorem embed_batches_every_case (bs : nat) (XX : list seq_t) :
  0 < bs →
  embed_batches embed bs XX =
    if decide (length XX `mod` bs ≠ 0) then Ok (embed XX)
    else if decide (2 * bs ≤ length XX)
         then Ok (embed (take (length XX - bs) XX))
         else Raise "ValueError".
Proof.
  intros Hbs. destruct (decide (length XX `mod` bs ≠ 0)) as [Hr|Hr].
  - by apply embed_batches_in_order.
  - assert (length XX `mod` bs = 0) as Hr0 by lia.
    destruct (decide (2 * bs ≤ length XX)) as [H2|H2].
    + by apply embed_batches_multiple.
    + apply embed_batches_one_batch; [done|].
      pose proof (Nat.div_mod_eq (length XX) bs) as Hdm. rewrite Hr0 in Hdm.
      destruct (Nat.div (length XX) bs) as [|[|q]]; [right|left|]; nia.
Qed.

End BatchesExtras.
End BatchesExtras.

Lemma embed_batches_every_case_witness :
  Batches.embed_batches (fun l : list nat => l) 2 [1; 2; 3; 4] = Ok [1; 2] ∧
  Batches.embed_batches (fun l : list nat => l) 2 [1; 2; 3] = Ok [1; 2; 3] ∧
  Batches.embed_batches (fun l : list nat => l) 2 [1; 2] = Raise "ValueError".
Proof.
  split_and!.
  - exact (BatchesExtras.embed_batches_every_case (fun l : list nat => l)
             (fun _ _ => eq_refl) 2 [1; 2; 3; 4] ltac:(lia)).
  - exact (BatchesExtras.embed_batches_every_case (fun l : list nat => l)
             (fun _ _ => eq_refl) 2 [1; 2; 3] ltac:(lia)).
  - exact (BatchesExtras.embed_batches_every_case (fun l : list nat => l)
             (fun _ _ => eq_refl) 2 [1; 2] ltac:(lia)).
Defined.

(** ** From the store of [data] to the sample of the validation *)

Module StoreToSample.
Import Sampler SamplerFacts.
Section StoreToSample.
Context {feat attrs rng : Type} (fill : feat) (stats : list feat → attrs).
Context (choice : rng → list nat → nat → list nat * rng) (seed : rng).



End StoreToSample.


End StoreToSample.

(** ** The groups of a store written by [data] *)

Module StoreGroups.
Import Store StoreFacts.

(** Two sequences with the same speech-turn identifier have the same
    label. *)
Lemma turn_ids_homogeneous (ys : list label) : ∀ k j a,
  j ≤ k → turn_ids ys !! j = Some a → turn_ids ys !! k = Some a →
  ys !! j = ys !! k.
Proof.
  induction k as [|k IH]; intros j a Hjk Hj Hk.
  - by replace j with 0 by lia.
  - destruct (decide (j = S k)) as [->|Hne]; [done|].
    assert (S k < length ys) as Hlen
      by (rewrite <- turn_ids_length; by eapply lookup_lt_Some).
    destruct (lookup_lt_is_Some_2 (turn_ids ys) k) as [b Hb];
      [rewrite turn_ids_length; lia|].
    destruct (lookup_lt_is_Some_2 ys k) as [y Hy]; [lia|].
    destruct (lookup_lt_is_Some_2 ys (S k)) as [y' Hy']; [lia|].
    pose proof (turn_ids_mono ys j k a b ltac:(lia) Hj Hb) as Hab.
    pose proof (turn_ids_mono ys k (S k) b a ltac:(lia) Hb Hk) as Hba.
    assert (b = a) as -> by lia.
    pose proof (turn_ids_step ys k y y' a a Hy Hy' Hb Hk) as Hstep.
    rewrite (IH j a ltac:(lia) Hj Hb), Hy, Hy'.
    destruct (decide (y' = y)) as [->|Hyy]; [done|lia].
Qed.

Section StoreGroups.
Context {feat attrs : Type} (fill : feat) (stats : list feat → attrs).

(** X28.  In a store that [data] wrote, the sequences of a group carry one
    label: two entries with the same group id in [z] have the same label
    in [y]. *)
Theorem built_store_groups_share_label
    (files : list (file (feat:=feat))) x prev :
  2 ≤ length (concat files) →
  ∃ s st, build fill stats files x prev = Ok (s, st) ∧
    ∀ r r' k, st_z st !! r = Some k → st_z st !! r' = Some k →
              st_y st !! r = st_y st !! r'.
Proof.
  intros H2.
  destruct (build_ok fill stats files x prev _ eq_refl H2)
    as (s & st & Hb & _ & HY & HZ).
  exists s, st. split; [done|]. rewrite HY, HZ.
  set (n := length (concat files) - 1).
  assert (∀ r r' k, r ≤ r' →
            take n (turn_ids (concat files).*2) !! r = Some k →
            take n (turn_ids (concat files).*2) !! r' = Some k →
            take n (concat files).*2 !! r = take n (concat files).*2 !! r')
    as Hle.
  { intros r r' k Hrr [Hr Hrn]%lookup_take_Some [Hr' Hrn']%lookup_take_Some.
    rewrite !lookup_take_lt by done.
    by apply (turn_ids_homogeneous _ r' r k). }
  intros r r' k Hr Hr'. destruct (decide (r ≤ r')) as [?|?].
  - by apply (Hle r r' k).
  - symmetry. apply (Hle r' r k); [lia|done..].
Qed.

End StoreGroups.

Lemma built_store_groups_share_label_witness :
  ∃ s st,
    build (feat:=nat) 0 length
      [[(7, "A"); (8, "A")]; [(9, "B"); (10, "B"); (11, "A")]] XUnbound None
      = Ok (s, st) ∧
    ∀ r r' k, st_z st !! r = Some k → st_z st !! r' = Some k →
              st_y st !! r = st_y st !! r'.
Proof.
  apply (built_store_groups_share_label (feat:=nat) 0 length
           [[(7, "A"); (8, "A")]; [(9, "B"); (10, "B"); (11, "A")]]
           XUnbound None).
  simpl. lia.
Defined.

End StoreGroups.
